(** * Particle system mask: a shallow embedding of [nodes/masks/mask_base.py]

    The development follows [ParticleSystemMaskBase]: the emitters and their
    fractional accumulators, the vortex and gravity-well fields, the collision
    test against the mask boundary, the per-frame update with its five
    sub-steps, and the frame loop of [process_mask].

    Python floats are read as real numbers ([R]), so that a conversion
    between float widths changes nothing; Python ints as [Z].  The 2D vector
    type is pymunk's [Vec2d]; a pymunk [Body] is a record that carries the
    attributes the code attaches to it.  The bodies live in the space and
    [self.particles] holds references to them: the space is a list of bodies
    and [particles] a list of indices into it.  A body stays in the space
    when the cull drops it from [particles].

    What the file calls and does not define is kept apart: pymunk's
    integrator, the random generator, OpenCV's contour extraction and the
    [process_single_mask] of the subclasses are parameters of the model.

    The other base classes of the file follow ([MaskBase.apply_mask_operation],
    [TemporalMaskBase.apply_temporal_mask_operation], the emitter modulation
    and [OpticalFlowMaskBase]), with the arithmetic of
    [nodes/masks/mask_utils.py] they call: easing, normalization, the mask
    arithmetic and the loop of [morph_mask].  The image operations of OpenCV
    and scipy (blur, distance transform, erosion and dilation, optical flow)
    are parameters. *)

From Stdlib Require Import Reals Lra Lia ZArith List Bool.
From stdpp Require Import base option list strings.
Import ListNotations.
Open Scope R_scope.

(** ** Comparisons of floats as booleans *)

Definition Rltb (a b : R) : bool := if Rlt_dec a b then true else false.
Definition Rgtb (a b : R) : bool := Rltb b a.
Definition Rgeb (a b : R) : bool := if Rle_dec b a then true else false.

(** Python's [int(x)] on a float: truncation toward zero. *)
Definition py_int (x : R) : Z :=
  if Rle_dec 0 x then Int_part x else (- Int_part (- x))%Z.

(** [math.radians]. *)
Definition radians (deg : R) : R := deg * PI / 180.

(** ** pymunk.Vec2d *)

Record Vec2d : Type := mkVec2d { vx : R; vy : R }.

Definition vzero : Vec2d := mkVec2d 0 0.
Definition vadd (a b : Vec2d) : Vec2d := mkVec2d (vx a + vx b) (vy a + vy b).
Definition vsub (a b : Vec2d) : Vec2d := mkVec2d (vx a - vx b) (vy a - vy b).
Definition vscale (a : Vec2d) (k : R) : Vec2d := mkVec2d (vx a * k) (vy a * k).
Definition vneg (a : Vec2d) : Vec2d := mkVec2d (- vx a) (- vy a).
Definition dot (a b : Vec2d) : R := vx a * vx b + vy a * vy b.

(** [Vec2d.length]: [sqrt(x**2 + y**2)]. *)
Definition vlength (a : Vec2d) : R := sqrt (vx a * vx a + vy a * vy a).

(** [Vec2d.normalized()]: the vector divided by its length, and the zero
    vector when the length is 0. *)
Definition normalized (a : Vec2d) : Vec2d :=
  let length := vlength a in
  if Req_dec_T length 0 then mkVec2d 0 0
  else mkVec2d (vx a / length) (vy a / length).

(** [Vec2d.perpendicular_normal()]: the vector rotated by a quarter turn and
    divided by its length; the vector itself when the length is 0. *)
Definition perpendicular_normal (a : Vec2d) : Vec2d :=
  let length := vlength a in
  if Req_dec_T length 0 then mkVec2d (vx a) (vy a)
  else mkVec2d (- vy a / length) (vx a / length).

(** ** Data of the particle system *)

Definition Color : Type := (R * R * R)%type.

(** A pymunk [Body] of mass 1 with the attributes [emit_particle] sets on it.
    [force] is the body's force accumulator. *)
Record Body : Type := mkBody {
  position : Vec2d;
  velocity : Vec2d;
  force : Vec2d;
  creation_time : R;
  lifetime : R;
  p_size : R;
  color : Color
}.

Definition set_position (p : Body) (v : Vec2d) : Body :=
  mkBody v (velocity p) (force p) (creation_time p) (lifetime p) (p_size p) (color p).
Definition set_velocity (p : Body) (v : Vec2d) : Body :=
  mkBody (position p) v (force p) (creation_time p) (lifetime p) (p_size p) (color p).
Definition set_force (p : Body) (f : Vec2d) : Body :=
  mkBody (position p) (velocity p) f (creation_time p) (lifetime p) (p_size p) (color p).

(** [Body.apply_force_at_world_point(force, point)]: the force is added to
    the accumulator.  The torque it also adds is zero here, the point being
    the body's own position, and a body has no angular state in this model. *)
Definition apply_force_at_world_point (p : Body) (f point : Vec2d) : Body :=
  set_force p (vadd (force p) f).

(** An emitter dictionary.  [color] is taken as the RGB triple that
    [string_to_rgb] returns unchanged. *)
Record Emitter : Type := mkEmitter {
  emitter_x : R;
  emitter_y : R;
  particle_direction : R;
  particle_spread : R;
  particle_speed : R;
  particle_size : R;
  emitter_color : Color;
  emission_rate : R;
  initial_plume : R
}.

Inductive WellType : Type := attract | repel.

(** The well and vortex descriptors handed to the node, in normalized
    coordinates. *)
Record WellSpec : Type := mkWellSpec {
  ws_x : R; ws_y : R; ws_strength : R; ws_radius : R; ws_type : WellType
}.

Record VortexSpec : Type := mkVortexSpec {
  vs_x : R; vs_y : R; vs_movement_speed : R;
  vs_strength : R; vs_radius : R; vs_inward_factor : R
}.

(** The objects [initialize_gravity_wells] and [initialize_vortices] build. *)
Record Well : Type := mkWell {
  well_position : Vec2d;
  well_strength : R;
  well_radius : R;
  well_type : WellType
}.

Record Vortex : Type := mkVortex {
  vortex_position : Vec2d;
  vortex_velocity : Vec2d;
  vortex_strength : R;
  vortex_radius : R;
  inward_factor : R
}.

(** A static [pymunk.Segment] of the mask boundary, with its end points. *)
Record Segment : Type := mkSegment { seg_a : Vec2d; seg_b : Vec2d }.

(** A mask frame is a 2D array of floats, an image has three channels. *)
Definition Mask : Type := list (list R).
Definition Image : Type := list (list (list R)).

(** [mask.shape] is [(height, width)]. *)
Definition mask_height (m : Mask) : nat := length m.
Definition mask_width (m : Mask) : nat := length (hd [] m).

(** [np.stack([m] * 3, axis=-1)]: every pixel repeated on three channels. *)
Definition stack3 (m : Mask) : Image := map (map (fun v => [v; v; v])) m.

(** [pymunk.Space]: the gravity, the bodies added so far, and
    [current_time_step], which pymunk documents as the time step of the
    current or most recent call of [step] (0 on a fresh space). *)
Record Space : Type := mkSpace {
  gravity : Vec2d;
  current_time_step : R;
  bodies : list Body
}.

(** The attributes of a [ParticleSystemMaskBase] instance.  [rng] counts the
    draws taken from [random] so far. *)
Record World : Type := mkWorld {
  space : Space;
  particles : list nat;
  mask_shapes : list Segment;
  particles_to_emit : list R;
  total_particles_emitted : Z;
  max_particles : Z;
  emitters : list Emitter;
  gravity_wells : list Well;
  vortices : list Vortex;
  well_strength_multiplier : R;
  particle_lifetime : R;
  rng : nat
}.

(** The keyword arguments of [process_mask]. *)
Record Kwargs : Type := mkKwargs {
  kw_emitters : list Emitter;
  kw_particle_count : Z;
  kw_particle_lifetime : R;
  kw_wind_strength : R;
  kw_gravity : R;
  kw_start_frame : option Z;
  kw_end_frame : option Z;
  kw_respect_mask_boundary : option bool;
  kw_vortices : option (list VortexSpec);
  kw_wells : option (list WellSpec);
  kw_well_strength_multiplier : R
}.

(** The mask tensor: [num_frames] frames of shape [height] x [width]. *)
Record Masks : Type := mkMasks {
  frames : list Mask;
  masks_height : nat;
  masks_width : nat
}.

(** [initialize]: a fresh space without gravity and empty attributes. *)
Definition initialize : World :=
  mkWorld (mkSpace (mkVec2d 0 0) 0 []) [] [] [] 0 0 [] [] [] 0 0 0.

(** ** Gravity wells *)

Definition initialize_gravity_wells (width height : R) (wells : list WellSpec)
  : list Well :=
  map (fun well =>
         let x := ws_x well * width in
         let y := ws_y well * height in
         mkWell (mkVec2d x y) (ws_strength well) (ws_radius well) (ws_type well))
      wells.

(** The body of the loop of [apply_gravity_well_force] for one well. *)
Definition gravity_well_step (multiplier : R) (particle : Body) (well : Well)
  : Body :=
  let offset := vsub (well_position well) (position particle) in
  let distance := vlength offset in
  if Rlt_dec distance (well_radius well) then
    let force_magnitude :=
      well_strength well * (1 - distance / well_radius well) * multiplier in
    let force_direction := normalized offset in
    let force_direction :=
      match well_type well with
      | repel => vneg force_direction
      | attract => force_direction
      end in
    let force := vscale force_direction force_magnitude in
    apply_force_at_world_point particle force (position particle)
  else particle.

Definition apply_gravity_well_force (wells : list Well) (multiplier : R)
  (particle : Body) : Body :=
  fold_left (gravity_well_step multiplier) wells particle.

(** ** Vortices *)

(** [update_vortices] for one vortex: the position moves by [velocity * dt],
    then a velocity component is negated when the new position is out of the
    frame on that axis.  The code negates the component in place
    ([vortex['velocity'].x *= -1]); the model follows it, as a [Vec2d] whose
    components can be assigned does. *)
Definition update_vortex (width height dt : R) (vortex : Vortex) : Vortex :=
  let pos := vadd (vortex_position vortex) (vscale (vortex_velocity vortex) dt) in
  let vel := vortex_velocity vortex in
  let vel :=
    if Rltb (vx pos) 0 || Rgtb (vx pos) width
    then mkVec2d (vx vel * -1) (vy vel) else vel in
  let vel :=
    if Rltb (vy pos) 0 || Rgtb (vy pos) height
    then mkVec2d (vx vel) (vy vel * -1) else vel in
  mkVortex pos vel (vortex_strength vortex) (vortex_radius vortex)
           (inward_factor vortex).

Definition update_vortices (width height dt : R) (vs : list Vortex)
  : list Vortex :=
  map (update_vortex width height dt) vs.

(** The velocity a vortex gives to a particle inside its radius. *)
Definition vortex_new_velocity (vortex : Vortex) (offset : Vec2d) : Vec2d :=
  let distance := vlength offset in
  let tangent := normalized (mkVec2d (- vy offset) (vx offset)) in
  let radial := vneg (normalized offset) in
  let strength := vortex_strength vortex in
  let tangential_velocity :=
    vscale (vscale tangent strength) (distance / vortex_radius vortex) in
  let radial_velocity := vscale (vscale radial strength) (inward_factor vortex) in
  vadd tangential_velocity radial_velocity.

(** The body of the loop of [apply_vortex_force] for one vortex. *)
Definition vortex_step (particle : Body) (vortex : Vortex) : Body :=
  let offset := vsub (position particle) (vortex_position vortex) in
  let distance := vlength offset in
  if Rlt_dec distance (vortex_radius vortex) then
    set_velocity particle (vortex_new_velocity vortex offset)
  else particle.

Definition apply_vortex_force (vs : list Vortex) (particle : Body) (dt : R)
  : Body :=
  fold_left vortex_step vs particle.

(** ** Collision with the mask boundary *)

Definition ccw (A B C : Vec2d) : bool :=
  Rgtb ((vy C - vy A) * (vx B - vx A)) ((vy B - vy A) * (vx C - vx A)).

Definition line_segment_intersect (p1 p2 p3 p4 : Vec2d) : bool :=
  negb (eqb (ccw p1 p3 p4) (ccw p2 p3 p4))
  && negb (eqb (ccw p1 p2 p3) (ccw p1 p2 p4)).

(** The response of [check_particle_mask_collision] to a hit on [segment]. *)
Definition bounce (particle : Body) (old_pos new_pos : Vec2d)
  (segment : Segment) : Body :=
  let segment_vec := vsub (seg_b segment) (seg_a segment) in
  let normal := perpendicular_normal segment_vec in
  let v := velocity particle in
  let reflection := vsub v (vscale normal (2 * dot v normal)) in
  let particle := set_velocity particle (vscale reflection 0.9) in
  let penetration_depth := dot (vsub new_pos old_pos) normal in
  set_position particle
    (vadd old_pos (vscale normal (penetration_depth + p_size particle / 2 + 1))).

(** The loop over the segments stops at the first one that intersects. *)
Fixpoint check_particle_mask_collision (shapes : list Segment)
  (particle : Body) (old_pos new_pos : Vec2d) : Body :=
  match shapes with
  | [] => particle
  | segment :: rest =>
      if line_segment_intersect old_pos new_pos (seg_a segment) (seg_b segment)
      then bounce particle old_pos new_pos segment
      else check_particle_mask_collision rest particle old_pos new_pos
  end.

(** The body of the loop over the particles in [update_particle_system]. *)
Definition move_particle (w : World) (sub_dt : R) (respect_mask_boundary : bool)
  (particle : Body) : Body :=
  let particle := apply_vortex_force (vortices w) particle sub_dt in
  let particle :=
    apply_gravity_well_force (gravity_wells w) (well_strength_multiplier w)
                             particle in
  let old_pos := position particle in
  let new_pos := vadd old_pos (vscale (velocity particle) sub_dt) in
  let particle :=
    if respect_mask_boundary
    then check_particle_mask_collision (mask_shapes w) particle old_pos new_pos
    else particle in
  set_position particle new_pos.

(** ** The polygons of the mask boundary *)

(** The edges of one simplified contour: none when it has fewer than three
    points, else one segment from each point to the next, the last one
    closing the polygon. *)
Definition polygon_segments (points : list Vec2d) : list Segment :=
  if (length points <? 3)%nat then []
  else
    map (fun i =>
           let p1 := nth i points vzero in
           let p2 := nth ((i + 1) mod length points) points vzero in
           mkSegment p1 p2)
        (seq 0 (length points)).

(** Python's [max] of a sequence of floats; it raises on an empty one. *)
Definition max_of (l : list R) : option R :=
  match l with
  | [] => None
  | x :: rest => Some (fold_left Rmax rest x)
  end.

(** World updates, one per attribute the code assigns. *)
Definition set_space (w : World) (s : Space) : World :=
  mkWorld s (particles w) (mask_shapes w) (particles_to_emit w)
    (total_particles_emitted w) (max_particles w) (emitters w)
    (gravity_wells w) (vortices w) (well_strength_multiplier w)
    (particle_lifetime w) (rng w).
Definition set_particles (w : World) (ps : list nat) : World :=
  mkWorld (space w) ps (mask_shapes w) (particles_to_emit w)
    (total_particles_emitted w) (max_particles w) (emitters w)
    (gravity_wells w) (vortices w) (well_strength_multiplier w)
    (particle_lifetime w) (rng w).
Definition set_mask_shapes (w : World) (ss : list Segment) : World :=
  mkWorld (space w) (particles w) ss (particles_to_emit w)
    (total_particles_emitted w) (max_particles w) (emitters w)
    (gravity_wells w) (vortices w) (well_strength_multiplier w)
    (particle_lifetime w) (rng w).
Definition set_particles_to_emit (w : World) (l : list R) : World :=
  mkWorld (space w) (particles w) (mask_shapes w) l
    (total_particles_emitted w) (max_particles w) (emitters w)
    (gravity_wells w) (vortices w) (well_strength_multiplier w)
    (particle_lifetime w) (rng w).
Definition set_vortices (w : World) (vs : list Vortex) (draws : nat) : World :=
  mkWorld (space w) (particles w) (mask_shapes w) (particles_to_emit w)
    (total_particles_emitted w) (max_particles w) (emitters w)
    (gravity_wells w) vs (well_strength_multiplier w)
    (particle_lifetime w) draws.
Definition set_gravity_wells (w : World) (ws : list Well) (multiplier : R)
  : World :=
  mkWorld (space w) (particles w) (mask_shapes w) (particles_to_emit w)
    (total_particles_emitted w) (max_particles w) (emitters w)
    ws (vortices w) multiplier (particle_lifetime w) (rng w).

(** [cull]: the list comprehension that ends [update_particle_system]. *)
Definition alive (sp : Space) (current_time : R) (id : nat) : bool :=
  match bodies sp !! id with
  | Some p => Rltb (current_time - creation_time p) (lifetime p)
  | None => false
  end.

Section ParticleSystem.

(** What the code takes from outside this file:
    - [uniform n a b] is the value of the [n]-th call of [random.uniform],
      made with bounds [a] and [b];
    - [integrate dt gravity shapes bodies b] is the position and velocity
      that pymunk's [Space.step(dt)] gives to body [b] of the space;
    - [find_polygons mask] is the list of simplified contours that
      [cv2.findContours] and [cv2.approxPolyDP] return for the mask;
    - [process_single_mask] is the abstract method a subclass implements to
      rasterize the particles of the world on a frame. *)
Variable uniform : nat -> R -> R -> R.
Variable integrate : R -> Vec2d -> list Segment -> list Body -> Body -> Vec2d * Vec2d.
Variable find_polygons : Mask -> list (list Vec2d).
Variable process_single_mask : World -> Mask -> Z -> Mask * Image.

(** [Space.step(dt)]: nothing on a zero step; else the step is recorded as
    [current_time_step], every body is moved and its force is cleared. *)
Definition space_step (sp : Space) (shapes : list Segment) (dt : R) : Space :=
  if Req_dec_T dt 0 then sp
  else
    mkSpace (gravity sp) dt
      (map (fun b =>
              let pv := integrate dt (gravity sp) shapes (bodies sp) b in
              mkBody (fst pv) (snd pv) vzero (creation_time b) (lifetime b)
                     (p_size b) (color b))
           (bodies sp)).

Definition emit_particle (w : World) (emitter : Emitter) (height width : R)
  (emitter_index : nat) : World :=
  let emitter_pos :=
    mkVec2d (emitter_x emitter * width) (emitter_y emitter * height) in
  let direction := radians (particle_direction emitter) in
  let spread := radians (particle_spread emitter) in
  let speed := particle_speed emitter in
  let angle := uniform (rng w) (direction - spread / 2) (direction + spread / 2) in
  let velocity := vscale (mkVec2d (cos angle) (sin angle)) speed in
  let particle :=
    mkBody emitter_pos velocity vzero (current_time_step (space w))
           (particle_lifetime w) (particle_size emitter) (emitter_color emitter) in
  let sp := space w in
  mkWorld (mkSpace (gravity sp) (current_time_step sp) (bodies sp ++ [particle]))
    (particles w ++ [length (bodies sp)]) (mask_shapes w) (particles_to_emit w)
    (total_particles_emitted w + 1)%Z (max_particles w) (emitters w)
    (gravity_wells w) (vortices w) (well_strength_multiplier w)
    (particle_lifetime w) (S (rng w)).

(** [for _ in range(count): self.emit_particle(emitter, height, width, 0)]. *)
Fixpoint emit_burst (count : nat) (w : World) (emitter : Emitter)
  (height width : R) : World :=
  match count with
  | O => w
  | S n => emit_burst n (emit_particle w emitter height width 0) emitter height width
  end.

(** The loop over the emitters in [setup_particle_system]. *)
Definition initial_particle_count (w : World) (emitter : Emitter) : Z :=
  py_int (IZR (max_particles w) * initial_plume emitter
          / INR (length (emitters w))).

Definition setup_plumes (w : World) (height width : R) : World :=
  fold_left
    (fun w emitter =>
       emit_burst (Z.to_nat (initial_particle_count w emitter)) w emitter
                  height width)
    (emitters w) w.

(** [initialize_vortices]: two draws per vortex for its drift direction. *)
Definition initialize_vortices (width height : R) (specs : list VortexSpec)
  (draws : nat) : list Vortex * nat :=
  fold_left
    (fun acc vortex =>
       let '(vs, n) := acc in
       let x := vs_x vortex * width in
       let y := vs_y vortex * height in
       let dir := mkVec2d (uniform n (-1) 1) (uniform (S n) (-1) 1) in
       (vs ++ [mkVortex (mkVec2d x y)
                        (vscale (normalized dir) (vs_movement_speed vortex))
                        (vs_strength vortex) (vs_radius vortex)
                        (vs_inward_factor vortex)],
        S (S n)))
    specs ([], draws).

(** [if 'vortices' in kwargs: ... else: self.vortices = []]. *)
Definition setup_vortices (w : World) (width height : R) (kw : Kwargs) : World :=
  match kw_vortices kw with
  | Some specs =>
      let '(vs, n) := initialize_vortices width height specs (rng w) in
      set_vortices w vs n
  | None => set_vortices w [] (rng w)
  end.

(** [if 'wells' in kwargs: ... else: self.gravity_wells = []], and the
    multiplier. *)
Definition setup_wells (w : World) (width height : R) (kw : Kwargs) : World :=
  match kw_wells kw with
  | Some specs =>
      set_gravity_wells w (initialize_gravity_wells width height specs)
                        (kw_well_strength_multiplier kw)
  | None => set_gravity_wells w [] (kw_well_strength_multiplier kw)
  end.

(** [setup_particle_system].  [None] stands for the exception Python raises:
    [max] of no emitter, or the division by a zero cell size.  The keyword
    arguments are read as [Kwargs] has them: the colour of an emitter is a
    tuple, which [string_to_rgb] returns as it is, and
    [well_strength_multiplier] is given; a colour string that does not
    parse and a missing multiplier raise in the code and have no
    counterpart here. *)
Definition setup_particle_system (w : World) (width height : R) (kw : Kwargs)
  : option World :=
  let sp :=
    mkSpace (mkVec2d (kw_wind_strength kw) (kw_gravity kw))
            (current_time_step (space w)) (bodies (space w)) in
  biggest ← max_of (map particle_size (kw_emitters kw));
  let cell_size := biggest * 2.5 in
  if Req_dec_T (cell_size * cell_size) 0 then None
  else
    let w :=
      mkWorld sp (particles w) (mask_shapes w)
        (repeat 0 (length (kw_emitters kw))) 0 (kw_particle_count kw)
        (kw_emitters kw) (gravity_wells w) (vortices w)
        (well_strength_multiplier w) (kw_particle_lifetime kw) (rng w) in
    let w := setup_plumes w height width in
    let w := setup_vortices w width height kw in
    let w := setup_wells w width height kw in
    Some w.

(** [update_mask_boundary]: the old segments are dropped and the edges of
    every contour are added in order. *)
Definition update_mask_boundary (w : World) (mask : Mask) : World :=
  set_mask_shapes w (concat (map polygon_segments (find_polygons mask))).

(** The [while] loop of the emission for emitter [i].  Each turn emits one
    particle and takes 1 from the accumulator.  [None] is the [IndexError]
    of [particles_to_emit[i]], or the fuel running out. *)
Fixpoint emit_while (fuel : nat) (w : World) (emitter : Emitter)
  (height width : R) (i : nat) : option World :=
  match particles_to_emit w !! i with
  | None => None
  | Some acc =>
      if Rgeb acc 1 && (total_particles_emitted w <? max_particles w)%Z then
        match fuel with
        | O => None
        | S fuel' =>
            let w := emit_particle w emitter height width i in
            let w :=
              set_particles_to_emit w
                (alter (fun a => a - 1) i (particles_to_emit w)) in
            emit_while fuel' w emitter height width i
        end
      else Some w
  end.

(** Every turn of the loop adds 1 to [total_particles_emitted], so the room
    left under [max_particles] is fuel enough. *)
Definition emission_fuel (w : World) : nat :=
  Z.to_nat (max_particles w - total_particles_emitted w).

(** One emitter of the emission loop of a sub-step. *)
Definition emit_from (w : World) (sub_dt height width : R) (i : nat)
  (emitter : Emitter) : option World :=
  acc ← particles_to_emit w !! i;
  let w :=
    set_particles_to_emit w
      (<[i := acc + emission_rate emitter * sub_dt]> (particles_to_emit w)) in
  emit_while (emission_fuel w) w emitter height width i.

(** [for i, emitter in enumerate(self.emitters)], from index [i] on. *)
Fixpoint emit_all (w : World) (sub_dt height width : R) (i : nat)
  (es : list Emitter) : option World :=
  match es with
  | [] => Some w
  | emitter :: rest =>
      w ← emit_from w sub_dt height width i emitter;
      emit_all w sub_dt height width (S i) rest
  end.

(** [for particle in self.particles]: each body is updated in the space. *)
Definition move_particles (w : World) (sub_dt : R)
  (respect_mask_boundary : bool) : World :=
  let sp := space w in
  set_space w
    (mkSpace (gravity sp) (current_time_step sp)
       (fold_left
          (fun bs id => alter (move_particle w sub_dt respect_mask_boundary) id bs)
          (particles w) (bodies sp))).

(** One turn of [for _ in range(sub_steps)]. *)
Definition sub_step (w : World) (sub_dt height width : R)
  (respect_mask_boundary : bool) : option World :=
  w ← emit_all w sub_dt height width 0 (emitters w);
  let w := move_particles w sub_dt respect_mask_boundary in
  Some (set_space w (space_step (space w) (mask_shapes w) sub_dt)).

Fixpoint sub_steps_loop (n : nat) (w : World) (sub_dt height width : R)
  (respect_mask_boundary : bool) : option World :=
  match n with
  | O => Some w
  | S n' =>
      w ← sub_step w sub_dt height width respect_mask_boundary;
      sub_steps_loop n' w sub_dt height width respect_mask_boundary
  end.

Definition cull (w : World) : World :=
  let current_time := current_time_step (space w) in
  set_particles w (filter (fun id => alive (space w) current_time id = true)
                          (particles w)).

Definition update_particle_system (w : World) (dt : R) (current_mask : Mask)
  (respect_mask_boundary : bool) : option World :=
  let w :=
    if respect_mask_boundary then update_mask_boundary w current_mask else w in
  let height := INR (mask_height current_mask) in
  let width := INR (mask_width current_mask) in
  let w := set_vortices w (update_vortices width height dt (vortices w)) (rng w) in
  let sub_steps := 5%nat in
  let sub_dt := dt / INR sub_steps in
  w ← sub_steps_loop sub_steps w sub_dt height width respect_mask_boundary;
  Some (cull w).

(** ** The frame loop *)



(** The body of [for i in range(num_frames)]: the world after the frame and
    what is appended to [mask_result] and [image_result]. *)
Definition process_frame (start_frame end_frame : Z)
  (respect_mask_boundary : bool) (w : World) (i : Z) (mask : Mask)
  : option (World * (Mask * Image)) :=
  if (i <? start_frame)%Z || (i >=? end_frame)%Z then
    Some (w, (mask, stack3 mask))
  else
    w ← update_particle_system w (1 / 30) mask respect_mask_boundary;
    Some (w, process_single_mask w mask i).

(** The loop from frame [i] on.  [progress] is [self.current_progress], which
    [update_progress] advances after every frame. *)
Fixpoint process_frames (start_frame end_frame : Z)
  (respect_mask_boundary : bool) (w : World) (progress : Z) (i : Z)
  (ms : list Mask) : option (World * Z * list (Mask * Image)) :=
  match ms with
  | [] => Some (w, progress, [])
  | mask :: rest =>
      r ← process_frame start_frame end_frame respect_mask_boundary w i mask;
      let '(w, out) := r in
      t ← process_frames start_frame end_frame respect_mask_boundary w
            (progress + 1)%Z (i + 1)%Z rest;
      let '(w, progress, outs) := t in
      Some (w, progress, out :: outs)
  end.


End ParticleSystem.


(** ** Notions used in the statements *)

(** [p] is a point of the closed segment from [a] to [b]. *)
Definition on_segment (p a b : Vec2d) : Prop :=
  exists t : R, 0 <= t <= 1 /\ p = vadd a (vscale (vsub b a) t).

(** [A], [B] and [C] lie on one line: the two products [ccw] compares are
    equal. *)
Definition collinear (A B C : Vec2d) : Prop :=
  (vy C - vy A) * (vx B - vx A) = (vy B - vy A) * (vx C - vx A).

(** The segment at which the loop of [check_particle_mask_collision] stops. *)
Definition first_hit (shapes : list Segment) (old_pos new_pos : Vec2d)
  : option Segment :=
  List.find (fun s => line_segment_intersect old_pos new_pos (seg_a s) (seg_b s))
            shapes.

(** The normal [check_particle_mask_collision] computes for a segment. *)
Definition segment_normal (s : Segment) : Vec2d :=
  perpendicular_normal (vsub (seg_b s) (seg_a s)).


(** A horizontal boundary segment and a particle falling through it. *)
Definition floor_segment : Segment := mkSegment (mkVec2d 0 0) (mkVec2d 10 0).

Definition falling_particle : Body :=
  mkBody (mkVec2d 5 1) (mkVec2d 0 (-300)) vzero 0 4 2 (1, 1, 1).

Definition floor_world : World :=
  mkWorld (mkSpace vzero 0 [falling_particle]) [0%nat] [floor_segment] []
          0 0 [] [] [] 1 4 0.


(** The particle is inside the radius of the vortex: the test of
    [apply_vortex_force]. *)
Definition in_vortex_range (particle : Body) (vortex : Vortex) : Prop :=
  vlength (vsub (position particle) (vortex_position vortex)) < vortex_radius vortex.

(** The force one well adds to the accumulator of a particle at [pos]: what
    [apply_gravity_well_force] adds to a body without any force. *)
Definition well_force (multiplier : R) (pos : Vec2d) (well : Well) : Vec2d :=
  force (gravity_well_step multiplier
           (mkBody pos vzero vzero 0 0 0 (0, 0, 0)) well).

(** The distance from a point to a well. *)
Definition well_distance (pos : Vec2d) (well : Well) : R :=
  vlength (vsub (well_position well) pos).

(** Two vortices around a particle at (1,0), and a well on a particle. *)
Definition left_vortex : Vortex := mkVortex (mkVec2d 0 0) vzero 1 2 (1 / 2).
Definition right_vortex : Vortex := mkVortex (mkVec2d 2 0) vzero 3 3 (1 / 2).
Definition swirled_particle : Body :=
  mkBody (mkVec2d 1 0) (mkVec2d 7 7) vzero 0 4 2 (1, 1, 1).
Definition unit_well : Well := mkWell (mkVec2d 0 0) 1 1 attract.


(** What the emission loop may change between two worlds: it appends the new
    bodies, stamped with the time step and the lifetime of the moment, to the
    space and to the live particles, counts them, and rewrites the
    accumulators. *)
Record emission_only (w w' : World) : Prop := mkEmissionOnly {
  eo_max : max_particles w' = max_particles w;
  eo_emitters : emitters w' = emitters w;
  eo_vortices : vortices w' = vortices w;
  eo_lifetime : particle_lifetime w' = particle_lifetime w;
  eo_clock : current_time_step (space w') = current_time_step (space w);
  eo_slots : length (particles_to_emit w') = length (particles_to_emit w);
  eo_new :
    exists new : list Body,
      bodies (space w') = bodies (space w) ++ new /\
      particles w' = particles w ++ seq (length (bodies (space w))) (length new) /\
      total_particles_emitted w'
      = (total_particles_emitted w + Z.of_nat (length new))%Z /\
      Forall (fun b => creation_time b = current_time_step (space w) /\
                       lifetime b = particle_lifetime w) new
}.


(** Every emitter has its accumulator. *)
Definition well_formed (w : World) : Prop :=
  length (particles_to_emit w) = length (emitters w).

(** The two attributes the cull reads on a particle. *)
Definition stamps (b : Body) : R * R := (creation_time b, lifetime b).

(** The state of a world in which the cull never removes anything: the
    recorded time step is at most the sub-step 1/150, which is shorter than
    the lifetime, every body of the space is a live particle, and every body
    was created at a time step that is not negative. *)
Definition never_expiring (w : World) : Prop :=
  0 <= current_time_step (space w) <= 1 / 150 /\
  1 / 150 < particle_lifetime w /\
  particles w = seq 0 (length (bodies (space w))) /\
  total_particles_emitted w = Z.of_nat (length (bodies (space w))) /\
  Forall (fun b => 0 <= fst (stamps b) /\ snd (stamps b) = particle_lifetime w)
         (bodies (space w)).


(** What stays and what grows from a world to a later one of the same run. *)
Record counters_kept (w w' : World) : Prop := mkCountersKept {
  ck_well_formed : well_formed w';
  ck_max : max_particles w' = max_particles w;
  ck_emitters : emitters w' = emitters w;
  ck_lifetime : particle_lifetime w' = particle_lifetime w;
  ck_total : (total_particles_emitted w <= total_particles_emitted w')%Z;
  ck_cap :
    (total_particles_emitted w <= max_particles w)%Z ->
    (total_particles_emitted w' <= max_particles w)%Z
}.


(** The size of the initial plumes of a list of emitters, for a cap [M] and
    [n] emitters in all: [range(count)] of a negative count is empty. *)
Definition burst_total (M : Z) (n : nat) (es : list Emitter) : Z :=
  fold_right
    (fun e acc =>
       (Z.of_nat (Z.to_nat (py_int (IZR M * initial_plume e / INR n))) + acc)%Z)
    0%Z es.


(** On one axis of the frame, from 0 to [hi]: the coordinate [x] is inside,
    or the velocity [u] takes it back inside in one update of length [dt]. *)
Definition axis_near (hi x u dt : R) : Prop :=
  0 <= x <= hi \/ 0 <= x + u * dt <= hi.

Definition vortex_near_frame (width height dt : R) (v : Vortex) : Prop :=
  axis_near width (vx (vortex_position v)) (vx (vortex_velocity v)) dt /\
  axis_near height (vy (vortex_position v)) (vy (vortex_velocity v)) dt.

(** The position is in the frame widened by [tol_x] and [tol_y]. *)
Definition vortex_within (width height tol_x tol_y : R) (v : Vortex) : Prop :=
  - tol_x <= vx (vortex_position v) <= width + tol_x /\
  - tol_y <= vy (vortex_position v) <= height + tol_y.

(** The frames of a run all have the shape of the mask tensor. *)
Definition frames_of_shape (height width : nat) (ms : list Mask) : Prop :=
  Forall (fun m => mask_height m = height /\ mask_width m = width) ms.


(** ** Examples to run the code on *)

(** Stand-ins for what the code takes from outside: a generator that returns
    the lower bound, an engine that leaves every body where it is, a mask
    without contours, and a rasterizer that returns the frame. *)
Definition lower_bound_uniform : nat -> R -> R -> R := fun _ a _ => a.

Definition resting_integrate
  : R -> Vec2d -> list Segment -> list Body -> Body -> Vec2d * Vec2d :=
  fun _ _ _ _ b => (position b, velocity b).

Definition no_polygons : Mask -> list (list Vec2d) := fun _ => [].

Definition frame_as_output : World -> Mask -> Z -> Mask * Image :=
  fun _ m _ => (m, stack3 m).

(** An emitter of 300 particles per second whose initial plume is the whole
    particle count, and one whose plume is twice the count. *)
Definition jet : Emitter := mkEmitter 0.5 0.5 0 0 10 2 (1, 1, 1) 300 1.

(** One particle at most, living a tenth of a second; the effect starts at
    frame 1. *)
Definition short_lived_kwargs : Kwargs :=
  mkKwargs [jet] 1 (1 / 10) 0 0 (Some 1%Z) (Some 0%Z) (Some false) None None 1.


Definition drifting_kwargs : Kwargs :=
  mkKwargs [jet] 1 4 0 0 (Some 0%Z) (Some 0%Z) (Some false)
           (Some [mkVortexSpec 0.5 0.5 3 1 2 0.5]) None 1.

Definition blank_frame : Mask := [[0; 0]; [0; 0]].

Definition four_frames : Masks :=
  mkMasks [blank_frame; blank_frame; blank_frame; blank_frame] 2 2.

(** A world with room for ten particles and none emitted. *)
Definition idle_world : World :=
  mkWorld (mkSpace vzero 0 []) [] [] [0] 0 10 [jet] [] [] 1 4 0.

(** A vortex drifting to the right, alone in a world with one emitter. *)
Definition drifting_vortex : Vortex := mkVortex (mkVec2d 1 1) (mkVec2d 3 0) 1 2 (1 / 2).

Definition drifting_world : World :=
  mkWorld (mkSpace vzero 0 []) [] [] [0] 0 10 [jet] [] [drifting_vortex] 1 4 0.


(** ** Notions used in the properties of the rest of the code *)

(** The sum of a list of floats, and of a list of integers. *)
Definition sum_R (l : list R) : R := fold_right Rplus 0 l.
Definition sum_Z (l : list Z) : Z := fold_right Z.add 0%Z l.

(** The cross product of two plane vectors. *)
Definition cross (a b : Vec2d) : R := vx a * vy b - vy a * vx b.


(** * The mask utilities: [nodes/masks/mask_utils.py] *)

(** Arrays of floats are lists of rows; an operation the code writes on
    whole arrays is the same operation on every element.  numpy broadcasts
    two arrays of different shapes when it can and raises otherwise; the
    element-wise operations below are for two arrays of one shape, and
    every statement about them that depends on it carries the hypothesis
    that the two shapes are equal. *)

(** [np.clip(v, lo, hi)]: [minimum(hi, maximum(v, lo))]. *)
Definition clip (v lo hi : R) : R := Rmin hi (Rmax v lo).

Definition mask_map (f : R -> R) (m : Mask) : Mask := map (map f) m.

Definition mask_zip_with (f : R -> R -> R) (a b : Mask) : Mask :=
  zip_with (zip_with f) a b.

(** The shape of an array, row by row. *)
Definition shape_of {A : Type} (m : list (list A)) : list nat := map length m.

(** [apply_easing] on one value.  Any other easing type is linear. *)
Definition apply_easing_at (t : R) (easing_type : string) : R :=
  if decide (easing_type = "linear") then t
  else if decide (easing_type = "ease_in_out") then t * t * (3 - 2 * t)
  else if decide (easing_type = "bounce") then
    1 - (1 - t) * (1 - t) * (sin (t * PI * 5) * sin (t * PI * 5))
  else if decide (easing_type = "elastic") then t * t * sin (10 * PI * t)
  else t.

Definition apply_easing (t : list R) (easing_type : string) : list R :=
  map (fun x => apply_easing_at x easing_type) t.

(** Python's [min] and numpy's [arr.min()]; they raise on an empty input. *)
Definition min_of (l : list R) : option R :=
  match l with
  | [] => None
  | x :: rest => Some (fold_left Rmin rest x)
  end.

(** The result of [normalize_array]: when the largest and the smallest
    element are equal every element is 0/0, which numpy computes as NaN
    without raising. *)
Inductive Normalized : Type :=
| NotANumber
| Numbers (m : Mask).

(** [normalize_array]: [(arr - arr.min()) / (arr.max() - arr.min())].
    [None] is the [ValueError] of [min] on an array without elements. *)
Definition normalize_array (arr : Mask) : option Normalized :=
  lo ← min_of (concat arr);
  hi ← max_of (concat arr);
  if Req_dec_T (hi - lo) 0 then Some NotANumber
  else Some (Numbers (mask_map (fun v => (v - lo) / (hi - lo)) arr)).

(** The mask arithmetic. *)
Definition add_masks (mask_a mask_b : Mask) (strength : R) : Mask :=
  mask_zip_with (fun a b => clip (a + b * strength) 0 1) mask_a mask_b.

Definition subtract_masks (mask_a mask_b : Mask) (strength : R) : Mask :=
  mask_zip_with (fun a b => clip (a - b * strength) 0 1) mask_a mask_b.

Definition multiply_masks (mask_a mask_b : Mask) (strength : R) : Mask :=
  mask_zip_with (fun a b => a * (b * strength + (1 - strength))) mask_a mask_b.

Definition minimum_masks (mask_a mask_b : Mask) (strength : R) : Mask :=
  mask_zip_with (fun a b => Rmin a (b * strength + a * (1 - strength)))
                mask_a mask_b.

Definition maximum_masks (mask_a mask_b : Mask) (strength : R) : Mask :=
  mask_zip_with (fun a b => Rmax a (b * strength + a * (1 - strength)))
                mask_a mask_b.

(** [combine_masks]; [None] is the [ValueError] of an unknown method. *)
Definition combine_masks (mask_a mask_b : Mask) (combination_method : string)
  (strength : R) : option Mask :=
  if decide (combination_method = "add") then
    Some (add_masks mask_a mask_b strength)
  else if decide (combination_method = "subtract") then
    Some (subtract_masks mask_a mask_b strength)
  else if decide (combination_method = "multiply") then
    Some (multiply_masks mask_a mask_b strength)
  else if decide (combination_method = "minimum") then
    Some (minimum_masks mask_a mask_b strength)
  else if decide (combination_method = "maximum") then
    Some (maximum_masks mask_a mask_b strength)
  else None.

Section Morphology.

(** OpenCV's [erode], [dilate] and [morphologyEx] with [MORPH_OPEN] and
    [MORPH_CLOSE], for a square kernel of ones of the given size. *)
Variable erode dilate morph_open morph_close : Mask -> Z -> Mask.

(** One turn of the loop of [morph_mask]. *)
Definition morph_once (mask : Mask) (morph_type : string) (kernel_size : Z)
  : Mask :=
  if decide (morph_type = "erode") then erode mask kernel_size
  else if decide (morph_type = "dilate") then dilate mask kernel_size
  else if decide (morph_type = "open") then morph_open mask kernel_size
  else if decide (morph_type = "close") then morph_close mask kernel_size
  else mask.

Fixpoint morph_loop (n : nat) (mask : Mask) (morph_type : string)
  (kernel_size : Z) (calls : nat) : Mask * nat :=
  match n with
  | O => (mask, calls)
  | S n' =>
      morph_loop n' (morph_once mask morph_type kernel_size) morph_type
                 kernel_size (S calls)
  end.

(** [morph_mask] with a progress callback: the mask and the number of times
    the callback was called.  [None] is the [ValueError] of [np.ones] for a
    negative kernel size. *)
Definition morph_mask (mask : Mask) (morph_type : string) (kernel_size : Z)
  (iterations : Z) : option (Mask * nat) :=
  if (kernel_size <? 0)%Z then None
  else Some (morph_loop (Z.to_nat iterations) mask morph_type kernel_size 0).

End Morphology.

(** * The base classes of the mask nodes *)

(** [np.linspace(0, 1, num)]: [num] values from 0 in steps of
    [1 / (num - 1)], the single value 0 when [num] is 1; it raises on a
    negative [num]. *)
Definition linspace01 (num : Z) : option (list R) :=
  if (num <? 0)%Z then None
  else
    Some (map (fun i => if (num =? 1)%Z then 0
                        else INR i * (1 / (IZR num - 1)))
              (seq 0 (Z.to_nat num))).

(** [np.ones(num)]; it raises on a negative [num]. *)
Definition ones (num : Z) : option (list R) :=
  if (num <? 0)%Z then None else Some (repeat 1 (Z.to_nat num)).

(** The easing values of [apply_temporal_mask_operation]. *)
Definition temporal_easing_values (effect_duration : Z)
  (temporal_easing : string) (palindrome : bool) : option (list R) :=
  if decide (temporal_easing = "None") then ones effect_duration
  else if palindrome then
    let half_duration := (effect_duration / 2)%Z in
    t ← linspace01 half_duration;
    let easing_values := apply_easing t temporal_easing in
    Some (easing_values ++ rev easing_values)
  else
    t ← linspace01 effect_duration;
    Some (apply_easing t temporal_easing).

(** [np.stack(result)]: a [ValueError] on an empty list and on arrays that
    do not all have the shape of the first. *)
Definition np_stack (result : list Mask) : option (list Mask) :=
  match result with
  | [] => None
  | first :: rest =>
      if forallb (fun m => bool_decide (shape_of m = shape_of first)) rest
      then Some result
      else None
  end.

Section MaskBase.

(** [ndimage.gaussian_filter] and [cv2.distanceTransform], and the abstract
    [process_single_mask] of a temporal node. *)
Variable apply_blur : Mask -> R -> Mask.
Variable create_distance_transform : Mask -> Mask.
Variable process_single_mask : Mask -> R -> Z -> Mask.

(** [pre_process] and [post_process]: the processors in the order they were
    added. *)
Definition run_processors (processors : list (Mask -> Mask)) (mask : Mask)
  : Mask :=
  fold_left (fun m processor => processor m) processors mask.

Definition add_processor (processors : list (Mask -> Mask))
  (func : Mask -> Mask) : list (Mask -> Mask) :=
  processors ++ [func].

(** [processed_mask[subtraction_mask] = 0] where
    [subtraction_mask = dist_transform > threshold]: an [IndexError] when the
    two shapes differ; no element of a NaN array is above the threshold. *)
Definition subtract_by_distance (processed : Mask) (dist : Normalized)
  (dist_shape : list nat) (threshold : R) : option Mask :=
  if decide (dist_shape = shape_of processed) then
    match dist with
    | NotANumber => Some processed
    | Numbers d =>
        Some (mask_zip_with
                (fun v dv => if Rgtb dv threshold then 0 else v) processed d)
    end
  else None.

(** The body of the loop of [apply_mask_operation] for one frame. *)
Definition mask_operation_frame (pre post : list (Mask -> Mask))
  (invert : bool) (subtract_original grow_with_blur : R)
  (processed_mask original_mask : Mask) : option Mask :=
  let processed_mask := run_processors pre processed_mask in
  let processed_mask :=
    if invert then mask_map (fun v => 1 - v) processed_mask
    else processed_mask in
  let processed_mask :=
    if Rgtb grow_with_blur 0 then apply_blur processed_mask grow_with_blur
    else processed_mask in
  processed_mask ←
    (if Rgtb subtract_original 0 then
       let dist_transform := create_distance_transform original_mask in
       normalized ← normalize_array dist_transform;
       let threshold := 1 - subtract_original in
       subtract_by_distance processed_mask normalized
                            (shape_of dist_transform) threshold
     else Some processed_mask);
  let processed_mask := run_processors post processed_mask in
  Some (mask_map (fun v => clip v 0 1) processed_mask).

(** The loop over [zip(processed_masks, original_masks)]. *)
Fixpoint mask_operation_frames (pre post : list (Mask -> Mask))
  (invert : bool) (subtract_original grow_with_blur : R)
  (processed original : list Mask) : option (list Mask) :=
  match processed, original with
  | p :: ps, o :: os =>
      r ← mask_operation_frame pre post invert subtract_original
            grow_with_blur p o;
      rs ← mask_operation_frames pre post invert subtract_original
             grow_with_blur ps os;
      Some (r :: rs)
  | _, _ => Some []
  end.

(** [apply_mask_operation].  The progress bars are objects of the host and of tqdm and do not enter the
    result. *)
Definition apply_mask_operation (pre post : list (Mask -> Mask))
  (processed_masks original_masks : list Mask) (strength : R) (invert : bool)
  (subtract_original grow_with_blur : R) : option (list Mask) :=
  result ← mask_operation_frames pre post invert subtract_original
             grow_with_blur processed_masks original_masks;
  np_stack result.

(** The loop of [apply_temporal_mask_operation] from frame [i] on.  The
    index [frame_in_effect % len(easing_values)] is a [ZeroDivisionError]
    when there is no easing value. *)
Fixpoint temporal_frames (easing_values : list R) (strength : R)
  (start_frame end_frame : Z) (i : Z) (masks : list Mask)
  : option (list Mask) :=
  match masks with
  | [] => Some []
  | mask :: rest =>
      out ←
        (if (i <? start_frame)%Z || (i >=? end_frame)%Z then Some mask
         else
           let frame_in_effect := (i - start_frame)%Z in
           if (Z.of_nat (length easing_values) =? 0)%Z then None
           else
             progress ←
               easing_values
                 !! Z.to_nat (frame_in_effect mod Z.of_nat (length easing_values));
             let temporal_strength := strength * progress in
             Some (process_single_mask mask temporal_strength i));
      outs ← temporal_frames easing_values strength start_frame end_frame
               (i + 1)%Z rest;
      Some (out :: outs)
  end.

Definition temporal_end_frame (end_frame num_frames : Z) : Z :=
  if (end_frame >? 0)%Z then end_frame else num_frames.

Definition temporal_effect_duration (effect_duration start_frame end_frame
  num_frames : Z) : Z :=
  if (effect_duration >? 0)%Z then Z.min effect_duration num_frames
  else (end_frame - start_frame)%Z.

(** [apply_temporal_mask_operation]. *)
Definition apply_temporal_mask_operation (masks : list Mask) (strength : R)
  (start_frame end_frame effect_duration : Z) (temporal_easing : string)
  (palindrome : bool) : option (list Mask) :=
  let num_frames := Z.of_nat (length masks) in
  let end_frame := temporal_end_frame end_frame num_frames in
  let effect_duration :=
    temporal_effect_duration effect_duration start_frame end_frame num_frames in
  easing_values ← temporal_easing_values effect_duration temporal_easing palindrome;
  result ← temporal_frames easing_values strength start_frame end_frame 0 masks;
  np_stack result.

End MaskBase.

(** ** The modulation of the emitters *)

(** The [movement] block of an emitter. *)
Record Movement : Type := mkMovement {
  emitter_x_frequency : R;
  emitter_x_amplitude : R;
  emitter_y_frequency : R;
  emitter_y_amplitude : R;
  direction_frequency : R;
  direction_amplitude : R
}.

(** An emitter dictionary with the keys [main_function] adds to it and the
    [position] that [modulate_parameters] writes. *)
Record MovingEmitter : Type := mkMovingEmitter {
  me_emitter : Emitter;
  initial_x : R;
  initial_y : R;
  initial_direction : option R;
  movement : option Movement;
  me_position : option (R * R)
}.

Definition with_placement (e : Emitter) (x y direction : R) : Emitter :=
  mkEmitter x y direction (particle_spread e) (particle_speed e)
            (particle_size e) (emitter_color e) (emission_rate e)
            (initial_plume e).

(** The loop of [main_function] over the emitters: the initial position,
    and the initial direction of an emitter that moves. *)
Definition register_emitter (e : Emitter) (mv : option Movement)
  : MovingEmitter :=
  mkMovingEmitter e (emitter_x e) (emitter_y e)
    (match mv with Some _ => Some (particle_direction e) | None => None end)
    mv None.

(** [modulate_parameters] for one emitter.  [None] is the [KeyError] of a
    moving emitter without [initial_direction]. *)
Definition modulate_emitter (frame_index : Z) (width height : R)
  (emitter : MovingEmitter) : option MovingEmitter :=
  let t := IZR frame_index / 30 in
  match movement emitter with
  | None => Some emitter
  | Some mv =>
      let x := initial_x emitter
               + emitter_x_amplitude mv * sin (2 * PI * emitter_x_frequency mv * t) in
      let y := initial_y emitter
               + emitter_y_amplitude mv * sin (2 * PI * emitter_y_frequency mv * t) in
      base_dir ← initial_direction emitter;
      let dir := base_dir
                 + direction_amplitude mv * sin (2 * PI * direction_frequency mv * t) in
      Some (mkMovingEmitter (with_placement (me_emitter emitter) x y dir)
              (initial_x emitter) (initial_y emitter)
              (initial_direction emitter) (movement emitter)
              (Some (x * width, y * height)))
  end.


(** ** [OpticalFlowMaskBase] *)

(** A flow field: two components per pixel. *)
Definition Flow : Type := list (list (R * R)).

(** [np.sqrt(flow[..., 0]**2 + flow[..., 1]**2)]. *)
Definition flow_magnitude_of (flow : Flow) : Mask :=
  map (map (fun f => sqrt (fst f * fst f + snd f * snd f))) flow.

(** [arr[arr < threshold] = 0]. *)
Definition zero_below (arr : Mask) (threshold : R) : Mask :=
  mask_map (fun v => if Rltb v threshold then 0 else v) arr.

Section OpticalFlow.

(** [calculate_optical_flow] on two frames, with the scaling of the frames
    to 8-bit values that precedes the call; [None] is the [ValueError] of
    an unknown flow method.  [apply_flow_mask] is the abstract method of the
    subclass. *)
Variable calculate_optical_flow : Image -> Image -> string -> option Flow.
Variable apply_flow_mask : Mask -> Normalized -> Flow -> R -> Mask.
Variable apply_blur : Mask -> R -> Mask.
Variable create_distance_transform : Mask -> Mask.

(** [OpticalFlowMaskBase.process_mask], for the frame indices of the loop
    of [main_function], which are not negative. *)
Definition optical_flow_process_mask (mask : Mask) (strength : R)
  (images : list Image) (flow_method : string)
  (flow_threshold magnitude_threshold : R) (frame_index : Z) : option Mask :=
  if (frame_index =? 0)%Z || (frame_index >=? Z.of_nat (length images) - 1)%Z
  then Some mask
  else
    frame1 ← images !! Z.to_nat frame_index;
    frame2 ← images !! Z.to_nat (frame_index + 1);
    flow ← calculate_optical_flow frame1 frame2 flow_method;
    let flow_magnitude := flow_magnitude_of flow in
    let flow_magnitude := zero_below flow_magnitude flow_threshold in
    biggest ← max_of (concat flow_magnitude);
    let flow_magnitude :=
      zero_below flow_magnitude (magnitude_threshold * biggest) in
    normalized ← normalize_array flow_magnitude;
    Some (apply_flow_mask mask normalized flow strength).

(** The loop of [OpticalFlowMaskBase.main_function] from frame [i] on. *)
Fixpoint optical_flow_frames (masks : list Mask) (strength : R)
  (images : list Image) (flow_method : string)
  (flow_threshold magnitude_threshold : R) (i : Z) : option (list Mask) :=
  match masks with
  | [] => Some []
  | mask :: rest =>
      processed_mask ←
        optical_flow_process_mask mask strength images flow_method
          flow_threshold magnitude_threshold i;
      others ← optical_flow_frames rest strength images flow_method
                 flow_threshold magnitude_threshold (i + 1)%Z;
      Some (processed_mask :: others)
  end.

(** [OpticalFlowMaskBase.main_function]; the keyword arguments carry the
    options of [apply_mask_operation]. *)
Definition optical_flow_main_function (pre post : list (Mask -> Mask))
  (masks : list Mask) (images : list Image) (strength : R)
  (flow_method : string) (flow_threshold magnitude_threshold : R)
  (invert : bool) (subtract_original grow_with_blur : R)
  : option (list Mask) :=
  result ← optical_flow_frames masks strength images flow_method
             flow_threshold magnitude_threshold 0;
  processed_masks ← np_stack result;
  apply_mask_operation apply_blur create_distance_transform pre post
    processed_masks masks strength invert subtract_original grow_with_blur.

End OpticalFlow.

(** ** Notions used in the statements about masks *)

(** The element of an array at row [i] and column [j]. *)
Definition pixel (m : Mask) (i j : nat) : option R := row ← m !! i; row !! j.

(** A value, and an array of values, between 0 and 1. *)
Definition unit_range (v : R) : Prop := 0 <= v <= 1.
Definition in_unit_range (m : Mask) : Prop := Forall (Forall unit_range) m.

(** The combination methods [combine_masks] knows. *)
Definition combination_methods : list string :=
  ["add"; "subtract"; "multiply"; "minimum"; "maximum"].

(** A frame [i] on which the temporal effect is applied. *)
Definition in_effect (start_frame end_frame : Z) (i : Z) : Prop :=
  (start_frame <= i)%Z /\ (i < end_frame)%Z.


(** The operations [morph_mask] knows. *)
Definition morph_types : list string := ["erode"; "dilate"; "open"; "close"].

(** The mask of a frame of [apply_mask_operation] when the loop body reaches
    the subtraction: after the pre-processors, the inversion and the blur. *)
Definition before_subtraction (apply_blur : Mask -> R -> Mask)
  (pre : list (Mask -> Mask)) (invert : bool) (grow_with_blur : R)
  (processed_mask : Mask) : Mask :=
  let m := run_processors pre processed_mask in
  let m := if invert then mask_map (fun v => 1 - v) m else m in
  if Rgtb grow_with_blur 0 then apply_blur m grow_with_blur else m.

(** Stand-ins for the library functions, for the examples: a structuring
    operation and a blur that return the mask, a distance transform that
    returns the mask as the distances. *)
Definition keep_mask : Mask -> Z -> Mask := fun m _ => m.
Definition no_blur : Mask -> R -> Mask := fun m _ => m.
Definition distance_as_given : Mask -> Mask := fun m => m.

(** A mask of one element, and one of two elements. *)
Definition half_mask : Mask := [[1 / 2]].
Definition step_mask : Mask := [[0; 1]].


(** A [process_single_mask] for the examples: the mask times the strength. *)
Definition scale_by_strength : Mask -> R -> Z -> Mask :=
  fun mask strength _ => mask_map (fun v => v * strength) mask.

(** Two frames of one element. *)
Definition two_frames : list Mask := [half_mask; half_mask].


(** Stand-ins for the examples about the optical flow: a flow method that
    finds no motion, an [apply_flow_mask] that returns the mask, and three
    images of one pixel. *)
Definition still_flow : Image -> Image -> string -> option Flow :=
  fun _ _ _ => Some [[(0, 0)]].
Definition keep_under_flow : Mask -> Normalized -> Flow -> R -> Mask :=
  fun mask _ _ _ => mask.
Definition blank_image : Image := [[[0; 0; 0]]].
Definition three_images : list Image := [blank_image; blank_image; blank_image].


(** ** [TemporalMaskBase.main_function] *)

Section TemporalMain.

Variable apply_blur : Mask -> R -> Mask.
Variable create_distance_transform : Mask -> Mask.
Variable process_single_mask : Mask -> R -> Z -> Mask.

(** The temporal operation on the masks, then [apply_mask_operation] on its
    result with the masks as originals. *)
Definition temporal_main_function (pre post : list (Mask -> Mask))
  (masks : list Mask) (strength : R) (invert : bool)
  (subtract_original grow_with_blur : R)
  (start_frame end_frame effect_duration : Z) (temporal_easing : string)
  (palindrome : bool) : option (list Mask) :=
  let original_masks := masks in
  processed_masks ←
    apply_temporal_mask_operation process_single_mask masks strength
      start_frame end_frame effect_duration temporal_easing palindrome;
  apply_mask_operation apply_blur create_distance_transform pre post
    processed_masks original_masks strength invert subtract_original
    grow_with_blur.

End TemporalMain.



Definition roomy_world : World :=
  mkWorld (mkSpace vzero 0 []) [] [] [0] 0 100 [jet] [] [] 1 4 0.

(** * Properties *)

(** ** Comparisons *)

Lemma Rltb_true_iff (a b : R) : Rltb a b = true <-> a < b.
Proof. unfold Rltb. destruct (Rlt_dec a b); split; intros; try discriminate; tauto. Qed.

Lemma Rltb_false_iff (a b : R) : Rltb a b = false <-> b <= a.
Proof.
  unfold Rltb. destruct (Rlt_dec a b); split; intros; try discriminate; try lra; auto.
Qed.

Lemma Rgtb_true_iff (a b : R) : Rgtb a b = true <-> b < a.
Proof. apply Rltb_true_iff. Qed.

Lemma Rgtb_false_iff (a b : R) : Rgtb a b = false <-> a <= b.
Proof. apply Rltb_false_iff. Qed.

Lemma Rgeb_true_iff (a b : R) : Rgeb a b = true <-> b <= a.
Proof. unfold Rgeb. destruct (Rle_dec b a); split; intros; try discriminate; tauto. Qed.

Lemma Rgeb_false_iff (a b : R) : Rgeb a b = false <-> a < b.
Proof.
  unfold Rgeb. destruct (Rle_dec b a); split; intros; try discriminate; try lra; auto.
Qed.

(** Decides the comparisons of a goal whose operands are numerals. *)
Ltac decide_R :=
  repeat match goal with
  | |- context [Rltb ?a ?b] =>
      first [ rewrite (proj2 (Rltb_true_iff a b)) by lra
            | rewrite (proj2 (Rltb_false_iff a b)) by lra ]
  | |- context [Rgtb ?a ?b] =>
      first [ rewrite (proj2 (Rgtb_true_iff a b)) by lra
            | rewrite (proj2 (Rgtb_false_iff a b)) by lra ]
  | |- context [Rgeb ?a ?b] =>
      first [ rewrite (proj2 (Rgeb_true_iff a b)) by lra
            | rewrite (proj2 (Rgeb_false_iff a b)) by lra ]
  | |- context [Rlt_dec ?a ?b] => destruct (Rlt_dec a b); [ try lra | try lra ]
  | |- context [Req_dec_T ?a ?b] => destruct (Req_dec_T a b); [ try lra | try lra ]
  end.

(** ** Vectors *)

Lemma vec_eq (a b : Vec2d) : vx a = vx b -> vy a = vy b -> a = b.
Proof. destruct a, b; simpl; intros; subst; reflexivity. Qed.

Lemma sum_squares_nonneg (x y : R) : 0 <= x * x + y * y.
Proof. nra. Qed.

Lemma vlength_nonneg (a : Vec2d) : 0 <= vlength a.
Proof. apply sqrt_pos. Qed.

Lemma vlength_sqr (a : Vec2d) : vlength a * vlength a = dot a a.
Proof. unfold vlength, dot. apply sqrt_sqrt, sum_squares_nonneg. Qed.

Lemma vlength_zero_iff (a : Vec2d) : vlength a = 0 <-> a = vzero.
Proof.
  split.
  - intros H. pose proof (vlength_sqr a) as S. rewrite H in S. unfold dot in S.
    apply vec_eq; simpl; nra.
  - intros ->. unfold vlength, vzero; simpl.
    replace (0 * 0 + 0 * 0) with 0 by ring. apply sqrt_0.
Qed.

Lemma vlength_vscale (a : Vec2d) (k : R) : vlength (vscale a k) = Rabs k * vlength a.
Proof.
  unfold vlength, vscale; simpl.
  replace (vx a * k * (vx a * k) + vy a * k * (vy a * k))
    with ((k * k) * (vx a * vx a + vy a * vy a)) by ring.
  rewrite sqrt_mult_alt by nra.
  f_equal. replace (k * k) with (k²) by reflexivity. apply sqrt_Rsqr_abs.
Qed.

Lemma vlength_vneg (a : Vec2d) : vlength (vneg a) = vlength a.
Proof. unfold vlength, vneg; simpl. f_equal. ring. Qed.

Lemma vlength_of_dot (a : Vec2d) (l : R) : 0 <= l -> dot a a = l * l -> vlength a = l.
Proof. intros Hl H. unfold vlength. apply sqrt_lem_1; auto. apply sum_squares_nonneg. Qed.

Lemma normalized_zero : normalized vzero = vzero.
Proof.
  unfold normalized. destruct (Req_dec_T (vlength vzero) 0) as [_|n]; [reflexivity|].
  exfalso. apply n. apply vlength_zero_iff. reflexivity.
Qed.

Lemma normalized_nonzero (a : Vec2d) :
  vlength a <> 0 -> normalized a = mkVec2d (vx a / vlength a) (vy a / vlength a).
Proof. intros H. unfold normalized. destruct (Req_dec_T (vlength a) 0); tauto. Qed.

Lemma normalized_unit (a : Vec2d) : vlength a <> 0 -> vlength (normalized a) = 1.
Proof.
  intros H. rewrite normalized_nonzero by assumption.
  apply vlength_of_dot; [lra|]. unfold dot; simpl.
  pose proof (vlength_sqr a) as S. unfold dot in S.
  field_simplify_eq; [|assumption]. nra.
Qed.

Lemma perpendicular_normal_unit (a : Vec2d) :
  vlength a <> 0 -> dot (perpendicular_normal a) (perpendicular_normal a) = 1.
Proof.
  intros H. unfold perpendicular_normal.
  destruct (Req_dec_T (vlength a) 0); [tauto|].
  unfold dot; simpl. pose proof (vlength_sqr a) as S. unfold dot in S.
  field_simplify_eq; [|assumption]. nra.
Qed.

(** ** The intersection test *)

Lemma ccw_true_iff (A B C : Vec2d) :
  ccw A B C = true <-> (vy B - vy A) * (vx C - vx A) < (vy C - vy A) * (vx B - vx A).
Proof. unfold ccw. apply Rgtb_true_iff. Qed.

Lemma ccw_collinear (A B C : Vec2d) : collinear A B C -> ccw A B C = false.
Proof. unfold collinear, ccw. intros H. apply Rgtb_false_iff. lra. Qed.

Lemma on_segment_collinear (p a b : Vec2d) : on_segment p a b -> collinear p a b.
Proof.
  intros (t & _ & ->). unfold collinear, vadd, vscale, vsub; simpl. ring.
Qed.

Lemma intersect_degenerate (p1 p2 p3 : Vec2d) :
  line_segment_intersect p1 p2 p3 p3 = false.
Proof.
  unfold line_segment_intersect.
  rewrite (ccw_collinear p1 p3 p3), (ccw_collinear p2 p3 p3) by (unfold collinear; ring).
  reflexivity.
Qed.

Lemma check_collision_first_hit shapes particle old_pos new_pos :
  check_particle_mask_collision shapes particle old_pos new_pos =
  match first_hit shapes old_pos new_pos with
  | Some s => bounce particle old_pos new_pos s
  | None => particle
  end.
Proof.
  unfold first_hit. induction shapes as [|s rest IH]; simpl; [reflexivity|].
  destruct (line_segment_intersect old_pos new_pos (seg_a s) (seg_b s)); auto.
Qed.

Lemma first_hit_intersects shapes old_pos new_pos s :
  first_hit shapes old_pos new_pos = Some s ->
  line_segment_intersect old_pos new_pos (seg_a s) (seg_b s) = true.
Proof. unfold first_hit. intros H. apply List.find_some in H. tauto. Qed.

Lemma first_hit_none shapes old_pos new_pos :
  Forall (fun s => line_segment_intersect old_pos new_pos (seg_a s) (seg_b s) = false)
         shapes ->
  first_hit shapes old_pos new_pos = None.
Proof.
  unfold first_hit. induction 1 as [|s rest Hs _ IH]; simpl; [reflexivity|].
  rewrite Hs. exact IH.
Qed.

(** Two values of opposite sides give the parameter of the crossing. *)
Lemma straddle_parameter (f1 f2 : R) :
  (0 < f1 /\ f2 <= 0) \/ (f1 <= 0 /\ 0 < f2) ->
  f1 - f2 <> 0 /\ 0 <= f1 / (f1 - f2) <= 1.
Proof.
  intros H. assert (D : f1 - f2 <> 0) by lra. split; [exact D|].
  destruct H as [[A B]|[A B]].
  - split.
    + apply Rmult_le_pos; [lra|]. left. apply Rinv_0_lt_compat. lra.
    + apply Rmult_le_reg_r with (f1 - f2); [lra|]. field_simplify; lra.
  - replace (f1 / (f1 - f2)) with ((- f1) / (f2 - f1)) by (field; lra).
    split.
    + apply Rmult_le_pos; [lra|]. left. apply Rinv_0_lt_compat. lra.
    + apply Rmult_le_reg_r with (f2 - f1); [lra|]. field_simplify; lra.
Qed.

Lemma ccw_differ (A B C D : Vec2d) :
  negb (eqb (ccw A C D) (ccw B C D)) = true ->
  let f1 := (vy D - vy A) * (vx C - vx A) - (vy C - vy A) * (vx D - vx A) in
  let f2 := (vy D - vy B) * (vx C - vx B) - (vy C - vy B) * (vx D - vx B) in
  (0 < f1 /\ f2 <= 0) \/ (f1 <= 0 /\ 0 < f2).
Proof.
  intros H f1 f2.
  destruct (ccw A C D) eqn:E1, (ccw B C D) eqn:E2; simpl in H; try discriminate.
  - apply ccw_true_iff in E1. unfold ccw in E2. apply Rgtb_false_iff in E2.
    left. unfold f1, f2. lra.
  - apply ccw_true_iff in E2. unfold ccw in E1. apply Rgtb_false_iff in E1.
    right. unfold f1, f2. lra.
Qed.

(** A positive answer of the test is sound: the two segments have a common
    point. *)
Lemma intersect_common_point (p1 p2 p3 p4 : Vec2d) :
  line_segment_intersect p1 p2 p3 p4 = true ->
  exists X, on_segment X p1 p2 /\ on_segment X p3 p4.
Proof.
  unfold line_segment_intersect. intros H.
  apply andb_true_iff in H as [H1 H2].
  apply ccw_differ in H1. cbv zeta in H1.
  pose proof (ccw_differ p3 p4 p1 p2) as H3.
  assert (H2' : negb (eqb (ccw p3 p1 p2) (ccw p4 p1 p2)) = true).
  { destruct (ccw p1 p2 p3) eqn:E3, (ccw p1 p2 p4) eqn:E4; simpl in H2;
      try discriminate.
    - apply ccw_true_iff in E3. unfold ccw in E4. apply Rgtb_false_iff in E4.
      assert (A : ccw p3 p1 p2 = true) by (apply ccw_true_iff; lra).
      assert (B : ccw p4 p1 p2 = false) by (apply Rgtb_false_iff; lra).
      rewrite A, B. reflexivity.
    - apply ccw_true_iff in E4. unfold ccw in E3. apply Rgtb_false_iff in E3.
      assert (A : ccw p3 p1 p2 = false) by (apply Rgtb_false_iff; lra).
      assert (B : ccw p4 p1 p2 = true) by (apply ccw_true_iff; lra).
      rewrite A, B. reflexivity. }
  specialize (H3 H2'). cbv zeta in H3.
  apply straddle_parameter in H1 as [D1 T1].
  apply straddle_parameter in H3 as [D3 T3].
  destruct p1 as [x1 y1], p2 as [x2 y2], p3 as [x3 y3], p4 as [x4 y4].
  simpl in *.
  match type of T1 with 0 <= ?e <= 1 => set (t := e) in * end.
  match type of T3 with 0 <= ?e <= 1 => set (u := e) in * end.
  exists (vadd (mkVec2d x1 y1) (vscale (vsub (mkVec2d x2 y2) (mkVec2d x1 y1)) t)).
  split; [exists t; split; [exact T1|reflexivity]|].
  exists u. split; [exact T3|].
  unfold vadd, vscale, vsub; simpl. unfold t, u.
  f_equal; field; split; lra.
Qed.

Lemma collinear_swap (A B C : Vec2d) : collinear A B C -> collinear B C A.
Proof. unfold collinear. intros H. lra. Qed.

Lemma intersect_false_first (p1 p2 p3 p4 : Vec2d) :
  ccw p1 p3 p4 = false -> ccw p2 p3 p4 = false ->
  line_segment_intersect p1 p2 p3 p4 = false.
Proof. unfold line_segment_intersect. intros -> ->. reflexivity. Qed.

Lemma intersect_false_second (p1 p2 p3 p4 : Vec2d) :
  ccw p1 p2 p3 = false -> ccw p1 p2 p4 = false ->
  line_segment_intersect p1 p2 p3 p4 = false.
Proof.
  unfold line_segment_intersect. intros -> ->. simpl. apply andb_false_r.
Qed.

Lemma no_hit_no_response shapes particle old_pos new_pos :
  Forall (fun s => line_segment_intersect old_pos new_pos (seg_a s) (seg_b s) = false)
         shapes ->
  check_particle_mask_collision shapes particle old_pos new_pos = particle.
Proof.
  intros H. rewrite check_collision_first_hit, first_hit_none by exact H.
  reflexivity.
Qed.

(** C10, as amended.  The test answers [true] only for two segments that
    have a common point.  It answers [false] when the four end points lie on
    one line, and when an end point of one segment lies on the other segment
    while the other end point of the same segment is not strictly on the
    counter-clockwise side; a list of segments on which the test is [false]
    leaves the particle as it is. *)
Theorem C10_intersect_collinear_or_clockwise_touch (p1 p2 p3 p4 : Vec2d) :
  (line_segment_intersect p1 p2 p3 p4 = true ->
   exists X, on_segment X p1 p2 /\ on_segment X p3 p4) /\
  (collinear p1 p3 p4 -> collinear p2 p3 p4 ->
   line_segment_intersect p1 p2 p3 p4 = false) /\
  (on_segment p2 p3 p4 -> ccw p1 p3 p4 = false ->
   line_segment_intersect p1 p2 p3 p4 = false) /\
  (on_segment p1 p3 p4 -> ccw p2 p3 p4 = false ->
   line_segment_intersect p1 p2 p3 p4 = false) /\
  (on_segment p3 p1 p2 -> ccw p1 p2 p4 = false ->
   line_segment_intersect p1 p2 p3 p4 = false) /\
  (on_segment p4 p1 p2 -> ccw p1 p2 p3 = false ->
   line_segment_intersect p1 p2 p3 p4 = false) /\
  (forall shapes particle,
     Forall (fun s => line_segment_intersect p1 p2 (seg_a s) (seg_b s) = false)
            shapes ->
     check_particle_mask_collision shapes particle p1 p2 = particle).
Proof.
  repeat split.
  - apply intersect_common_point.
  - intros A B. apply intersect_false_first; apply ccw_collinear; assumption.
  - intros A B. apply intersect_false_first; [exact B|].
    apply ccw_collinear, on_segment_collinear, A.
  - intros A B. apply intersect_false_first; [|exact B].
    apply ccw_collinear, on_segment_collinear, A.
  - intros A B. apply intersect_false_second; [|exact B].
    apply ccw_collinear, collinear_swap, on_segment_collinear, A.
  - intros A B. apply intersect_false_second; [exact B|].
    apply ccw_collinear, collinear_swap, on_segment_collinear, A.
  - intros shapes particle. apply no_hit_no_response.
Qed.

(** C10 fails as stated: the end point (1,0) of the motion segment from
    (1,1) lies on the boundary segment from (0,0) to (2,0), and the test
    answers [true]. *)
Lemma C10_touching_contact_detected :
  on_segment (mkVec2d 1 0) (mkVec2d 0 0) (mkVec2d 2 0) /\
  line_segment_intersect (mkVec2d 1 1) (mkVec2d 1 0) (mkVec2d 0 0) (mkVec2d 2 0)
  = true.
Proof.
  split.
  - exists (1 / 2). split; [lra|]. apply vec_eq; simpl; lra.
  - unfold line_segment_intersect, ccw; simpl. decide_R. reflexivity.
Qed.

(** ** The bounce *)

Lemma hit_segment_has_length shapes old_pos new_pos s :
  first_hit shapes old_pos new_pos = Some s ->
  vlength (vsub (seg_b s) (seg_a s)) <> 0.
Proof.
  intros H Z. apply first_hit_intersects in H.
  apply vlength_zero_iff in Z.
  assert (E : seg_b s = seg_a s).
  { destruct (seg_a s), (seg_b s). unfold vsub, vzero in Z; simpl in Z.
    injection Z as Zx Zy. apply vec_eq; simpl; lra. }
  rewrite E, intersect_degenerate in H. discriminate.
Qed.

Lemma reflect_preserves_dot (v n : Vec2d) :
  dot n n = 1 ->
  let r := vsub v (vscale n (2 * dot v n)) in
  dot r r = dot v v /\ dot r n = - dot v n.
Proof.
  destruct v as [a b], n as [nx ny]. unfold dot, vsub, vscale; simpl.
  intros H. split.
  - transitivity (a * a + b * b
                  + 4 * (a * nx + b * ny) * (a * nx + b * ny)
                    * ((nx * nx + ny * ny) - 1)); [ring|].
    rewrite H. ring.
  - transitivity ((a * nx + b * ny)
                  - 2 * (a * nx + b * ny) * (nx * nx + ny * ny)); [ring|].
    rewrite H. ring.
Qed.

(** C7.  When the collision loop stops at a segment, the normal the routine
    computes is a unit vector perpendicular to that segment, the speed
    after the bounce is 0.9 times the speed before it, hence not larger, the
    component of the velocity along this normal is reversed and scaled by
    0.9, and the component along the segment is scaled by 0.9 and keeps its
    sign. *)
Theorem C7_bounce_scales_speed (shapes : list Segment) (particle : Body)
  (old_pos new_pos : Vec2d) (s : Segment) :
  first_hit shapes old_pos new_pos = Some s ->
  let after := check_particle_mask_collision shapes particle old_pos new_pos in
  let normal := segment_normal s in
  dot normal normal = 1 /\
  dot normal (vsub (seg_b s) (seg_a s)) = 0 /\
  vlength (velocity after) = 0.9 * vlength (velocity particle) /\
  vlength (velocity after) <= vlength (velocity particle) /\
  dot (velocity after) normal = - (0.9 * dot (velocity particle) normal) /\
  dot (velocity after) (vsub (seg_b s) (seg_a s))
  = 0.9 * dot (velocity particle) (vsub (seg_b s) (seg_a s)).
Proof.
  intros H after normal.
  assert (U : dot normal normal = 1).
  { apply perpendicular_normal_unit. eapply hit_segment_has_length, H. }
  assert (P : dot normal (vsub (seg_b s) (seg_a s)) = 0).
  { pose proof (hit_segment_has_length _ _ _ _ H) as Hlen.
    unfold normal, segment_normal, perpendicular_normal.
    destruct (Req_dec_T (vlength (vsub (seg_b s) (seg_a s))) 0) as [E|E];
      [contradiction|].
    unfold dot; simpl. field. exact E. }
  unfold after. rewrite check_collision_first_hit, H.
  unfold bounce; simpl. fold (segment_normal s). fold normal.
  destruct (reflect_preserves_dot (velocity particle) normal U) as [Rd Rn].
  cbv zeta in Rd, Rn.
  set (r := vsub (velocity particle) (vscale normal (2 * dot (velocity particle) normal))) in *.
  assert (L : vlength (vscale r 0.9) = 0.9 * vlength (velocity particle)).
  { rewrite vlength_vscale, Rabs_pos_eq by lra. f_equal.
    apply vlength_of_dot; [apply vlength_nonneg|].
    rewrite Rd. symmetry. apply vlength_sqr. }
  repeat split.
  - exact U.
  - exact P.
  - exact L.
  - rewrite L. pose proof (vlength_nonneg (velocity particle)). lra.
  - replace (dot (vscale r 0.9) normal) with (0.9 * dot r normal)
      by (unfold dot, vscale; simpl; ring).
    rewrite Rn. ring.
  - replace (dot (vscale r 0.9) (vsub (seg_b s) (seg_a s)))
      with (0.9 * (dot (velocity particle) (vsub (seg_b s) (seg_a s))
                   - 2 * dot (velocity particle) normal
                     * dot normal (vsub (seg_b s) (seg_a s))))
      by (unfold r, dot, vscale, vsub; simpl; ring).
    rewrite P. ring.
Qed.

Lemma vlength_10_0 : vlength (mkVec2d 10 0) = 10.
Proof. apply vlength_of_dot; [lra|]. unfold dot; simpl. ring. Qed.

Lemma floor_normal : segment_normal floor_segment = mkVec2d 0 1.
Proof.
  unfold segment_normal, floor_segment, perpendicular_normal, vsub; simpl.
  replace (10 - 0) with 10 by ring. replace (0 - 0) with 0 by ring.
  rewrite vlength_10_0.
  destruct (Req_dec_T 10 0); [lra|]. apply vec_eq; simpl; field.
Qed.

Lemma floor_hit :
  first_hit [floor_segment] (mkVec2d 5 1) (mkVec2d 5 (-1)) = Some floor_segment.
Proof.
  unfold first_hit, floor_segment; simpl.
  unfold line_segment_intersect, ccw; simpl. decide_R. reflexivity.
Qed.

(** The position [move_particle] leaves is the integrated one, whether the
    boundary is respected or not. *)
Lemma move_particle_position (w : World) (sub_dt : R) (b : bool) (p : Body) :
  position (move_particle w sub_dt b p) = position (move_particle w sub_dt false p).
Proof. reflexivity. Qed.

Lemma witness_C7 :
  first_hit [floor_segment] (mkVec2d 5 1) (mkVec2d 5 (-1)) = Some floor_segment /\
  let after :=
    check_particle_mask_collision [floor_segment] falling_particle
      (mkVec2d 5 1) (mkVec2d 5 (-1)) in
  let normal := segment_normal floor_segment in
  dot normal normal = 1 /\
  dot normal (vsub (seg_b floor_segment) (seg_a floor_segment)) = 0 /\
  vlength (velocity after) = 0.9 * vlength (velocity falling_particle) /\
  vlength (velocity after) <= vlength (velocity falling_particle) /\
  dot (velocity after) normal = - (0.9 * dot (velocity falling_particle) normal) /\
  dot (velocity after) (vsub (seg_b floor_segment) (seg_a floor_segment))
  = 0.9 * dot (velocity falling_particle)
            (vsub (seg_b floor_segment) (seg_a floor_segment)).
Proof.
  split; [exact floor_hit|].
  apply (C7_bounce_scales_speed [floor_segment] falling_particle
           (mkVec2d 5 1) (mkVec2d 5 (-1)) floor_segment floor_hit).
Defined.

Lemma floor_bounce :
  bounce falling_particle (mkVec2d 5 1) (mkVec2d 5 (-1)) floor_segment
  = mkBody (mkVec2d 5 1) (mkVec2d 0 270) vzero 0 4 2 (1, 1, 1).
Proof.
  unfold bounce.
  change (perpendicular_normal (vsub (seg_b floor_segment) (seg_a floor_segment)))
    with (segment_normal floor_segment).
  rewrite floor_normal. unfold set_position, set_velocity, falling_particle; simpl.
  f_equal; apply vec_eq; unfold dot; simpl; lra.
Qed.

(** C3 on the code.  A particle at (5,1) with velocity (0,-300) crosses the
    boundary segment from (0,0) to (10,0) in a sub-step of 1/150.  The
    collision routine reflects the velocity to (0,270) and puts the particle
    at (5,1), on the side it came from; the loop body of
    [update_particle_system] then assigns the integrated position (5,-1), on
    the other side of the boundary. *)
Theorem C3_pushed_out_position_is_overwritten :
  first_hit (mask_shapes floor_world) (mkVec2d 5 1) (mkVec2d 5 (-1))
  = Some floor_segment /\
  (let hit :=
     check_particle_mask_collision (mask_shapes floor_world) falling_particle
       (mkVec2d 5 1) (mkVec2d 5 (-1)) in
   position hit = mkVec2d 5 1 /\ velocity hit = mkVec2d 0 270) /\
  (let moved := move_particle floor_world (1 / 150) true falling_particle in
   position moved = mkVec2d 5 (-1) /\ velocity moved = mkVec2d 0 270).
Proof.
  assert (C : check_particle_mask_collision [floor_segment] falling_particle
                (mkVec2d 5 1) (mkVec2d 5 (-1))
              = mkBody (mkVec2d 5 1) (mkVec2d 0 270) vzero 0 4 2 (1, 1, 1)).
  { rewrite check_collision_first_hit, floor_hit. apply floor_bounce. }
  split; [exact floor_hit|]. split.
  - simpl mask_shapes. cbv zeta. rewrite C. split; reflexivity.
  - unfold move_particle. simpl mask_shapes. simpl vortices. simpl gravity_wells.
    unfold apply_vortex_force, apply_gravity_well_force; simpl fold_left.
    assert (E : vadd (position falling_particle)
                  (vscale (velocity falling_particle) (1 / 150))
                = mkVec2d 5 (-1)).
    { apply vec_eq; simpl; lra. }
    cbv zeta. rewrite E.
    change (position falling_particle) with (mkVec2d 5 1).
    rewrite C. split; reflexivity.
Qed.

(** ** Vortices: the last one in range sets the velocity *)

Lemma vortex_step_position (p : Body) (v : Vortex) :
  position (vortex_step p v) = position p.
Proof. unfold vortex_step. destruct (Rlt_dec _ _); reflexivity. Qed.

Lemma vortex_step_in_range (p : Body) (v : Vortex) :
  in_vortex_range p v ->
  vortex_step p v
  = set_velocity p (vortex_new_velocity v (vsub (position p) (vortex_position v))).
Proof. unfold in_vortex_range, vortex_step. intros H. destruct (Rlt_dec _ _); tauto. Qed.

Lemma vortex_step_out_of_range (p : Body) (v : Vortex) :
  ~ in_vortex_range p v -> vortex_step p v = p.
Proof. unfold in_vortex_range, vortex_step. intros H. destruct (Rlt_dec _ _); tauto. Qed.

Lemma apply_vortex_force_position (vs : list Vortex) (p : Body) (dt : R) :
  position (apply_vortex_force vs p dt) = position p.
Proof.
  unfold apply_vortex_force. revert p.
  induction vs as [|v vs IH]; intros p; simpl; [reflexivity|].
  rewrite IH. apply vortex_step_position.
Qed.

Lemma apply_vortex_force_none_in_range (vs : list Vortex) (p : Body) (dt : R) :
  Forall (fun v => ~ in_vortex_range p v) vs -> apply_vortex_force vs p dt = p.
Proof.
  unfold apply_vortex_force. induction 1 as [|v vs Hv _ IH]; simpl; [reflexivity|].
  rewrite vortex_step_out_of_range by exact Hv. exact IH.
Qed.

(** C6.  When [last] is the last vortex of the list that has the particle
    inside its radius, the velocity after [apply_vortex_force] is the
    tangential plus radial velocity of [last] alone: the tangent scaled by
    strength x d / radius plus the inward unit vector scaled by strength x
    inward factor.  Neither the vortices before [last] nor the velocity the
    particle had appear in it. *)
Theorem C6_last_vortex_wins (before after : list Vortex) (last : Vortex)
  (particle : Body) (dt : R) :
  in_vortex_range particle last ->
  Forall (fun v => ~ in_vortex_range particle v) after ->
  let offset := vsub (position particle) (vortex_position last) in
  let d := vlength offset in
  let tangent := normalized (mkVec2d (- vy offset) (vx offset)) in
  let radial := vneg (normalized offset) in
  velocity (apply_vortex_force (before ++ last :: after) particle dt)
  = vadd (vscale (vscale tangent (vortex_strength last)) (d / vortex_radius last))
         (vscale (vscale radial (vortex_strength last)) (inward_factor last)).
Proof.
  intros Hin Hout offset d tangent radial.
  unfold apply_vortex_force. rewrite fold_left_app. simpl fold_left.
  fold (apply_vortex_force before particle dt).
  set (q := apply_vortex_force before particle dt).
  assert (Pq : position q = position particle)
    by apply apply_vortex_force_position.
  assert (Hq : in_vortex_range q last)
    by (unfold in_vortex_range; rewrite Pq; exact Hin).
  rewrite (vortex_step_in_range q last Hq), Pq.
  fold (apply_vortex_force after
          (set_velocity q (vortex_new_velocity last
                             (vsub (position particle) (vortex_position last)))) dt).
  rewrite apply_vortex_force_none_in_range.
  - reflexivity.
  - eapply Forall_impl; [exact Hout|]. intros v Hv. unfold in_vortex_range in *.
    simpl. rewrite Pq. exact Hv.
Qed.

Lemma witness_C6 :
  in_vortex_range swirled_particle right_vortex /\
  Forall (fun v => ~ in_vortex_range swirled_particle v) [] /\
  velocity (apply_vortex_force ([left_vortex] ++ right_vortex :: [])
              swirled_particle (1 / 150))
  = vortex_new_velocity right_vortex
      (vsub (position swirled_particle) (vortex_position right_vortex)).
Proof.
  assert (H : in_vortex_range swirled_particle right_vortex).
  { unfold in_vortex_range, swirled_particle, right_vortex, vsub; simpl.
    rewrite (vlength_of_dot _ 1); [lra|lra|unfold dot; simpl; lra]. }
  split; [exact H|]. split; [constructor|].
  exact (C6_last_vortex_wins [left_vortex] [] right_vortex swirled_particle
           (1 / 150) H (Forall_nil_2 _)).
Defined.

(** ** Gravity wells *)

Lemma vadd_zero_l (a : Vec2d) : vadd vzero a = a.
Proof. apply vec_eq; simpl; ring. Qed.

Lemma vadd_zero_r (a : Vec2d) : vadd a vzero = a.
Proof. apply vec_eq; simpl; ring. Qed.

Lemma vscale_zero (k : R) : vscale vzero k = vzero.
Proof. apply vec_eq; simpl; ring. Qed.

Lemma vneg_zero : vneg vzero = vzero.
Proof. apply vec_eq; simpl; ring. Qed.

Lemma gravity_well_step_position (m : R) (p : Body) (well : Well) :
  position (gravity_well_step m p well) = position p.
Proof. unfold gravity_well_step. destruct (Rlt_dec _ _); reflexivity. Qed.

Lemma gravity_well_step_force (m : R) (p : Body) (well : Well) :
  force (gravity_well_step m p well)
  = vadd (force p) (well_force m (position p) well).
Proof.
  unfold well_force, gravity_well_step; simpl.
  destruct (Rlt_dec _ _); simpl.
  - rewrite vadd_zero_l. reflexivity.
  - symmetry. apply vadd_zero_r.
Qed.

Lemma apply_gravity_well_force_sum (wells : list Well) (m : R) (p : Body) :
  force (apply_gravity_well_force wells m p)
  = fold_left vadd (map (well_force m (position p)) wells) (force p).
Proof.
  unfold apply_gravity_well_force. revert p.
  induction wells as [|well wells IH]; intros p; simpl; [reflexivity|].
  rewrite IH, gravity_well_step_position, gravity_well_step_force. reflexivity.
Qed.

Lemma well_force_outside (m : R) (pos : Vec2d) (well : Well) :
  well_radius well <= well_distance pos well -> well_force m pos well = vzero.
Proof.
  unfold well_distance, well_force, gravity_well_step; simpl. intros H.
  destruct (Rlt_dec _ _); [lra|reflexivity].
Qed.

Lemma well_force_zero_offset (m : R) (pos : Vec2d) (well : Well) :
  well_distance pos well = 0 -> well_force m pos well = vzero.
Proof.
  unfold well_distance, well_force, gravity_well_step; simpl. intros H.
  destruct (Rlt_dec _ _); [|reflexivity]. simpl.
  apply vlength_zero_iff in H. rewrite H, normalized_zero, vadd_zero_l.
  destruct (well_type well); [|rewrite vneg_zero]; apply vscale_zero.
Qed.

Lemma well_force_inside (m : R) (pos : Vec2d) (well : Well) :
  let d := well_distance pos well in
  let toward := vscale (vsub (well_position well) pos) (/ d) in
  let magnitude := well_strength well * (1 - d / well_radius well) * m in
  0 < d < well_radius well ->
  well_force m pos well
  = vscale (match well_type well with
            | attract => toward
            | repel => vneg toward
            end) magnitude
  /\ vlength toward = 1
  /\ vlength (well_force m pos well) = Rabs magnitude.
Proof.
  intros d toward magnitude [Hd Hr].
  assert (N : normalized (vsub (well_position well) pos) = toward).
  { rewrite normalized_nonzero by (fold (well_distance pos well); fold d; lra).
    reflexivity. }
  assert (U : vlength toward = 1).
  { rewrite <- N. apply normalized_unit. fold (well_distance pos well). fold d. lra. }
  assert (F : well_force m pos well
              = vscale (match well_type well with
                        | attract => toward
                        | repel => vneg toward
                        end) magnitude).
  { unfold well_force, gravity_well_step; simpl.
    fold (well_distance pos well). fold d.
    destruct (Rlt_dec d (well_radius well)); [|lra]. simpl.
    rewrite vadd_zero_l, N. destruct (well_type well); reflexivity. }
  split; [exact F|]. split; [exact U|].
  rewrite F, vlength_vscale.
  destruct (well_type well); [|rewrite vlength_vneg]; rewrite U; ring.
Qed.

Lemma well_magnitude_abs (s m d r : R) :
  0 < d < r -> Rabs (s * (1 - d / r) * m) = Rabs (s * m) * (1 - d / r).
Proof.
  intros [Hd Hr].
  assert (0 < 1 - d / r).
  { assert (d / r < 1); [|lra].
    apply Rmult_lt_reg_r with r; [lra|]. field_simplify; lra. }
  replace (s * (1 - d / r) * m) with ((s * m) * (1 - d / r)) by ring.
  rewrite Rabs_mult. f_equal. apply Rabs_pos_eq. lra.
Qed.

(** C5, as amended.  The forces of the wells add up in the accumulator of
    the particle.  A well at distance d >= radius adds nothing, and so does a
    well at distance 0.  For 0 < d < radius the force is the unit vector
    toward the well (away from it for a repelling well) times
    strength x (1 - d/radius) x multiplier, and its length is the absolute
    value of that factor.  When strength x multiplier is not zero the length
    strictly decreases as d grows inside (0, radius). *)
Theorem C5_gravity_well_force (multiplier : R) :
  (forall wells particle,
     force (apply_gravity_well_force wells multiplier particle)
     = fold_left vadd (map (well_force multiplier (position particle)) wells)
                 (force particle)) /\
  (forall pos well,
     well_radius well <= well_distance pos well ->
     well_force multiplier pos well = vzero) /\
  (forall pos well,
     well_distance pos well = 0 -> well_force multiplier pos well = vzero) /\
  (forall pos well,
     let d := well_distance pos well in
     let toward := vscale (vsub (well_position well) pos) (/ d) in
     let magnitude :=
       well_strength well * (1 - d / well_radius well) * multiplier in
     0 < d < well_radius well ->
     well_force multiplier pos well
     = vscale (match well_type well with
               | attract => toward
               | repel => vneg toward
               end) magnitude
     /\ vlength toward = 1
     /\ vlength (well_force multiplier pos well) = Rabs magnitude) /\
  (forall pos1 pos2 well,
     well_strength well * multiplier <> 0 ->
     0 < well_distance pos1 well < well_distance pos2 well ->
     well_distance pos2 well < well_radius well ->
     vlength (well_force multiplier pos2 well)
     < vlength (well_force multiplier pos1 well)).
Proof.
  split; [intros; apply apply_gravity_well_force_sum|].
  split; [intros pos well; apply well_force_outside|].
  split; [intros pos well; apply well_force_zero_offset|].
  split; [intros pos well; apply well_force_inside|].
  intros pos1 pos2 well Hsm [H1 H12] H2.
  destruct (well_force_inside multiplier pos1 well) as (_ & _ & L1); [lra|].
  destruct (well_force_inside multiplier pos2 well) as (_ & _ & L2); [lra|].
  rewrite L1, L2, !well_magnitude_abs by lra.
  assert (A : 0 < Rabs (well_strength well * multiplier))
    by (apply Rabs_pos_lt; exact Hsm).
  apply Rmult_lt_compat_l; [exact A|].
  assert (well_distance pos1 well / well_radius well
          < well_distance pos2 well / well_radius well); [|lra].
  apply Rmult_lt_compat_r; [|lra]. apply Rinv_0_lt_compat. lra.
Qed.

Lemma unit_well_distance (x : R) :
  0 <= x -> well_distance (mkVec2d x 0) unit_well = x.
Proof.
  intros H. unfold well_distance, unit_well; simpl.
  apply vlength_of_dot; [exact H|]. unfold dot; simpl. ring.
Qed.

Lemma witness_C5 :
  1 * 1 <> 0 /\
  0 < well_distance (mkVec2d (1 / 4) 0) unit_well
    < well_distance (mkVec2d (1 / 2) 0) unit_well /\
  well_distance (mkVec2d (1 / 2) 0) unit_well < 1 /\
  vlength (well_force 1 (mkVec2d (1 / 2) 0) unit_well)
  < vlength (well_force 1 (mkVec2d (1 / 4) 0) unit_well).
Proof.
  assert (A : 0 < well_distance (mkVec2d (1 / 4) 0) unit_well
              < well_distance (mkVec2d (1 / 2) 0) unit_well)
    by (rewrite !unit_well_distance by lra; lra).
  assert (B : well_distance (mkVec2d (1 / 2) 0) unit_well < 1)
    by (rewrite unit_well_distance by lra; lra).
  split; [lra|]. split; [exact A|]. split; [exact B|].
  apply (proj2 (proj2 (proj2 (proj2 (C5_gravity_well_force 1))))
           (mkVec2d (1 / 4) 0) (mkVec2d (1 / 2) 0) unit_well).
  - simpl. lra.
  - exact A.
  - exact B.
Defined.

Lemma unit_well_force_length (m x : R) :
  0 < x < 1 ->
  vlength (well_force m (mkVec2d x 0) unit_well) = Rabs m * (1 - x).
Proof.
  intros Hx.
  destruct (well_force_inside m (mkVec2d x 0) unit_well) as (_ & _ & L).
  { rewrite unit_well_distance by lra. simpl. lra. }
  rewrite L, unit_well_distance by lra. simpl.
  replace (1 * (1 - x / 1) * m) with (m * (1 - x)) by field.
  rewrite Rabs_mult. f_equal. apply Rabs_pos_eq. lra.
Qed.

(** C5 fails as stated at distance 0: a particle on an attracting well of
    strength 1 and radius 1 is inside the radius, the formula gives the
    magnitude 1, and the force the code adds has length 0; so the length
    does not decrease from distance 0 to distance 1/2.  With a multiplier of
    0 the force is zero at every distance and does not decrease either. *)
Lemma C5_zero_distance_force_is_zero :
  (0 <= well_distance vzero unit_well < well_radius unit_well /\
   vlength (well_force 1 vzero unit_well)
   <> well_strength unit_well
      * (1 - well_distance vzero unit_well / well_radius unit_well) * 1) /\
  (well_distance vzero unit_well < well_distance (mkVec2d (1 / 2) 0) unit_well
   /\ well_distance (mkVec2d (1 / 2) 0) unit_well < well_radius unit_well
   /\ ~ vlength (well_force 1 (mkVec2d (1 / 2) 0) unit_well)
         < vlength (well_force 1 vzero unit_well)) /\
  (0 < well_distance (mkVec2d (1 / 4) 0) unit_well
     < well_distance (mkVec2d (1 / 2) 0) unit_well
   /\ ~ vlength (well_force 0 (mkVec2d (1 / 2) 0) unit_well)
         < vlength (well_force 0 (mkVec2d (1 / 4) 0) unit_well)).
Proof.
  assert (D : well_distance vzero unit_well = 0)
    by (apply (unit_well_distance 0); lra).
  assert (Z : vlength (well_force 1 vzero unit_well) = 0).
  { rewrite well_force_zero_offset by exact D.
    apply vlength_zero_iff. reflexivity. }
  rewrite D, Z, !unit_well_distance, !unit_well_force_length by lra.
  rewrite Rabs_R0, Rabs_R1. simpl.
  repeat split; lra.
Qed.

(** ** Emission *)

Section Emission.

Variable uniform : nat -> R -> R -> R.

Lemma emission_only_refl (w : World) : emission_only w w.
Proof.
  constructor; try reflexivity.
  exists []. rewrite !app_nil_r. simpl. repeat split; [lia|constructor].
Qed.

Lemma emission_only_trans (w1 w2 w3 : World) :
  emission_only w1 w2 -> emission_only w2 w3 -> emission_only w1 w3.
Proof.
  intros [A1 A2 A3 A4 A5 A6 (n1 & B1 & P1 & T1 & F1)]
         [C1 C2 C3 C4 C5 C6 (n2 & B2 & P2 & T2 & F2)].
  constructor; try congruence.
  exists (n1 ++ n2). rewrite B2, B1, P2, P1, T2, T1, B1.
  rewrite !length_app, <- !app_assoc, seq_app.
  repeat split.
  - lia.
  - apply Forall_app. split; [exact F1|].
    eapply Forall_impl; [exact F2|]. simpl. intros b [E1 E2].
    rewrite <- A5, <- A4. tauto.
Qed.

Lemma emit_particle_emission_only (w : World) (e : Emitter) (h wd : R) (i : nat) :
  emission_only w (emit_particle uniform w e h wd i).
Proof.
  constructor; try reflexivity.
  eexists [_]. simpl. repeat split. constructor; [|constructor].
  simpl. tauto.
Qed.

Lemma set_particles_to_emit_emission_only (w : World) (l : list R) :
  length l = length (particles_to_emit w) ->
  emission_only w (set_particles_to_emit w l).
Proof.
  intros H. constructor; try reflexivity; [exact H|].
  exists []. simpl. rewrite !app_nil_r. repeat split; [lia|constructor].
Qed.

(** The [while] loop: with the room under the cap as fuel it ends, the
    accumulator has lost 1 per particle, and the loop has stopped for one of
    its two reasons. *)
Lemma emit_while_spec (fuel : nat) :
  forall (w : World) (e : Emitter) (h wd : R) (i : nat) (acc : R),
    particles_to_emit w !! i = Some acc ->
    (emission_fuel w <= fuel)%nat ->
    exists w',
      emit_while uniform fuel w e h wd i = Some w' /\
      emission_only w w' /\
      particles_to_emit w' !! i
      = Some (acc - IZR (total_particles_emitted w' - total_particles_emitted w)) /\
      (forall j, j <> i -> particles_to_emit w' !! j = particles_to_emit w !! j) /\
      (0 <= acc ->
       0 <= acc - IZR (total_particles_emitted w' - total_particles_emitted w)) /\
      (acc - IZR (total_particles_emitted w' - total_particles_emitted w) < 1
       \/ (max_particles w' <= total_particles_emitted w')%Z) /\
      ((total_particles_emitted w <= max_particles w)%Z ->
       (total_particles_emitted w' <= max_particles w)%Z).
Proof.
  induction fuel as [|fuel IH]; intros w e h wd i acc Hacc Hfuel.
  - simpl. rewrite Hacc.
    assert (Hcap : (total_particles_emitted w <? max_particles w)%Z = false).
    { apply Z.ltb_ge. unfold emission_fuel in Hfuel. lia. }
    rewrite Hcap, andb_false_r.
    exists w. rewrite Z.sub_diag, Rminus_0_r.
    split; [reflexivity|]. split; [apply emission_only_refl|].
    split; [exact Hacc|]. split; [reflexivity|]. split; [tauto|].
    split; [|tauto]. right. apply Z.ltb_ge in Hcap. lia.
  - simpl. rewrite Hacc.
    destruct (Rgeb acc 1) eqn:Hge; simpl.
    2:{ exists w. rewrite Z.sub_diag, Rminus_0_r.
        split; [reflexivity|]. split; [apply emission_only_refl|].
        split; [exact Hacc|]. split; [reflexivity|]. split; [tauto|].
        split; [|tauto]. left. apply Rgeb_false_iff. exact Hge. }
    destruct (total_particles_emitted w <? max_particles w)%Z eqn:Hcap.
    2:{ exists w. rewrite Z.sub_diag, Rminus_0_r.
        split; [reflexivity|]. split; [apply emission_only_refl|].
        split; [exact Hacc|]. split; [reflexivity|]. split; [tauto|].
        split; [|tauto]. right. apply Z.ltb_ge in Hcap. lia. }
    apply Rgeb_true_iff in Hge. apply Z.ltb_lt in Hcap.
    set (w1 := emit_particle uniform w e h wd i).
    set (w2 := set_particles_to_emit w1
                 (alter (fun a => a - 1) i (particles_to_emit w1))).
    assert (Hacc2 : particles_to_emit w2 !! i = Some (acc - 1)).
    { unfold w2; simpl. rewrite list_lookup_alter, decide_True by reflexivity.
      rewrite Hacc. reflexivity. }
    assert (Hfuel2 : (emission_fuel w2 <= fuel)%nat).
    { unfold emission_fuel in *. unfold w2, w1; simpl. lia. }
    destruct (IH w2 e h wd i (acc - 1) Hacc2 Hfuel2)
      as (w' & Hrun & Heo & Hi & Hj & Hpos & Hstop & Hmax).
    assert (T2 : total_particles_emitted w2 = (total_particles_emitted w + 1)%Z)
      by reflexivity.
    assert (M2 : max_particles w2 = max_particles w) by reflexivity.
    assert (E : acc - 1 - IZR (total_particles_emitted w' - total_particles_emitted w2)
                = acc - IZR (total_particles_emitted w' - total_particles_emitted w)).
    { rewrite T2. rewrite !minus_IZR, plus_IZR. simpl. ring. }
    exists w'. split; [exact Hrun|]. split.
    { eapply emission_only_trans; [|exact Heo].
      eapply emission_only_trans; [apply emit_particle_emission_only|].
      apply set_particles_to_emit_emission_only. apply length_alter. }
    rewrite <- E. split; [exact Hi|]. split.
    { intros j Hj'. rewrite (Hj j Hj'). unfold w2; simpl.
      apply list_lookup_alter_ne. congruence. }
    split; [intros; apply Hpos; lra|].
    split; [exact Hstop|].
    intros Hle. rewrite <- M2. apply Hmax. rewrite T2, M2. lia.
Qed.

(** One emission check: [rate * sub_dt] is added to the accumulator and the
    loop takes 1 per particle it emits. *)
Lemma emit_from_spec (w : World) (sub_dt h wd : R) (i : nat) (e : Emitter)
  (acc : R) :
  particles_to_emit w !! i = Some acc ->
  exists w',
    emit_from uniform w sub_dt h wd i e = Some w' /\
    emission_only w w' /\
    particles_to_emit w' !! i
    = Some (acc + emission_rate e * sub_dt
            - IZR (total_particles_emitted w' - total_particles_emitted w)) /\
    (forall j, j <> i -> particles_to_emit w' !! j = particles_to_emit w !! j) /\
    (0 <= acc + emission_rate e * sub_dt ->
     0 <= acc + emission_rate e * sub_dt
          - IZR (total_particles_emitted w' - total_particles_emitted w)) /\
    (acc + emission_rate e * sub_dt
     - IZR (total_particles_emitted w' - total_particles_emitted w) < 1
     \/ (max_particles w' <= total_particles_emitted w')%Z) /\
    ((total_particles_emitted w <= max_particles w)%Z ->
     (total_particles_emitted w' <= max_particles w)%Z).
Proof.
  intros Hacc. unfold emit_from. rewrite Hacc. simpl.
  set (w1 := set_particles_to_emit w
               (<[i := acc + emission_rate e * sub_dt]> (particles_to_emit w))).
  assert (Hacc1 : particles_to_emit w1 !! i = Some (acc + emission_rate e * sub_dt)).
  { unfold w1; simpl. apply list_lookup_insert_eq.
    eapply lookup_lt_Some, Hacc. }
  destruct (emit_while_spec (emission_fuel w1) w1 e h wd i _ Hacc1 (le_n _))
    as (w' & Hrun & Heo & Hi & Hj & Hpos & Hstop & Hmax).
  exists w'. split; [exact Hrun|]. split.
  { eapply emission_only_trans; [|exact Heo].
    apply set_particles_to_emit_emission_only. apply length_insert. }
  split; [exact Hi|]. split.
  { intros j Hj'. rewrite (Hj j Hj'). unfold w1; simpl.
    apply list_lookup_insert_ne. congruence. }
  split; [exact Hpos|]. split; [exact Hstop|exact Hmax].
Qed.

(** The loop over the emitters ends when every emitter has its accumulator. *)
Lemma emit_all_spec (es : list Emitter) :
  forall (w : World) (sub_dt h wd : R) (i : nat),
    (i + length es <= length (particles_to_emit w))%nat ->
    exists w',
      emit_all uniform w sub_dt h wd i es = Some w' /\
      emission_only w w' /\
      ((total_particles_emitted w <= max_particles w)%Z ->
       (total_particles_emitted w' <= max_particles w)%Z).
Proof.
  induction es as [|e es IH]; intros w sub_dt h wd i Hlen; simpl.
  - exists w. split; [reflexivity|]. split; [apply emission_only_refl|tauto].
  - simpl in Hlen.
    destruct (lookup_lt_is_Some_2 (particles_to_emit w) i) as [acc Hacc]; [lia|].
    destruct (emit_from_spec w sub_dt h wd i e acc Hacc)
      as (w1 & Hrun & Heo & _ & _ & _ & _ & Hmax).
    rewrite Hrun. simpl.
    destruct (IH w1 sub_dt h wd (S i)) as (w' & Hrun' & Heo' & Hmax').
    { rewrite (eo_slots _ _ Heo). lia. }
    exists w'. split; [exact Hrun'|]. split.
    + eapply emission_only_trans; eassumption.
    + intros Hle. rewrite <- (eo_max _ _ Heo). apply Hmax'.
      rewrite (eo_max _ _ Heo). auto.
Qed.

End Emission.

(** ** Moving the particles keeps their stamps *)

Lemma fold_left_stamps {A : Type} (f : Body -> A -> Body) (l : list A) :
  (forall p a, stamps (f p a) = stamps p) ->
  forall p, stamps (fold_left f l p) = stamps p.
Proof.
  intros Hf. induction l as [|a l IH]; intros p; simpl; [reflexivity|].
  rewrite IH. apply Hf.
Qed.

Lemma vortex_step_stamps (p : Body) (v : Vortex) : stamps (vortex_step p v) = stamps p.
Proof. unfold vortex_step. destruct (Rlt_dec _ _); reflexivity. Qed.

Lemma gravity_well_step_stamps (m : R) (p : Body) (well : Well) :
  stamps (gravity_well_step m p well) = stamps p.
Proof. unfold gravity_well_step. destruct (Rlt_dec _ _); reflexivity. Qed.

Lemma check_collision_stamps (shapes : list Segment) (p : Body) (a b : Vec2d) :
  stamps (check_particle_mask_collision shapes p a b) = stamps p.
Proof.
  induction shapes as [|s rest IH]; simpl; [reflexivity|].
  destruct (line_segment_intersect _ _ _ _); [reflexivity|exact IH].
Qed.

Lemma move_particle_stamps (w : World) (sub_dt : R) (rmb : bool) (p : Body) :
  stamps (move_particle w sub_dt rmb p) = stamps p.
Proof.
  unfold move_particle.
  set (p1 := apply_vortex_force (vortices w) p sub_dt).
  set (p2 := apply_gravity_well_force _ _ p1).
  assert (S1 : stamps p1 = stamps p)
    by (apply fold_left_stamps, vortex_step_stamps).
  assert (S2 : stamps p2 = stamps p1)
    by (apply fold_left_stamps, gravity_well_step_stamps).
  transitivity (stamps p2); [|congruence].
  destruct rmb; [|reflexivity].
  change (stamps (set_position ?q _)) with (stamps q).
  apply check_collision_stamps.
Qed.

Lemma alter_fold_stamps (g : Body -> Body) (ids : list nat) :
  (forall b, stamps (g b) = stamps b) ->
  forall bs, map stamps (fold_left (fun bs id => alter g id bs) ids bs) = map stamps bs.
Proof.
  intros Hg. induction ids as [|id ids IH]; intros bs; simpl; [reflexivity|].
  rewrite IH. apply list_eq. intros j.
  rewrite !list_lookup_fmap, list_lookup_alter.
  destruct (decide (id = j)) as [->|]; [|reflexivity].
  destruct (bs !! j); simpl; [|reflexivity]. rewrite Hg. reflexivity.
Qed.

Section Run.

Variable uniform : nat -> R -> R -> R.
Variable integrate : R -> Vec2d -> list Segment -> list Body -> Body -> Vec2d * Vec2d.
Variable find_polygons : Mask -> list (list Vec2d).
Variable process_single_mask : World -> Mask -> Z -> Mask * Image.

Lemma move_particles_stamps (w : World) (sub_dt : R) (rmb : bool) :
  map stamps (bodies (space (move_particles w sub_dt rmb)))
  = map stamps (bodies (space w)).
Proof. simpl. apply alter_fold_stamps. intros b. apply move_particle_stamps. Qed.

Lemma space_step_stamps (sp : Space) (shapes : list Segment) (dt : R) :
  map stamps (bodies (space_step integrate sp shapes dt)) = map stamps (bodies sp).
Proof.
  unfold space_step. destruct (Req_dec_T dt 0); [reflexivity|]. simpl.
  rewrite map_map. reflexivity.
Qed.

Lemma space_step_clock (sp : Space) (shapes : list Segment) (dt : R) :
  dt <> 0 -> current_time_step (space_step integrate sp shapes dt) = dt.
Proof. intros H. unfold space_step. destruct (Req_dec_T dt 0); [tauto|reflexivity]. Qed.

(** One sub-step: the emission, then a new space in which no body has changed
    its stamps. *)
Lemma sub_step_spec (w : World) (sub_dt h wd : R) (rmb : bool) :
  well_formed w ->
  exists w1 w',
    sub_step uniform integrate w sub_dt h wd rmb = Some w' /\
    emission_only w w1 /\
    ((total_particles_emitted w <= max_particles w)%Z ->
     (total_particles_emitted w1 <= max_particles w)%Z) /\
    (exists sp, w' = set_space w1 sp /\
                map stamps (bodies sp) = map stamps (bodies (space w1)) /\
                (sub_dt <> 0 -> current_time_step sp = sub_dt)).
Proof.
  intros Hwf. unfold sub_step.
  destruct (emit_all_spec uniform (emitters w) w sub_dt h wd 0)
    as (w1 & Hrun & Heo & Hcap).
  { unfold well_formed in Hwf. simpl. lia. }
  rewrite Hrun. simpl.
  exists w1. eexists. split; [reflexivity|]. split; [exact Heo|].
  split; [exact Hcap|].
  eexists. split; [reflexivity|]. split.
  - rewrite space_step_stamps. apply move_particles_stamps.
  - apply space_step_clock.
Qed.

Lemma counters_kept_refl (w : World) : well_formed w -> counters_kept w w.
Proof. intros H. constructor; auto; lia. Qed.

Lemma counters_kept_trans (w1 w2 w3 : World) :
  counters_kept w1 w2 -> counters_kept w2 w3 -> counters_kept w1 w3.
Proof.
  intros [A1 A2 A3 A4 A5 A6] [B1 B2 B3 B4 B5 B6].
  constructor; try congruence; [lia|].
  intros H. rewrite <- A2. apply B6. rewrite A2. auto.
Qed.

Lemma sub_dt_of_frame : 1 / 30 / INR 5 = 1 / 150.
Proof. simpl. field. Qed.

Lemma never_expiring_emission (w w1 : World) :
  never_expiring w -> emission_only w w1 -> never_expiring w1.
Proof.
  intros (Hc & Hl & Hp & Ht & Hb) [E1 E2 E3 E4 E5 E6 (new & B & P & T & F)].
  unfold never_expiring. rewrite E5, E4, B, P, T, Hp, Ht, length_app.
  split; [exact Hc|]. split; [exact Hl|].
  split; [rewrite seq_app; reflexivity|]. split; [lia|].
  apply Forall_app. split; [exact Hb|].
  eapply Forall_impl; [exact F|]. simpl. intros b [A B']. split; [lra|exact B'].
Qed.

Lemma never_expiring_space (w : World) (sp : Space) :
  never_expiring w ->
  map stamps (bodies sp) = map stamps (bodies (space w)) ->
  0 <= current_time_step sp <= 1 / 150 ->
  never_expiring (set_space w sp).
Proof.
  intros (Hc & Hl & Hp & Ht & Hb) Hs Hclock.
  assert (Hlen : length (bodies sp) = length (bodies (space w))).
  { rewrite <- (length_map stamps (bodies sp)), Hs. apply length_map. }
  unfold never_expiring; simpl. rewrite Hlen.
  split; [exact Hclock|]. split; [exact Hl|]. split; [exact Hp|].
  split; [exact Ht|].
  set (Q := fun s : R * R => 0 <= fst s /\ snd s = particle_lifetime w).
  assert (H : Forall Q (map stamps (bodies (space w))))
    by (apply Forall_fmap; exact Hb).
  rewrite <- Hs in H. apply Forall_fmap in H. exact H.
Qed.

Lemma sub_step_kept (w : World) (sub_dt h wd : R) (rmb : bool) :
  well_formed w ->
  exists w',
    sub_step uniform integrate w sub_dt h wd rmb = Some w' /\
    counters_kept w w' /\
    vortices w' = vortices w /\
    (sub_dt = 1 / 150 -> never_expiring w -> never_expiring w').
Proof.
  intros Hwf.
  destruct (sub_step_spec w sub_dt h wd rmb Hwf)
    as (w1 & w' & Hrun & Heo & Hcap & sp & -> & Hst & Hclock).
  exists (set_space w1 sp). split; [exact Hrun|].
  destruct Heo as [E1 E2 E3 E4 E5 E6 (new & B & P & T & F)].
  split; [|split; [exact E3|]].
  - constructor; simpl; auto.
    + unfold well_formed in *. simpl. congruence.
    + lia.
  - intros -> Hne.
    apply never_expiring_space; [|exact Hst|rewrite Hclock; lra].
    eapply never_expiring_emission; [exact Hne|].
    constructor; auto. exists new. auto.
Qed.

Lemma sub_steps_loop_kept (n : nat) :
  forall (w : World) (sub_dt h wd : R) (rmb : bool),
    well_formed w ->
    exists w',
      sub_steps_loop uniform integrate n w sub_dt h wd rmb = Some w' /\
      counters_kept w w' /\
      vortices w' = vortices w /\
      (sub_dt = 1 / 150 -> never_expiring w -> never_expiring w').
Proof.
  induction n as [|n IH]; intros w sub_dt h wd rmb Hwf; simpl.
  - exists w. split; [reflexivity|]. split; [apply counters_kept_refl, Hwf|].
    split; [reflexivity|]. intros _ H. exact H.
  - destruct (sub_step_kept w sub_dt h wd rmb Hwf) as (w1 & Hrun & Hk & Hv & Hne).
    rewrite Hrun. simpl.
    destruct (IH w1 sub_dt h wd rmb (ck_well_formed _ _ Hk))
      as (w' & Hrun' & Hk' & Hv' & Hne').
    exists w'. split; [exact Hrun'|].
    split; [eapply counters_kept_trans; eassumption|].
    split; [congruence|]. auto.
Qed.

Lemma filter_all {A : Type} (P : A -> Prop) `{forall x, Decision (P x)}
  (l : list A) : Forall P l -> filter P l = l.
Proof.
  induction 1 as [|x l Hx _ IH]; [reflexivity|].
  rewrite filter_cons_True by exact Hx. f_equal. exact IH.
Qed.

(** What the cull guarantees: a particle it keeps has
    [current_time_step - creation_time < lifetime]. *)
Lemma cull_keeps_only_young (w : World) (id : nat) :
  id ∈ particles (cull w) ->
  exists p,
    bodies (space w) !! id = Some p /\
    current_time_step (space w) - creation_time p < lifetime p.
Proof.
  unfold cull; simpl. intros H. apply list_elem_of_filter in H as [H _].
  unfold alive in H. destruct (bodies (space w) !! id) as [p|]; [|discriminate].
  exists p. split; [reflexivity|]. apply Rltb_true_iff. exact H.
Qed.

(** In a world that is [never_expiring] the cull keeps every particle. *)
Lemma cull_never_expiring (w : World) :
  never_expiring w -> particles (cull w) = particles w.
Proof.
  intros (Hc & Hl & Hp & Ht & Hb). unfold cull; simpl.
  apply filter_all. rewrite Hp. apply Forall_forall. intros id Hid.
  apply elem_of_seq in Hid. unfold alive.
  destruct (lookup_lt_is_Some_2 (bodies (space w)) id) as [b Hb']; [lia|].
  rewrite Hb'. apply Rltb_true_iff.
  rewrite Forall_forall in Hb. specialize (Hb b).
  destruct Hb as [B1 B2]; [eapply list_elem_of_lookup_2, Hb'|].
  simpl in B1, B2. rewrite B2. lra.
Qed.

Lemma cull_keeps_never_expiring (w : World) :
  never_expiring w -> never_expiring (cull w).
Proof.
  intros H. pose proof (cull_never_expiring w H) as E.
  destruct H as (Hc & Hl & Hp & Ht & Hb).
  unfold never_expiring. rewrite E. simpl. auto.
Qed.

(** A frame of the particle system from a well-formed world. *)
Lemma update_particle_system_kept (w : World) (dt : R) (mask : Mask) (rmb : bool) :
  well_formed w ->
  exists w',
    update_particle_system uniform integrate find_polygons w dt mask rmb = Some w' /\
    counters_kept w w' /\
    vortices w'
    = update_vortices (INR (mask_width mask)) (INR (mask_height mask)) dt
                      (vortices w) /\
    (dt = 1 / 30 -> never_expiring w -> never_expiring w').
Proof using uniform integrate find_polygons.
  intros Hwf. unfold update_particle_system.
  set (wa := if rmb then update_mask_boundary find_polygons w mask else w).
  set (wb := set_vortices wa _ (rng wa)).
  assert (Hwfb : well_formed wb) by (unfold wb, wa; destruct rmb; exact Hwf).
  destruct (sub_steps_loop_kept 5 wb (dt / INR 5) (INR (mask_height mask))
              (INR (mask_width mask)) rmb Hwfb) as (w' & Hrun & Hk & Hv & Hne).
  rewrite Hrun. simpl. exists (cull w'). split; [reflexivity|].
  destruct Hk as [K1 K2 K3 K4 K5 K6].
  split; [|split].
  - constructor; simpl.
    + exact K1.
    + rewrite K2. unfold wb, wa. destruct rmb; reflexivity.
    + rewrite K3. unfold wb, wa. destruct rmb; reflexivity.
    + rewrite K4. unfold wb, wa. destruct rmb; reflexivity.
    + etransitivity; [|exact K5]. unfold wb, wa. destruct rmb; simpl; lia.
    + intros H. replace (max_particles w) with (max_particles wb)
        by (unfold wb, wa; destruct rmb; reflexivity).
      apply K6. unfold wb, wa. destruct rmb; exact H.
  - simpl. rewrite Hv. unfold wb, wa. destruct rmb; reflexivity.
  - intros -> Hw. apply cull_keeps_never_expiring, Hne.
    + apply sub_dt_of_frame.
    + unfold wb, wa. destruct rmb; exact Hw.
Qed.

(** The frame loop from a well-formed world. *)
Lemma process_frames_kept (start_frame end_frame : Z) (rmb : bool)
  (ms : list Mask) :
  forall (w : World) (progress i : Z),
    well_formed w ->
    exists w' outs,
      process_frames uniform integrate find_polygons process_single_mask
        start_frame end_frame rmb w progress i ms
      = Some (w', (progress + Z.of_nat (length ms))%Z, outs) /\
      length outs = length ms /\
      counters_kept w w' /\
      (never_expiring w -> never_expiring w').
Proof.
  induction ms as [|mask ms IH]; intros w progress i Hwf.
  - exists w, []. simpl. rewrite Z.add_0_r.
    split; [reflexivity|]. split; [reflexivity|].
    split; [apply counters_kept_refl, Hwf|tauto].
  - cbn [process_frames]. unfold process_frame.
    destruct ((i <? start_frame)%Z || (i >=? end_frame)%Z).
    + simpl. destruct (IH w (progress + 1)%Z (i + 1)%Z Hwf)
        as (w' & outs & Hrun & Hlen & Hk & Hne).
      rewrite Hrun. simpl. exists w', ((mask, stack3 mask) :: outs).
      split; [do 3 f_equal; lia|]. split; [simpl; lia|]. split; assumption.
    + destruct (update_particle_system_kept w (1 / 30) mask rmb Hwf)
        as (w1 & Hrun1 & Hk1 & _ & Hne1).
      rewrite Hrun1. simpl.
      destruct (IH w1 (progress + 1)%Z (i + 1)%Z (ck_well_formed _ _ Hk1))
        as (w' & outs & Hrun & Hlen & Hk & Hne).
      rewrite Hrun. simpl. exists w', (process_single_mask w1 mask i :: outs).
      split; [do 3 f_equal; lia|]. split; [simpl; lia|].
      split; [eapply counters_kept_trans; eassumption|]. auto.
Qed.

End Run.

(** ** The setup and its initial plumes *)

Lemma py_int_IZR (z : Z) : py_int (IZR z) = z.
Proof.
  unfold py_int. destruct (Rle_dec 0 (IZR z)).
  - symmetry. apply Int_part_spec. lra.
  - rewrite <- opp_IZR.
    rewrite <- (Int_part_spec (IZR (- z)) (- z)%Z) by lra. lia.
Qed.


Section Setup.

Variable uniform : nat -> R -> R -> R.

Lemma emit_burst_spec (n : nat) (e : Emitter) (h wd : R) :
  forall w,
    emission_only w (emit_burst uniform n w e h wd) /\
    particles_to_emit (emit_burst uniform n w e h wd) = particles_to_emit w /\
    total_particles_emitted (emit_burst uniform n w e h wd)
    = (total_particles_emitted w + Z.of_nat n)%Z.
Proof.
  induction n as [|n IH]; intros w.
  - simpl. split; [apply emission_only_refl|]. split; [reflexivity|lia].
  - cbn [emit_burst].
    destruct (IH (emit_particle uniform w e h wd 0)) as (A & B & C).
    split; [|split].
    + eapply emission_only_trans; [apply emit_particle_emission_only|exact A].
    + rewrite B. reflexivity.
    + rewrite C. simpl. lia.
Qed.

(** The initial plumes of the emitters [es], the world having [n] emitters
    and the cap [M]. *)
Lemma plumes_spec (h wd : R) (es : list Emitter) :
  forall w,
    let w' :=
      fold_left
        (fun w emitter =>
           emit_burst uniform (Z.to_nat (initial_particle_count w emitter)) w
                      emitter h wd)
        es w in
    emission_only w w' /\
    particles_to_emit w' = particles_to_emit w /\
    total_particles_emitted w'
    = (total_particles_emitted w
       + burst_total (max_particles w) (length (emitters w)) es)%Z.
Proof.
  induction es as [|e es IH]; intros w; simpl.
  - split; [apply emission_only_refl|]. split; [reflexivity|lia].
  - set (w1 := emit_burst uniform _ w e h wd).
    destruct (emit_burst_spec (Z.to_nat (initial_particle_count w e)) e h wd w)
      as (A & B & C). fold w1 in A, B, C.
    destruct (IH w1) as (A' & B' & C'). cbv zeta in A', B', C'.
    split; [eapply emission_only_trans; eassumption|].
    split; [congruence|].
    rewrite C', C, (eo_max _ _ A), (eo_emitters _ _ A).
    unfold initial_particle_count. lia.
Qed.


Lemma max_of_some (l : list R) (m : R) : max_of l = Some m -> (0 < length l)%nat.
Proof. destruct l; simpl; [discriminate|lia]. Qed.

Lemma initialize_vortices_positions (width height : R) (specs : list VortexSpec) :
  forall (acc : list Vortex) (n : nat),
    map vortex_position
        (fst (fold_left
                (fun acc vortex =>
                   let '(vs, n) := acc in
                   let x := vs_x vortex * width in
                   let y := vs_y vortex * height in
                   let dir := mkVec2d (uniform n (-1) 1) (uniform (S n) (-1) 1) in
                   (vs ++ [mkVortex (mkVec2d x y)
                             (vscale (normalized dir) (vs_movement_speed vortex))
                             (vs_strength vortex) (vs_radius vortex)
                             (vs_inward_factor vortex)],
                    S (S n)))
                specs (acc, n)))
    = map vortex_position acc
      ++ map (fun s => mkVec2d (vs_x s * width) (vs_y s * height)) specs.
Proof.
  induction specs as [|s specs IH]; intros acc n; simpl.
  - rewrite app_nil_r. reflexivity.
  - rewrite IH, map_app, <- app_assoc. reflexivity.
Qed.

Lemma setup_vortices_spec (w : World) (width height : R) (kw : Kwargs) :
  let w' := setup_vortices uniform w width height kw in
  map vortex_position (vortices w')
  = map (fun s => mkVec2d (vs_x s * width) (vs_y s * height))
        (default [] (kw_vortices kw)) /\
  max_particles w' = max_particles w /\
  emitters w' = emitters w /\
  particle_lifetime w' = particle_lifetime w /\
  particles_to_emit w' = particles_to_emit w /\
  space w' = space w /\
  total_particles_emitted w' = total_particles_emitted w /\
  particles w' = particles w.
Proof.
  unfold setup_vortices. destruct (kw_vortices kw) as [specs|]; [|repeat split].
  assert (I : map vortex_position
                (fst (initialize_vortices uniform width height specs (rng w)))
              = map (fun s => mkVec2d (vs_x s * width) (vs_y s * height)) specs).
  { unfold initialize_vortices. rewrite initialize_vortices_positions.
    reflexivity. }
  destruct (initialize_vortices uniform width height specs (rng w)) as [vs n0].
  split; [exact I|repeat split].
Qed.

Lemma setup_wells_spec (w : World) (width height : R) (kw : Kwargs) :
  let w' := setup_wells w width height kw in
  vortices w' = vortices w /\
  max_particles w' = max_particles w /\
  emitters w' = emitters w /\
  particle_lifetime w' = particle_lifetime w /\
  particles_to_emit w' = particles_to_emit w /\
  space w' = space w /\
  total_particles_emitted w' = total_particles_emitted w /\
  particles w' = particles w.
Proof. unfold setup_wells. destruct (kw_wells kw); repeat split. Qed.

(** What a successful setup builds. *)
Lemma setup_spec (w : World) (width height : R) (kw : Kwargs) (w0 : World) :
  setup_particle_system uniform w width height kw = Some w0 ->
  (0 < length (kw_emitters kw))%nat /\
  max_particles w0 = kw_particle_count kw /\
  emitters w0 = kw_emitters kw /\
  particle_lifetime w0 = kw_particle_lifetime kw /\
  particles_to_emit w0 = repeat 0 (length (kw_emitters kw)) /\
  current_time_step (space w0) = current_time_step (space w) /\
  total_particles_emitted w0
  = burst_total (kw_particle_count kw) (length (kw_emitters kw)) (kw_emitters kw) /\
  map vortex_position (vortices w0)
  = map (fun s => mkVec2d (vs_x s * width) (vs_y s * height))
        (default [] (kw_vortices kw)) /\
  exists new,
    bodies (space w0) = bodies (space w) ++ new /\
    particles w0 = particles w ++ seq (length (bodies (space w))) (length new) /\
    total_particles_emitted w0 = Z.of_nat (length new) /\
    Forall (fun b => creation_time b = current_time_step (space w) /\
                     lifetime b = kw_particle_lifetime kw) new.
Proof.
  unfold setup_particle_system. intros H.
  destruct (max_of (map particle_size (kw_emitters kw))) as [biggest|] eqn:Hmax;
    [|discriminate].
  simpl in H. destruct (Req_dec_T _ 0); [discriminate|].
  apply max_of_some in Hmax. rewrite length_map in Hmax.
  split; [exact Hmax|].
  set (wi := mkWorld _ _ _ _ _ _ _ _ _ _ _ _) in H.
  destruct (plumes_spec height width (emitters wi) wi) as (Heo & Hacc & Htot).
  fold (setup_plumes uniform wi height width) in Heo, Hacc, Htot.
  set (wp := setup_plumes uniform wi height width) in *.
  destruct Heo as [E1 E2 E3 E4 E5 E6 (new & B & P & T & F)].
  destruct (setup_vortices_spec wp width height kw)
    as (V & S1 & S2 & S3 & S4 & S5 & S6 & S7).
  set (wv := setup_vortices uniform wp width height kw) in *.
  destruct (setup_wells_spec wv width height kw)
    as (G8 & G1 & G2 & G3 & G4 & G5 & G6 & G7).
  injection H as <-.
  rewrite G1, G2, G3, G4, G5, G6, G7, G8, S1, S2, S3, S4, S5, S6, S7.
  rewrite E1, E2, E4, E5, Hacc, Htot, B, P.
  split; [reflexivity|]. split; [reflexivity|]. split; [reflexivity|].
  split; [reflexivity|]. split; [reflexivity|].
  split; [simpl; lia|]. split; [exact V|].
  exists new. split; [reflexivity|]. split; [reflexivity|].
  split; [rewrite <- Htot, T; simpl; lia|exact F].
Qed.

End Setup.

(** * The run of the particle system *)

Section Claims.

Variable uniform : nat -> R -> R -> R.
Variable integrate : R -> Vec2d -> list Segment -> list Body -> Body -> Vec2d * Vec2d.
Variable find_polygons : Mask -> list (list Vec2d).
Variable process_single_mask : World -> Mask -> Z -> Mask * Image.

Local Abbreviation run_frames :=
  (process_frames uniform integrate find_polygons process_single_mask).


Lemma setup_well_formed (w : World) (width height : R) (kw : Kwargs) (w0 : World) :
  setup_particle_system uniform w width height kw = Some w0 -> well_formed w0.
Proof.
  intros H. destruct (setup_spec uniform w width height kw w0 H)
    as (_ & _ & E & _ & A & _).
  unfold well_formed. rewrite A, E. apply repeat_length.
Qed.

Lemma setup_never_expiring (width height : R) (kw : Kwargs) (w0 : World) :
  setup_particle_system uniform initialize width height kw = Some w0 ->
  1 / 150 < kw_particle_lifetime kw ->
  never_expiring w0.
Proof.
  intros H Hl. destruct (setup_spec uniform initialize width height kw w0 H)
    as (_ & _ & _ & L & _ & C & _ & _ & new & B & P & T & F).
  simpl in *. unfold never_expiring. rewrite C, L, B, P, T.
  split; [lra|]. split; [exact Hl|]. split; [reflexivity|].
  split; [reflexivity|].
  eapply Forall_impl; [exact F|]. simpl. intros b [-> ->]. split; [lra|reflexivity].
Qed.

(** C1 on the code.  The cull compares the lifetime with
    [current_time_step] minus the creation time, and [current_time_step] is
    the length of the last step, 0 and then 1/150, not a clock.  With a
    lifetime above 1/150 (the node takes lifetimes from 0.1 up) the cull
    removes nothing: after any list of frames the live collection is the
    list of all the particles emitted since the setup. *)
Theorem C1_no_particle_ever_expires (width height : R) (kw : Kwargs)
  (w0 : World) (start_frame end_frame : Z) (rmb : bool) (progress i : Z)
  (ms : list Mask) :
  setup_particle_system uniform initialize width height kw = Some w0 ->
  1 / 150 < kw_particle_lifetime kw ->
  exists w' outs,
    run_frames start_frame end_frame rmb w0 progress i ms
    = Some (w', (progress + Z.of_nat (length ms))%Z, outs) /\
    (total_particles_emitted w0 <= total_particles_emitted w')%Z /\
    particles w' = seq 0 (Z.to_nat (total_particles_emitted w')) /\
    0 <= current_time_step (space w') <= 1 / 150.
Proof.
  intros Hs Hl.
  destruct (process_frames_kept uniform integrate find_polygons
              process_single_mask start_frame end_frame rmb ms w0 progress i
              (setup_well_formed _ _ _ _ _ Hs))
    as (w' & outs & Hrun & _ & Hk & Hne).
  exists w', outs. split; [exact Hrun|]. split; [apply (ck_total _ _ Hk)|].
  destruct (Hne (setup_never_expiring _ _ _ _ Hs Hl)) as (C & _ & P & T & _).
  rewrite P, T, Nat2Z.id. split; [reflexivity|exact C].
Qed.



(** C4, as amended.  An emission check on an emitter whose accumulator
    holds [acc], with [acc + rate x sub_dt] not negative, ends; it emits
    some number of particles and leaves [acc + rate x sub_dt] minus that
    number in the accumulator, which is not negative, and touches no other
    accumulator.  When the check ends below the cap the accumulator is under
    1 and the number emitted is the whole part of [acc + rate x sub_dt];
    when it ends at the cap the accumulator keeps what was not emitted.  The
    setup starts every accumulator at 0, and the other steps of a frame
    (the boundary and vortex updates, moving the particles, stepping the
    space, the cull) leave the accumulators as they are. *)
Theorem C4_accumulator_after_check (w : World) (sub_dt h wd : R) (i : nat)
  (e : Emitter) (acc : R) :
  particles_to_emit w !! i = Some acc ->
  0 <= acc + emission_rate e * sub_dt ->
  (exists w',
     emit_from uniform w sub_dt h wd i e = Some w' /\
     let emitted := (total_particles_emitted w' - total_particles_emitted w)%Z in
     let rest := acc + emission_rate e * sub_dt - IZR emitted in
     (0 <= emitted)%Z /\
     particles_to_emit w' !! i = Some rest /\
     0 <= rest /\
     ((total_particles_emitted w' < max_particles w')%Z ->
      rest < 1 /\ emitted = Int_part (acc + emission_rate e * sub_dt)) /\
     (forall j, j <> i -> particles_to_emit w' !! j = particles_to_emit w !! j)) /\
  (forall w1 width height kw w0,
     setup_particle_system uniform w1 width height kw = Some w0 ->
     particles_to_emit w0 = repeat 0 (length (emitters w0))) /\
  (forall rmb sp mask vs n,
     particles_to_emit (move_particles w sub_dt rmb) = particles_to_emit w /\
     particles_to_emit (set_space w sp) = particles_to_emit w /\
     particles_to_emit (cull w) = particles_to_emit w /\
     particles_to_emit (update_mask_boundary find_polygons w mask)
     = particles_to_emit w /\
     particles_to_emit (set_vortices w vs n) = particles_to_emit w).
Proof.
  intros Hacc Hpos. split; [|split].
  - destruct (emit_from_spec uniform w sub_dt h wd i e acc Hacc)
      as (w' & Hrun & Heo & Hi & Hj & Hnn & Hstop & _).
    exists w'. split; [exact Hrun|]. cbv zeta.
    destruct Heo as [_ _ _ _ _ _ (new & _ & _ & T & _)].
    split; [lia|]. split; [exact Hi|]. split; [apply Hnn, Hpos|].
    split; [|exact Hj].
    intros Hbelow. destruct Hstop as [Hlt|Hge]; [|lia].
    split; [exact Hlt|]. apply Int_part_spec.
    specialize (Hnn Hpos). lra.
  - intros w1 width height kw w0 H.
    destruct (setup_spec uniform w1 width height kw w0 H)
      as (_ & _ & E & _ & A & _).
    rewrite A, E. reflexivity.
  - intros rmb sp mask vs n. repeat split.
Qed.






(** ** Vortex drift *)

Lemma update_vortex_spec (width height dt : R) (v : Vortex) :
  let v' := update_vortex width height dt v in
  let x' := vx (vortex_position v') in
  let y' := vy (vortex_position v') in
  vortex_position v' = vadd (vortex_position v) (vscale (vortex_velocity v) dt) /\
  (x' < 0 \/ width < x' -> vx (vortex_velocity v') = - vx (vortex_velocity v)) /\
  (0 <= x' <= width -> vx (vortex_velocity v') = vx (vortex_velocity v)) /\
  (y' < 0 \/ height < y' -> vy (vortex_velocity v') = - vy (vortex_velocity v)) /\
  (0 <= y' <= height -> vy (vortex_velocity v') = vy (vortex_velocity v)).
Proof.
  unfold update_vortex. cbn [vortex_position vortex_velocity].
  set (pos := vadd (vortex_position v) (vscale (vortex_velocity v) dt)).
  split; [reflexivity|].
  destruct (Rltb (vx pos) 0) eqn:A1; destruct (Rgtb (vx pos) width) eqn:A2;
  destruct (Rltb (vy pos) 0) eqn:B1; destruct (Rgtb (vy pos) height) eqn:B2;
  cbn [orb vx vy];
  try apply Rltb_true_iff in A1; try apply Rltb_false_iff in A1;
  try apply Rgtb_true_iff in A2; try apply Rgtb_false_iff in A2;
  try apply Rltb_true_iff in B1; try apply Rltb_false_iff in B1;
  try apply Rgtb_true_iff in B2; try apply Rgtb_false_iff in B2;
  repeat split; intros; lra.
Qed.

Lemma axis_near_step (hi x u dt : R) :
  axis_near hi x u dt ->
  let x' := x + u * dt in
  (x' < 0 \/ hi < x' -> axis_near hi x' (- u) dt) /\
  (0 <= x' <= hi -> axis_near hi x' u dt).
Proof.
  intros H x'. unfold axis_near in *. split; intros H'.
  - right. unfold x' in *. destruct H as [H|H], H' as [H'|H']; lra.
  - left. exact H'.
Qed.

Lemma update_vortex_near (width height dt : R) (v : Vortex) :
  vortex_near_frame width height dt v ->
  vortex_near_frame width height dt (update_vortex width height dt v).
Proof.
  intros [Hx Hy].
  destruct (update_vortex_spec width height dt v) as (P & X1 & X2 & Y1 & Y2).
  cbv zeta in *. unfold vortex_near_frame. rewrite P in *.
  destruct (axis_near_step _ _ _ _ Hx) as [Ax1 Ax2].
  destruct (axis_near_step _ _ _ _ Hy) as [Ay1 Ay2].
  cbv zeta in *. simpl in *. split.
  - destruct (Rlt_dec (vx (vortex_position v) + vx (vortex_velocity v) * dt) 0);
      [rewrite X1 by lra; apply Ax1; lra|].
    destruct (Rlt_dec width (vx (vortex_position v) + vx (vortex_velocity v) * dt));
      [rewrite X1 by lra; apply Ax1; lra|].
    rewrite X2 by lra. apply Ax2. lra.
  - destruct (Rlt_dec (vy (vortex_position v) + vy (vortex_velocity v) * dt) 0);
      [rewrite Y1 by lra; apply Ay1; lra|].
    destruct (Rlt_dec height (vy (vortex_position v) + vy (vortex_velocity v) * dt));
      [rewrite Y1 by lra; apply Ay1; lra|].
    rewrite Y2 by lra. apply Ay2. lra.
Qed.

Lemma near_frame_within (width height dt : R) (v : Vortex) :
  0 <= dt ->
  vortex_near_frame width height dt v ->
  vortex_within width height (Rabs (vx (vortex_velocity v)) * dt)
                (Rabs (vy (vortex_velocity v)) * dt) v.
Proof.
  intros Hdt [Hx Hy]. unfold vortex_within, axis_near in *.
  pose proof (Rle_abs (vx (vortex_velocity v))).
  pose proof (Rle_abs (- vx (vortex_velocity v))) as Hnx.
  pose proof (Rle_abs (vy (vortex_velocity v))).
  pose proof (Rle_abs (- vy (vortex_velocity v))) as Hny.
  rewrite Rabs_Ropp in Hnx, Hny.
  assert (0 <= Rabs (vx (vortex_velocity v))) by apply Rabs_pos.
  assert (0 <= Rabs (vy (vortex_velocity v))) by apply Rabs_pos.
  split.
  - destruct Hx as [Hx|Hx]; nra.
  - destruct Hy as [Hy|Hy]; nra.
Qed.

Lemma process_frames_vortices (start_frame end_frame : Z) (rmb : bool)
  (height width : nat) (ms : list Mask) :
  frames_of_shape height width ms ->
  forall (w : World) (progress i : Z),
    well_formed w ->
    Forall (vortex_near_frame (INR width) (INR height) (1 / 30)) (vortices w) ->
    exists w' outs,
      run_frames start_frame end_frame rmb w progress i ms
      = Some (w', (progress + Z.of_nat (length ms))%Z, outs) /\
      Forall (vortex_near_frame (INR width) (INR height) (1 / 30)) (vortices w').
Proof.
  induction 1 as [|mask ms [Hh Hw] _ IH]; intros w progress i Hwf Hv.
  - exists w, []. simpl. rewrite Z.add_0_r. split; [reflexivity|exact Hv].
  - cbn [process_frames]. unfold process_frame.
    destruct ((i <? start_frame)%Z || (i >=? end_frame)%Z).
    + simpl. destruct (IH w (progress + 1)%Z (i + 1)%Z Hwf Hv)
        as (w' & outs & Hrun & Hv').
      rewrite Hrun. simpl. exists w', ((mask, stack3 mask) :: outs).
      split; [do 3 f_equal; lia|exact Hv'].
    + destruct (update_particle_system_kept uniform integrate find_polygons
                  w (1 / 30) mask rmb Hwf) as (w1 & Hrun1 & Hk1 & Hv1 & _).
      rewrite Hrun1. simpl.
      destruct (IH w1 (progress + 1)%Z (i + 1)%Z (ck_well_formed _ _ Hk1))
        as (w' & outs & Hrun & Hv').
      { rewrite Hv1, Hh, Hw. unfold update_vortices. apply Forall_fmap.
        eapply Forall_impl; [exact Hv|]. intros v. apply update_vortex_near. }
      rewrite Hrun. simpl. exists w', (process_single_mask w1 mask i :: outs).
      split; [do 3 f_equal; lia|exact Hv'].
Qed.

(** C8, as amended.  The vortices drift once per frame, before the
    sub-steps: [update_particle_system] replaces every vortex by its update
    for the whole frame step [dt], and a sub-step leaves the vortices as
    they are.  The update moves the position by velocity x dt and negates a
    velocity component exactly when the new position is below 0 or above the
    width (or height) on that axis.  When the vortices are set up inside the
    frame (normalized coordinates between 0 and 1) and every frame has the
    shape of the mask tensor, after any frames every vortex is within
    |velocity| x 1/30 of the frame on each axis. *)
Theorem C8_vortices_drift_once_per_frame (w : World) (masks : Masks)
  (kw : Kwargs) (w0 : World) (start_frame end_frame : Z) (rmb : bool)
  (progress i : Z) (ms : list Mask) :
  setup_particle_system uniform w (INR (masks_width masks))
    (INR (masks_height masks)) kw = Some w0 ->
  Forall (fun s => 0 <= vs_x s <= 1 /\ 0 <= vs_y s <= 1)
         (default [] (kw_vortices kw)) ->
  frames_of_shape (masks_height masks) (masks_width masks) ms ->
  (forall wk dt mask b,
     well_formed wk ->
     exists wk',
       update_particle_system uniform integrate find_polygons wk dt mask b
       = Some wk' /\
       vortices wk'
       = map (update_vortex (INR (mask_width mask)) (INR (mask_height mask)) dt)
             (vortices wk)) /\
  (forall wk sub_dt h wd b,
     well_formed wk ->
     exists wk',
       sub_step uniform integrate wk sub_dt h wd b = Some wk' /\
       vortices wk' = vortices wk) /\
  (forall width height dt v,
     let v' := update_vortex width height dt v in
     let x' := vx (vortex_position v') in
     let y' := vy (vortex_position v') in
     vortex_position v' = vadd (vortex_position v) (vscale (vortex_velocity v) dt) /\
     (x' < 0 \/ width < x' -> vx (vortex_velocity v') = - vx (vortex_velocity v)) /\
     (0 <= x' <= width -> vx (vortex_velocity v') = vx (vortex_velocity v)) /\
     (y' < 0 \/ height < y' -> vy (vortex_velocity v') = - vy (vortex_velocity v)) /\
     (0 <= y' <= height -> vy (vortex_velocity v') = vy (vortex_velocity v))) /\
  exists w' outs,
    run_frames start_frame end_frame rmb w0 progress i ms
    = Some (w', (progress + Z.of_nat (length ms))%Z, outs) /\
    Forall (fun v =>
              vortex_within (INR (masks_width masks)) (INR (masks_height masks))
                (Rabs (vx (vortex_velocity v)) * (1 / 30))
                (Rabs (vy (vortex_velocity v)) * (1 / 30)) v)
           (vortices w').
Proof.
  intros Hs Hspecs Hshape.
  split.
  { intros wk dt mask b Hwf.
    destruct (update_particle_system_kept uniform integrate find_polygons
                wk dt mask b Hwf) as (wk' & Hrun & _ & Hv & _).
    exists wk'. split; [exact Hrun|exact Hv]. }
  split.
  { intros wk sub_dt h wd b Hwf.
    destruct (sub_step_kept uniform integrate wk sub_dt h wd b Hwf)
      as (wk' & Hrun & _ & Hv & _).
    exists wk'. split; [exact Hrun|exact Hv]. }
  split; [apply update_vortex_spec|].
  assert (Hnear : Forall (vortex_near_frame (INR (masks_width masks))
                            (INR (masks_height masks)) (1 / 30)) (vortices w0)).
  { destruct (setup_spec uniform w _ _ kw w0 Hs)
      as (_ & _ & _ & _ & _ & _ & _ & V & _).
    assert (P : Forall (fun p => 0 <= vx p <= INR (masks_width masks) /\
                                 0 <= vy p <= INR (masks_height masks))
                       (map vortex_position (vortices w0))).
    { rewrite V. apply Forall_fmap. eapply Forall_impl; [exact Hspecs|].
      simpl. intros s [[X0 X1] [Y0 Y1]].
      pose proof (pos_INR (masks_width masks)).
      pose proof (pos_INR (masks_height masks)). split; split; nra. }
    apply Forall_fmap in P. eapply Forall_impl; [exact P|].
    simpl. intros v [Px Py]. split; left; assumption. }
  destruct (process_frames_vortices start_frame end_frame rmb _ _ ms Hshape
              w0 progress i (setup_well_formed _ _ _ _ _ Hs) Hnear)
    as (w' & outs & Hrun & Hv).
  exists w', outs. split; [exact Hrun|].
  eapply Forall_impl; [exact Hv|]. intros v. apply near_frame_within. lra.
Qed.

End Claims.

(** * The code on examples *)

Lemma setup_succeeds (uniform : nat -> R -> R -> R) (w : World)
  (width height : R) (kw : Kwargs) (biggest : R) :
  max_of (map particle_size (kw_emitters kw)) = Some biggest ->
  biggest <> 0 ->
  exists w0, setup_particle_system uniform w width height kw = Some w0.
Proof.
  intros Hm Hb. unfold setup_particle_system. rewrite Hm. simpl.
  destruct (Req_dec_T _ 0) as [E|_]; [|eexists; reflexivity].
  exfalso. apply Hb.
  assert (biggest * biggest = 0) by lra. nra.
Qed.

Lemma jet_setup_succeeds (w : World) (kw : Kwargs) (e : Emitter) :
  kw_emitters kw = [e] -> particle_size e = 2 ->
  exists w0, setup_particle_system lower_bound_uniform w 2 2 kw = Some w0.
Proof.
  intros He Hs. apply (setup_succeeds _ _ _ _ _ 2); [|lra].
  rewrite He. simpl. rewrite Hs. reflexivity.
Qed.


Lemma jet_burst (n : Z) : burst_total 1 1 [mkEmitter 0.5 0.5 0 0 10 2 (1, 1, 1) 300 (IZR n)]
                         = Z.of_nat (Z.to_nat n).
Proof.
  unfold burst_total; simpl.
  replace (1 * IZR n / 1) with (IZR n) by field.
  rewrite py_int_IZR. lia.
Qed.

Lemma witness_C1 :
  exists w0,
    setup_particle_system lower_bound_uniform initialize 2 2 short_lived_kwargs
    = Some w0 /\
    1 / 150 < kw_particle_lifetime short_lived_kwargs /\
    exists w' outs,
      process_frames lower_bound_uniform resting_integrate no_polygons
        frame_as_output 0 4 false w0 0 0 (frames four_frames)
      = Some (w', (0 + Z.of_nat (length (frames four_frames)))%Z, outs) /\
      (total_particles_emitted w0 <= total_particles_emitted w')%Z /\
      particles w' = seq 0 (Z.to_nat (total_particles_emitted w')) /\
      0 <= current_time_step (space w') <= 1 / 150.
Proof.
  destruct (jet_setup_succeeds initialize short_lived_kwargs jet eq_refl eq_refl)
    as [w0 H].
  assert (L : 1 / 150 < kw_particle_lifetime short_lived_kwargs)
    by (simpl; lra).
  exists w0. split; [exact H|]. split; [exact L|].
  exact (C1_no_particle_ever_expires lower_bound_uniform resting_integrate
           no_polygons frame_as_output 2 2 short_lived_kwargs w0 0 4 false 0 0
           (frames four_frames) H L).
Defined.

(** The failing run of C1: one particle of lifetime 1/10 emitted by the
    setup is still the live collection after four frames, that is twenty
    sub-steps of 1/150, more than its lifetime. *)
Lemma short_lived_particle_survives :
  exists w0 w' outs,
    setup_particle_system lower_bound_uniform initialize 2 2 short_lived_kwargs
    = Some w0 /\
    process_frames lower_bound_uniform resting_integrate no_polygons
      frame_as_output 0 4 false w0 0 0 (frames four_frames)
    = Some (w', 4%Z, outs) /\
    particles w0 = [0%nat] /\
    particles w' = [0%nat] /\
    kw_particle_lifetime short_lived_kwargs <= 20 * (1 / 150).
Proof.
  destruct (jet_setup_succeeds initialize short_lived_kwargs jet eq_refl eq_refl)
    as [w0 H].
  assert (L : 1 / 150 < kw_particle_lifetime short_lived_kwargs)
    by (simpl; lra).
  pose proof (setup_never_expiring _ _ _ _ _ H L) as N0.
  destruct (setup_spec lower_bound_uniform initialize 2 2 short_lived_kwargs w0 H)
    as (_ & M & _ & _ & _ & _ & T & _).
  change (burst_total _ _ _)
    with (burst_total 1 1 [mkEmitter 0.5 0.5 0 0 10 2 (1, 1, 1) 300 (IZR 1)]) in T.
  rewrite jet_burst in T. simpl in T, M.
  destruct (process_frames_kept lower_bound_uniform resting_integrate no_polygons
              frame_as_output 0 4 false (frames four_frames) w0 0 0
              (setup_well_formed _ _ _ _ _ _ H))
    as (w' & outs & R & _ & K & N).
  exists w0, w', outs. split; [exact H|]. split; [exact R|].
  destruct N0 as (_ & _ & P0 & T0 & _).
  destruct (N (setup_never_expiring _ _ _ _ _ H L)) as (_ & _ & P & T' & _).
  pose proof (ck_total _ _ K) as Tm. pose proof (ck_cap _ _ K) as Tc.
  rewrite M, T in Tc. rewrite T in Tm. specialize (Tc ltac:(lia)).
  assert (L0 : length (bodies (space w0)) = 1%nat) by lia.
  assert (L' : length (bodies (space w')) = 1%nat) by lia.
  rewrite P0, P, L0, L'. split; [reflexivity|]. split; [reflexivity|].
  simpl. lra.
Qed.



(** C4 fails as stated when the cap halts the emission: after the setup has
    used the whole cap of one particle, the first emission check of an
    emitter of 300 particles per second leaves 2 in its accumulator. *)
Lemma C4_accumulator_grows_at_cap :
  exists w0 w',
    setup_particle_system lower_bound_uniform initialize 2 2 short_lived_kwargs
    = Some w0 /\
    particles_to_emit w0 !! 0%nat = Some 0 /\
    emit_from lower_bound_uniform w0 (1 / 150) 2 2 0 jet = Some w' /\
    particles_to_emit w' !! 0%nat = Some 2 /\
    ~ 2 < 1.
Proof.
  destruct (jet_setup_succeeds initialize short_lived_kwargs jet eq_refl eq_refl)
    as [w0 H].
  destruct (setup_spec lower_bound_uniform initialize 2 2 short_lived_kwargs w0 H)
    as (_ & M & _ & _ & A & _ & T & _).
  change (burst_total _ _ _)
    with (burst_total 1 1 [mkEmitter 0.5 0.5 0 0 10 2 (1, 1, 1) 300 (IZR 1)]) in T.
  rewrite jet_burst in T. simpl in T, M, A.
  assert (A0 : particles_to_emit w0 !! 0%nat = Some 0) by (rewrite A; reflexivity).
  destruct (emit_from_spec lower_bound_uniform w0 (1 / 150) 2 2 0 jet 0 A0)
    as (w' & Hrun & Heo & Hi & _ & _ & _ & Hcap).
  destruct Heo as [_ _ _ _ _ _ (new & _ & _ & Tn & _)].
  specialize (Hcap ltac:(lia)).
  assert (E : (total_particles_emitted w' - total_particles_emitted w0 = 0)%Z) by lia.
  exists w0, w'. split; [exact H|]. split; [exact A0|]. split; [exact Hrun|].
  split; [|lra]. rewrite Hi, E. f_equal. simpl. lra.
Qed.

Lemma witness_C4 :
  particles_to_emit idle_world !! 0%nat = Some 0 /\
  0 <= 0 + emission_rate jet * (1 / 150) /\
  exists w',
    emit_from lower_bound_uniform idle_world (1 / 150) 2 2 0 jet = Some w' /\
    (0 <= total_particles_emitted w' - total_particles_emitted idle_world)%Z.
Proof.
  assert (A : particles_to_emit idle_world !! 0%nat = Some 0) by reflexivity.
  assert (B : 0 <= 0 + emission_rate jet * (1 / 150)) by (simpl; lra).
  split; [exact A|]. split; [exact B|].
  destruct (C4_accumulator_after_check lower_bound_uniform no_polygons
              idle_world (1 / 150) 2 2 0 jet 0 A B) as [(w' & Hrun & Hn & _) _].
  exists w'. split; [exact Hrun|exact Hn].
Defined.

(** C8 fails as stated for a sub-step: a sub-step of 1/150 leaves a vortex
    at (1,1) with velocity (3,0) where it is. *)
Lemma C8_sub_step_leaves_the_vortices :
  exists w',
    sub_step lower_bound_uniform resting_integrate drifting_world (1 / 150) 2 2
             false = Some w' /\
    vortices w' = [drifting_vortex] /\
    vortex_position drifting_vortex
    <> vadd (vortex_position drifting_vortex)
            (vscale (vortex_velocity drifting_vortex) (1 / 150)).
Proof.
  destruct (sub_step_kept lower_bound_uniform resting_integrate drifting_world
              (1 / 150) 2 2 false eq_refl) as (w' & Hrun & _ & Hv & _).
  exists w'. split; [exact Hrun|]. split; [exact Hv|].
  intros E. apply (f_equal vx) in E. simpl in E. lra.
Qed.

Lemma witness_C8 :
  exists w0,
    setup_particle_system lower_bound_uniform initialize
      (INR (masks_width four_frames)) (INR (masks_height four_frames))
      drifting_kwargs = Some w0 /\
    Forall (fun s => 0 <= vs_x s <= 1 /\ 0 <= vs_y s <= 1)
           (default [] (kw_vortices drifting_kwargs)) /\
    frames_of_shape (masks_height four_frames) (masks_width four_frames)
                    (frames four_frames) /\
    exists w' outs,
      process_frames lower_bound_uniform resting_integrate no_polygons
        frame_as_output 0 4 false w0 0 0 (frames four_frames)
      = Some (w', (0 + Z.of_nat (length (frames four_frames)))%Z, outs) /\
      Forall (fun v =>
                vortex_within (INR (masks_width four_frames))
                  (INR (masks_height four_frames))
                  (Rabs (vx (vortex_velocity v)) * (1 / 30))
                  (Rabs (vy (vortex_velocity v)) * (1 / 30)) v)
             (vortices w').
Proof.
  destruct (setup_succeeds lower_bound_uniform initialize
              (INR (masks_width four_frames)) (INR (masks_height four_frames))
              drifting_kwargs 2 eq_refl ltac:(lra)) as [w0 H].
  assert (A : Forall (fun s => 0 <= vs_x s <= 1 /\ 0 <= vs_y s <= 1)
                     (default [] (kw_vortices drifting_kwargs)))
    by (constructor; [simpl; lra|constructor]).
  assert (B : frames_of_shape (masks_height four_frames)
                (masks_width four_frames) (frames four_frames))
    by (repeat (constructor; [split; reflexivity|]); constructor).
  exists w0. split; [exact H|]. split; [exact A|]. split; [exact B|].
  exact (proj2 (proj2 (proj2
           (C8_vortices_drift_once_per_frame lower_bound_uniform
              resting_integrate no_polygons frame_as_output initialize
              four_frames drifting_kwargs w0 0 4 false 0 0 (frames four_frames)
              H A B)))).
Defined.


(** * The rest of the particle system *)

(** ** Every proper crossing is detected *)

Lemma crossing_orientations (x1 y1 x2 y2 x3 y3 x4 y4 t u : R) :
  x1 + (x2 - x1) * t = x3 + (x4 - x3) * u ->
  y1 + (y2 - y1) * t = y3 + (y4 - y3) * u ->
  let c := (x2 - x1) * (y4 - y3) - (y2 - y1) * (x4 - x3) in
  (y4 - y1) * (x3 - x1) - (y3 - y1) * (x4 - x1) = t * c /\
  (y4 - y2) * (x3 - x2) - (y3 - y2) * (x4 - x2) = (t - 1) * c /\
  (y3 - y1) * (x2 - x1) - (y2 - y1) * (x3 - x1) = - u * c /\
  (y4 - y1) * (x2 - x1) - (y2 - y1) * (x4 - x1) = (1 - u) * c.
Proof.
  intros Ex Ey c. unfold c.
  assert (Ax : x3 - x1 = t * (x2 - x1) - u * (x4 - x3)) by lra.
  assert (Ay : y3 - y1 = t * (y2 - y1) - u * (y4 - y3)) by lra.
  repeat split.
  - transitivity ((x3 - x1) * (y4 - y3) - (y3 - y1) * (x4 - x3)); [ring|].
    rewrite Ax, Ay. ring.
  - transitivity (((x3 - x1) - (x2 - x1)) * (y4 - y3)
                  - ((y3 - y1) - (y2 - y1)) * (x4 - x3)); [ring|].
    rewrite Ax, Ay. ring.
  - rewrite Ax, Ay. ring.
  - transitivity (((y3 - y1) + (y4 - y3)) * (x2 - x1)
                  - (y2 - y1) * ((x3 - x1) + (x4 - x3))); [ring|].
    rewrite Ax, Ay. ring.
Qed.

(** X1.  Two segments that cross at a point strictly inside both, and are
    not parallel, pass the intersection test. *)
Theorem proper_crossing_is_detected (p1 p2 p3 p4 : Vec2d) (t u : R) :
  0 < t < 1 -> 0 < u < 1 ->
  vadd p1 (vscale (vsub p2 p1) t) = vadd p3 (vscale (vsub p4 p3) u) ->
  cross (vsub p2 p1) (vsub p4 p3) <> 0 ->
  line_segment_intersect p1 p2 p3 p4 = true.
Proof.
  destruct p1 as [x1 y1], p2 as [x2 y2], p3 as [x3 y3], p4 as [x4 y4].
  unfold cross, vadd, vscale, vsub; simpl. intros Ht Hu E Hc.
  injection E as Ex Ey.
  destruct (crossing_orientations x1 y1 x2 y2 x3 y3 x4 y4 t u Ex Ey)
    as (F1 & F2 & G3 & G4).
  cbv zeta in *.
  set (c := (x2 - x1) * (y4 - y3) - (y2 - y1) * (x4 - x3)) in *.
  unfold line_segment_intersect, ccw; simpl.
  destruct (Rlt_dec 0 c) as [P|N].
  - assert (T1 : 0 < t * c) by (apply Rmult_lt_0_compat; lra).
    assert (T2 : 0 < (1 - t) * c) by (apply Rmult_lt_0_compat; lra).
    assert (T3 : 0 < u * c) by (apply Rmult_lt_0_compat; lra).
    assert (T4 : 0 < (1 - u) * c) by (apply Rmult_lt_0_compat; lra).
    rewrite (proj2 (Rgtb_true_iff ((y4 - y1) * (x3 - x1)) _)) by lra.
    rewrite (proj2 (Rgtb_false_iff ((y4 - y2) * (x3 - x2)) _)) by lra.
    rewrite (proj2 (Rgtb_false_iff ((y3 - y1) * (x2 - x1)) _)) by lra.
    rewrite (proj2 (Rgtb_true_iff ((y4 - y1) * (x2 - x1)) _)) by lra.
    reflexivity.
  - assert (N' : 0 < - c) by lra.
    assert (T1 : 0 < t * - c) by (apply Rmult_lt_0_compat; lra).
    assert (T2 : 0 < (1 - t) * - c) by (apply Rmult_lt_0_compat; lra).
    assert (T3 : 0 < u * - c) by (apply Rmult_lt_0_compat; lra).
    assert (T4 : 0 < (1 - u) * - c) by (apply Rmult_lt_0_compat; lra).
    rewrite (proj2 (Rgtb_false_iff ((y4 - y1) * (x3 - x1)) _)) by lra.
    rewrite (proj2 (Rgtb_true_iff ((y4 - y2) * (x3 - x2)) _)) by lra.
    rewrite (proj2 (Rgtb_true_iff ((y3 - y1) * (x2 - x1)) _)) by lra.
    rewrite (proj2 (Rgtb_false_iff ((y4 - y1) * (x2 - x1)) _)) by lra.
    reflexivity.
Qed.

Lemma witness_proper_crossing :
  0 < 1 / 2 < 1 /\ 0 < 1 / 2 < 1 /\
  line_segment_intersect (mkVec2d 5 1) (mkVec2d 5 (-1)) (mkVec2d 0 0)
                         (mkVec2d 10 0) = true.
Proof.
  split; [lra|]. split; [lra|].
  apply (proper_crossing_is_detected _ _ _ _ (1 / 2) (1 / 2)).
  - lra.
  - lra.
  - apply vec_eq; simpl; lra.
  - unfold cross; simpl. lra.
Defined.

(** ** The boundary polygons *)

Lemma polygon_segments_lookup (points : list Vec2d) (i : nat) :
  (3 <= length points)%nat -> (i < length points)%nat ->
  polygon_segments points !! i
  = Some (mkSegment (nth i points vzero)
                    (nth ((i + 1) mod length points) points vzero)).
Proof.
  intros H3 Hi. unfold polygon_segments.
  replace (length points <? 3)%nat with false
    by (symmetry; apply Nat.ltb_ge; lia).
  rewrite list_lookup_fmap, lookup_seq_lt by exact Hi. reflexivity.
Qed.

(** X2.  A contour of fewer than three points gives no segment.  A contour
    of n >= 3 points gives n segments: the i-th starts at the i-th point and
    ends where the next segment starts, the last one ending at the first
    point, so that the segments form a closed chain. *)
Theorem polygon_segments_closed_chain (points : list Vec2d) :
  ((length points < 3)%nat -> polygon_segments points = []) /\
  ((3 <= length points)%nat ->
   length (polygon_segments points) = length points /\
   forall (i : nat) (s : Segment),
     polygon_segments points !! i = Some s ->
     points !! i = Some (seg_a s) /\
     exists s',
       polygon_segments points !! ((i + 1) mod length points) = Some s' /\
       seg_a s' = seg_b s).
Proof.
  split.
  - intros H. unfold polygon_segments.
    replace (length points <? 3)%nat with true
      by (symmetry; apply Nat.ltb_lt; lia).
    reflexivity.
  - intros H3.
    assert (L : length (polygon_segments points) = length points).
    { unfold polygon_segments.
      replace (length points <? 3)%nat with false
        by (symmetry; apply Nat.ltb_ge; lia).
      rewrite length_map, length_seq. reflexivity. }
    split; [exact L|].
    intros i s Hs.
    assert (Hi : (i < length points)%nat)
      by (rewrite <- L; eapply lookup_lt_Some, Hs).
    rewrite polygon_segments_lookup in Hs by assumption.
    injection Hs as <-. simpl. split.
    + destruct (lookup_lt_is_Some_2 points i Hi) as [p Hp].
      rewrite Hp. f_equal. symmetry. apply nth_lookup_Some with (d := vzero) in Hp.
      exact Hp.
    + assert (Hj : ((i + 1) mod length points < length points)%nat)
        by (apply Nat.mod_upper_bound; lia).
      eexists. split; [apply polygon_segments_lookup; assumption|].
      reflexivity.
Qed.

(** ** Spawned particles *)

Lemma unit_direction_length (angle : R) : vlength (mkVec2d (cos angle) (sin angle)) = 1.
Proof.
  apply vlength_of_dot; [lra|]. unfold dot; simpl.
  pose proof (sin2_cos2 angle) as H. unfold Rsqr in H. lra.
Qed.

(** X3.  [emit_particle] adds one body to the space and to the live
    particles and counts it.  The particle starts at the emitter's position
    scaled to the frame, with the emitter's size and colour and the world's
    lifetime, and its speed is the absolute value of the emitter's speed
    whatever angle is drawn. *)
Theorem emit_particle_spawns_at_emitter_speed (uniform : nat -> R -> R -> R)
  (w : World) (e : Emitter) (height width : R) (i : nat) :
  let w' := emit_particle uniform w e height width i in
  exists p,
    bodies (space w') = bodies (space w) ++ [p] /\
    particles w' = particles w ++ [length (bodies (space w))] /\
    bodies (space w') !! length (bodies (space w)) = Some p /\
    total_particles_emitted w' = (total_particles_emitted w + 1)%Z /\
    position p = mkVec2d (emitter_x e * width) (emitter_y e * height) /\
    vlength (velocity p) = Rabs (particle_speed e) /\
    force p = vzero /\
    lifetime p = particle_lifetime w /\
    p_size p = particle_size e /\
    color p = emitter_color e.
Proof.
  cbv zeta. unfold emit_particle. eexists.
  cbn [space bodies particles total_particles_emitted position velocity force
       lifetime p_size color].
  split; [reflexivity|]. split; [reflexivity|].
  split; [rewrite lookup_app_r, Nat.sub_diag by lia; reflexivity|].
  split; [reflexivity|]. split; [reflexivity|].
  split; [|repeat split].
  cbn [velocity]. rewrite vlength_vscale, unit_direction_length. ring.
Qed.

(** ** The vortices of the setup *)

Lemma normalized_length_le (a : Vec2d) : vlength (normalized a) <= 1.
Proof.
  destruct (Req_dec_T (vlength a) 0) as [Z|N].
  - apply vlength_zero_iff in Z. rewrite Z, normalized_zero.
    replace (vlength vzero) with 0 by (symmetry; apply vlength_zero_iff; reflexivity).
    lra.
  - rewrite normalized_unit by exact N. lra.
Qed.

Lemma initialize_vortices_spec (uniform : nat -> R -> R -> R)
  (width height : R) (specs : list VortexSpec) :
  forall (acc : list Vortex) (n : nat),
    let r :=
      fold_left
        (fun acc vortex =>
           let '(vs, n) := acc in
           let x := vs_x vortex * width in
           let y := vs_y vortex * height in
           let dir := mkVec2d (uniform n (-1) 1) (uniform (S n) (-1) 1) in
           (vs ++ [mkVortex (mkVec2d x y)
                     (vscale (normalized dir) (vs_movement_speed vortex))
                     (vs_strength vortex) (vs_radius vortex)
                     (vs_inward_factor vortex)],
            S (S n)))
        specs (acc, n) in
    snd r = (n + 2 * length specs)%nat /\
    exists new,
      fst r = acc ++ new /\
      Forall2
        (fun s v =>
           vortex_position v = mkVec2d (vs_x s * width) (vs_y s * height) /\
           vortex_strength v = vs_strength s /\
           vortex_radius v = vs_radius s /\
           inward_factor v = vs_inward_factor s /\
           vlength (vortex_velocity v) <= Rabs (vs_movement_speed s))
        specs new.
Proof.
  induction specs as [|s specs IH]; intros acc n; simpl.
  - split; [lia|]. exists []. rewrite app_nil_r. split; [reflexivity|constructor].
  - destruct (IH (acc ++
                  [mkVortex (mkVec2d (vs_x s * width) (vs_y s * height))
                     (vscale (normalized (mkVec2d (uniform n (-1) 1)
                                                  (uniform (S n) (-1) 1)))
                             (vs_movement_speed s))
                     (vs_strength s) (vs_radius s) (vs_inward_factor s)])
                 (S (S n))) as (Hn & new & Hnew & HF).
    cbv zeta in Hn, Hnew. split; [rewrite Hn; lia|].
    eexists (_ :: new). split; [rewrite Hnew, <- app_assoc; reflexivity|].
    constructor; [|exact HF]. simpl. repeat split.
    rewrite vlength_vscale.
    pose proof (normalized_length_le (mkVec2d (uniform n (-1) 1) (uniform (S n) (-1) 1))).
    pose proof (Rabs_pos (vs_movement_speed s)). nra.
Qed.

(** X4.  [initialize_vortices] builds one vortex per descriptor, in order,
    at the descriptor's position scaled to the frame and with its strength,
    radius and inward factor; it takes two draws per vortex, and the drift
    speed of a vortex is never above its movement speed in absolute
    value. *)
Theorem initialize_vortices_one_per_descriptor (uniform : nat -> R -> R -> R)
  (width height : R) (specs : list VortexSpec) (draws : nat) :
  let r := initialize_vortices uniform width height specs draws in
  snd r = (draws + 2 * length specs)%nat /\
  Forall2
    (fun s v =>
       vortex_position v = mkVec2d (vs_x s * width) (vs_y s * height) /\
       vortex_strength v = vs_strength s /\
       vortex_radius v = vs_radius s /\
       inward_factor v = vs_inward_factor s /\
       vlength (vortex_velocity v) <= Rabs (vs_movement_speed s))
    specs (fst r).
Proof.
  cbv zeta. unfold initialize_vortices.
  destruct (initialize_vortices_spec uniform width height specs [] draws)
    as (Hn & new & Hnew & HF).
  cbv zeta in Hn, Hnew. split; [exact Hn|]. rewrite Hnew. exact HF.
Qed.

(** ** When the setup raises *)



(** ** One particle in the loop of a sub-step *)

Lemma gravity_well_step_velocity (m : R) (p : Body) (well : Well) :
  velocity (gravity_well_step m p well) = velocity p.
Proof. unfold gravity_well_step. destruct (Rlt_dec _ _); reflexivity. Qed.

Lemma apply_gravity_well_force_keeps (wells : list Well) (m : R) (p : Body) :
  position (apply_gravity_well_force wells m p) = position p /\
  velocity (apply_gravity_well_force wells m p) = velocity p.
Proof.
  unfold apply_gravity_well_force. revert p.
  induction wells as [|well wells IH]; intros p; simpl; [split; reflexivity|].
  destruct (IH (gravity_well_step m p well)) as [A B].
  rewrite A, B, gravity_well_step_position, gravity_well_step_velocity.
  split; reflexivity.
Qed.

Lemma vortex_step_force (p : Body) (v : Vortex) : force (vortex_step p v) = force p.
Proof. unfold vortex_step. destruct (Rlt_dec _ _); reflexivity. Qed.

Lemma apply_vortex_force_force (vs : list Vortex) (p : Body) (dt : R) :
  force (apply_vortex_force vs p dt) = force p.
Proof.
  unfold apply_vortex_force. revert p.
  induction vs as [|v vs IH]; intros p; simpl; [reflexivity|].
  rewrite IH. apply vortex_step_force.
Qed.

Lemma check_collision_force (shapes : list Segment) (p : Body) (a b : Vec2d) :
  force (check_particle_mask_collision shapes p a b) = force p.
Proof.
  induction shapes as [|s rest IH]; simpl; [reflexivity|].
  destruct (line_segment_intersect _ _ _ _); [reflexivity|exact IH].
Qed.

(** X6.  In the loop over the particles the wells move nothing: the
    particle is displaced by the velocity the vortices left, times the
    sub-step, whatever the wells and the boundary do; the wells only add
    their forces to the accumulator of the body, and without a boundary the
    velocity is the one the vortices left. *)
Theorem move_particle_displacement (w : World) (sub_dt : R) (rmb : bool)
  (p : Body) :
  let swirled := apply_vortex_force (vortices w) p sub_dt in
  position (move_particle w sub_dt rmb p)
  = vadd (position p) (vscale (velocity swirled) sub_dt) /\
  force (move_particle w sub_dt rmb p)
  = fold_left vadd
      (map (well_force (well_strength_multiplier w) (position p))
           (gravity_wells w))
      (force p) /\
  (rmb = false -> velocity (move_particle w sub_dt rmb p) = velocity swirled) /\
  (vortices w = [] -> rmb = false ->
   velocity (move_particle w sub_dt rmb p) = velocity p).
Proof.
  intros swirled. unfold move_particle. fold swirled.
  destruct (apply_gravity_well_force_keeps (gravity_wells w)
              (well_strength_multiplier w) swirled) as [Pw Vw].
  assert (Ps : position swirled = position p)
    by apply apply_vortex_force_position.
  split; [|split; [|split]].
  - cbn [position set_position]. rewrite Pw, Vw, Ps. reflexivity.
  - change (force (set_position ?q _)) with (force q).
    transitivity (force (apply_gravity_well_force (gravity_wells w)
                           (well_strength_multiplier w) swirled)).
    + destruct rmb; [apply check_collision_force|reflexivity].
    + rewrite apply_gravity_well_force_sum, Ps.
      unfold swirled. rewrite apply_vortex_force_force. reflexivity.
  - intros ->. exact Vw.
  - intros Hv ->. cbn [velocity set_position]. rewrite Vw.
    unfold swirled. rewrite Hv. reflexivity.
Qed.

(** ** The velocity a vortex sets *)

Lemma quarter_turn_length (a : Vec2d) :
  vlength (mkVec2d (- vy a) (vx a)) = vlength a.
Proof. unfold vlength; simpl. f_equal. ring. Qed.

(** X7.  The velocity a vortex gives to a particle at offset [offset] from
    its centre, at distance d > 0: its square is
    strength^2 x ((d/radius)^2 + inward_factor^2), and its component along
    the offset is - strength x inward_factor x d, directed to the centre for
    positive factors.  At the centre (d = 0) the velocity is zero. *)
Theorem vortex_velocity_magnitude (vortex : Vortex) (offset : Vec2d) :
  let d := vlength offset in
  let v := vortex_new_velocity vortex offset in
  (d = 0 -> v = vzero) /\
  (d <> 0 ->
   dot v v
   = vortex_strength vortex * vortex_strength vortex
     * (d / vortex_radius vortex * (d / vortex_radius vortex)
        + inward_factor vortex * inward_factor vortex) /\
   dot v offset = - (vortex_strength vortex * inward_factor vortex * d)).
Proof.
  intros d v. split.
  - intros Hd. apply vlength_zero_iff in Hd. unfold v, vortex_new_velocity.
    rewrite Hd. change (mkVec2d (- vy vzero) (vx vzero)) with (mkVec2d (- 0) 0).
    replace (mkVec2d (- 0) 0) with vzero by (apply vec_eq; simpl; ring).
    rewrite normalized_zero. apply vec_eq; simpl; ring.
  - intros Hd. unfold v, vortex_new_velocity.
    rewrite (normalized_nonzero offset) by exact Hd.
    rewrite (normalized_nonzero (mkVec2d (- vy offset) (vx offset)))
      by (rewrite quarter_turn_length; exact Hd).
    rewrite quarter_turn_length. fold d.
    pose proof (vlength_sqr offset) as S. fold d in S. unfold dot in S.
    set (a := vx offset / d). set (b := vy offset / d).
    assert (Ha : vx offset = a * d) by (unfold a; field; exact Hd).
    assert (Hb : vy offset = b * d) by (unfold b; field; exact Hd).
    assert (U : a * a + b * b = 1).
    { rewrite Ha, Hb in S.
      assert (d * d * (a * a + b * b) = d * d * 1) by lra.
      apply Rmult_eq_reg_l with (d * d); [exact H|]. nra. }
    set (k := vortex_strength vortex * (d / vortex_radius vortex)).
    set (m := vortex_strength vortex * inward_factor vortex).
    unfold dot, vadd, vscale, vneg; simpl. fold a b.
    replace (- vy offset / d) with (- b) by (unfold b; field; exact Hd).
    split.
    + transitivity ((a * a + b * b) * (k * k + m * m));
        [unfold k, m; ring|]. rewrite U. unfold k, m. ring.
    + clearbody a b. rewrite Ha, Hb.
      transitivity (- ((a * a + b * b) * (m * d))); [unfold m; ring|].
      rewrite U. ring.
Qed.

(** ** The ledger of the emission *)

Lemma sum_R_insert (l : list R) :
  forall (i : nat) (v v' : R),
    l !! i = Some v -> sum_R (<[i := v']> l) = sum_R l - v + v'.
Proof.
  induction l as [|x l IH]; intros i v v' H; [discriminate|].
  destruct i as [|i]; simpl in *.
  - injection H as ->. lra.
  - rewrite (IH i v v' H). lra.
Qed.

Lemma sum_R_change (l l' : list R) (i : nat) (v v' : R) :
  length l' = length l ->
  l !! i = Some v -> l' !! i = Some v' ->
  (forall j, j <> i -> l' !! j = l !! j) ->
  sum_R l' = sum_R l - v + v'.
Proof.
  intros Hlen Hv Hv' Hj.
  assert (E : l' = <[i := v']> l).
  { apply list_eq. intros j. destruct (decide (j = i)) as [->|Hne].
    - rewrite Hv'. symmetry. apply list_lookup_insert_eq.
      eapply lookup_lt_Some, Hv.
    - rewrite list_lookup_insert_ne by congruence. apply Hj, Hne. }
  rewrite E. apply sum_R_insert, Hv.
Qed.

Lemma sum_R_bounds (l : list R) :
  Forall (fun a => 0 <= a < 1) l ->
  0 <= sum_R l /\ (sum_R l <= INR (length l)) /\
  (l <> [] -> sum_R l < INR (length l)).
Proof.
  induction 1 as [|a l Ha _ IH].
  - simpl. split; [lra|]. split; [lra|]. intros H. exfalso. apply H. reflexivity.
  - destruct IH as (I0 & I1 & _). cbn [sum_R fold_right length].
    fold (sum_R l). rewrite S_INR. split; [lra|]. split; [lra|]. intros _. lra.
Qed.

Section Ledger.

Variable uniform : nat -> R -> R -> R.
Variable integrate : R -> Vec2d -> list Segment -> list Body -> Body -> Vec2d * Vec2d.
Variable find_polygons : Mask -> list (list Vec2d).

Lemma emit_from_inversion (w : World) (sub_dt h wd : R) (i : nat) (e : Emitter)
  (w' : World) :
  emit_from uniform w sub_dt h wd i e = Some w' ->
  exists acc,
    particles_to_emit w !! i = Some acc /\
    emission_only w w' /\
    particles_to_emit w' !! i
    = Some (acc + emission_rate e * sub_dt
            - IZR (total_particles_emitted w' - total_particles_emitted w)) /\
    (forall j, j <> i -> particles_to_emit w' !! j = particles_to_emit w !! j) /\
    (0 <= acc + emission_rate e * sub_dt ->
     0 <= acc + emission_rate e * sub_dt
          - IZR (total_particles_emitted w' - total_particles_emitted w)) /\
    (acc + emission_rate e * sub_dt
     - IZR (total_particles_emitted w' - total_particles_emitted w) < 1
     \/ (max_particles w' <= total_particles_emitted w')%Z).
Proof.
  intros H.
  assert (Hacc : exists acc, particles_to_emit w !! i = Some acc).
  { destruct (particles_to_emit w !! i) as [acc|] eqn:E; [eauto|].
    unfold emit_from in H. rewrite E in H. discriminate. }
  destruct Hacc as [acc Hacc]. exists acc. split; [exact Hacc|].
  destruct (emit_from_spec uniform w sub_dt h wd i e acc Hacc)
    as (w'' & Hrun & Heo & Hi & Hj & Hnn & Hstop & _).
  rewrite H in Hrun. injection Hrun as <-.
  split; [exact Heo|]. split; [exact Hi|]. split; [exact Hj|].
  split; [exact Hnn|exact Hstop].
Qed.

Lemma emit_from_ledger (w : World) (sub_dt h wd : R) (i : nat) (e : Emitter)
  (w' : World) :
  emit_from uniform w sub_dt h wd i e = Some w' ->
  IZR (total_particles_emitted w') + sum_R (particles_to_emit w')
  = IZR (total_particles_emitted w) + sum_R (particles_to_emit w)
    + emission_rate e * sub_dt.
Proof.
  intros H. destruct (emit_from_inversion _ _ _ _ _ _ _ H)
    as (acc & Hacc & Heo & Hi & Hj & _).
  rewrite (sum_R_change _ _ i _ _ (eo_slots _ _ Heo) Hacc Hi Hj).
  rewrite minus_IZR. lra.
Qed.

Lemma emit_all_ledger (es : list Emitter) :
  forall (w : World) (sub_dt h wd : R) (i : nat) (w' : World),
    emit_all uniform w sub_dt h wd i es = Some w' ->
    IZR (total_particles_emitted w') + sum_R (particles_to_emit w')
    = IZR (total_particles_emitted w) + sum_R (particles_to_emit w)
      + sub_dt * sum_R (map emission_rate es).
Proof.
  induction es as [|e es IH]; intros w sub_dt h wd i w' H; simpl in *.
  - injection H as <-. lra.
  - destruct (emit_from uniform w sub_dt h wd i e) as [w1|] eqn:E;
      [|discriminate]. simpl in H.
    rewrite (IH _ _ _ _ _ _ H), (emit_from_ledger _ _ _ _ _ _ _ E). lra.
Qed.

(** The accumulators through the loop over the emitters. *)
Lemma emit_all_accumulators (es : list Emitter) :
  forall (w : World) (sub_dt h wd : R) (i : nat) (w' : World),
    emit_all uniform w sub_dt h wd i es = Some w' ->
    0 <= sub_dt ->
    Forall (fun e => 0 <= emission_rate e) es ->
    Forall (fun a => 0 <= a) (particles_to_emit w) ->
    emission_only w w' /\
    Forall (fun a => 0 <= a) (particles_to_emit w') /\
    (forall j, (j < i)%nat -> particles_to_emit w' !! j = particles_to_emit w !! j) /\
    ((total_particles_emitted w' < max_particles w')%Z ->
     forall j a, (i <= j < i + length es)%nat ->
                 particles_to_emit w' !! j = Some a -> a < 1).
Proof.
  induction es as [|e es IH]; intros w sub_dt h wd i w' H Hdt Hr Ha; simpl in *.
  - injection H as <-. split; [apply emission_only_refl|]. split; [exact Ha|].
    split; [reflexivity|]. intros _ j a Hj. lia.
  - destruct (emit_from uniform w sub_dt h wd i e) as [w1|] eqn:E;
      [|discriminate]. simpl in H.
    destruct (emit_from_inversion _ _ _ _ _ _ _ E)
      as (acc & Hacc & Heo & Hi & Hj & Hnn & Hstop).
    apply Forall_cons in Hr as [Hre Hr].
    assert (Hacc0 : 0 <= acc).
    { rewrite Forall_forall in Ha. apply Ha.
      eapply list_elem_of_lookup_2, Hacc. }
    assert (Hsum : 0 <= acc + emission_rate e * sub_dt) by nra.
    specialize (Hnn Hsum).
    assert (Ha1 : Forall (fun a => 0 <= a) (particles_to_emit w1)).
    { apply Forall_lookup. intros j a Hja.
      destruct (decide (j = i)) as [->|Hne].
      - rewrite Hi in Hja. injection Hja as <-. exact Hnn.
      - rewrite (Hj j Hne) in Hja. rewrite Forall_forall in Ha. apply Ha.
        eapply list_elem_of_lookup_2, Hja. }
    destruct (IH w1 sub_dt h wd (S i) w' H Hdt Hr Ha1)
      as (Heo' & Ha' & Hlow & Hcap).
    split; [eapply emission_only_trans; eassumption|].
    split; [exact Ha'|]. split.
    + intros j Hlt. rewrite (Hlow j) by lia. apply Hj. lia.
    + intros Hbelow j a Hrange Hja.
      destruct (decide (j = i)) as [->|Hne].
      * rewrite (Hlow i) in Hja by lia. rewrite Hi in Hja. injection Hja as <-.
        destruct Hstop as [Hlt|Hge]; [exact Hlt|].
        exfalso.
        destruct Heo' as [E1 _ _ _ _ _ (new & _ & _ & T & _)].
        lia.
      * apply (Hcap Hbelow j a); [lia|exact Hja].
Qed.

Lemma sub_step_inversion (w : World) (sub_dt h wd : R) (rmb : bool) (w' : World) :
  sub_step uniform integrate w sub_dt h wd rmb = Some w' ->
  exists w1,
    emit_all uniform w sub_dt h wd 0 (emitters w) = Some w1 /\
    particles_to_emit w' = particles_to_emit w1 /\
    total_particles_emitted w' = total_particles_emitted w1 /\
    max_particles w' = max_particles w1 /\
    emitters w' = emitters w1.
Proof.
  unfold sub_step. intros H.
  destruct (emit_all uniform w sub_dt h wd 0 (emitters w)) as [w1|];
    [|discriminate]. simpl in H. injection H as <-.
  exists w1. repeat split.
Qed.

Lemma sub_steps_loop_ledger (n : nat) :
  forall (w : World) (sub_dt h wd : R) (rmb : bool) (w' : World),
    sub_steps_loop uniform integrate n w sub_dt h wd rmb = Some w' ->
    0 <= sub_dt ->
    Forall (fun e => 0 <= emission_rate e) (emitters w) ->
    Forall (fun a => 0 <= a) (particles_to_emit w) ->
    well_formed w ->
    emitters w' = emitters w /\
    well_formed w' /\
    Forall (fun a => 0 <= a) (particles_to_emit w') /\
    IZR (total_particles_emitted w') + sum_R (particles_to_emit w')
    = IZR (total_particles_emitted w) + sum_R (particles_to_emit w)
      + INR n * (sub_dt * sum_R (map emission_rate (emitters w))) /\
    ((0 < n)%nat ->
     (total_particles_emitted w' < max_particles w')%Z ->
     Forall (fun a => a < 1) (particles_to_emit w')).
Proof.
  induction n as [|n IH]; intros w sub_dt h wd rmb w' H Hdt Hr Ha Hwf.
  - simpl in H. injection H as <-. split; [reflexivity|]. split; [exact Hwf|].
    split; [exact Ha|]. split; [simpl; lra|]. intros Hn. lia.
  - cbn [sub_steps_loop] in H.
    destruct (sub_step uniform integrate w sub_dt h wd rmb) as [w1|] eqn:E;
      [|discriminate]. simpl in H.
    destruct (sub_step_inversion _ _ _ _ _ _ E) as (we & Hall & A1 & T1 & M1 & E1).
    destruct (emit_all_accumulators _ _ _ _ _ _ _ Hall Hdt Hr Ha)
      as (Heo & Ha1 & _ & Hcap).
    pose proof (emit_all_ledger _ _ _ _ _ _ _ Hall) as L1.
    assert (Hem1 : emitters w1 = emitters w)
      by (rewrite E1; apply (eo_emitters _ _ Heo)).
    assert (Hwf1 : well_formed w1).
    { unfold well_formed in *. rewrite A1, Hem1, (eo_slots _ _ Heo). exact Hwf. }
    rewrite <- A1 in Ha1.
    destruct (IH w1 sub_dt h wd rmb w' H Hdt) as (Hem & Hwf' & Ha' & L & Hlt);
      [rewrite Hem1; exact Hr|exact Ha1|exact Hwf1|].
    split; [congruence|]. split; [exact Hwf'|]. split; [exact Ha'|]. split.
    + rewrite L, A1, T1, L1, Hem1, S_INR. ring.
    + intros _ Hbelow. destruct n as [|n].
      * simpl in H. injection H as <-.
        apply Forall_lookup. intros j a Hja. rewrite A1 in Hja.
        apply (Hcap ltac:(rewrite <- T1, <- M1; exact Hbelow) j a); [|exact Hja].
        apply lookup_lt_Some in Hja. unfold well_formed in Hwf.
        rewrite (eo_slots _ _ Heo), Hwf in Hja. lia.
      * apply Hlt; [lia|exact Hbelow].
Qed.

Lemma update_particle_system_ledger (w : World) (dt : R) (mask : Mask)
  (rmb : bool) :
  well_formed w ->
  0 <= dt ->
  Forall (fun e => 0 <= emission_rate e) (emitters w) ->
  Forall (fun a => 0 <= a) (particles_to_emit w) ->
  exists w',
    update_particle_system uniform integrate find_polygons w dt mask rmb
    = Some w' /\
    length (particles_to_emit w') = length (emitters w) /\
    Forall (fun a => 0 <= a) (particles_to_emit w') /\
    IZR (total_particles_emitted w') + sum_R (particles_to_emit w')
    = IZR (total_particles_emitted w) + sum_R (particles_to_emit w)
      + dt * sum_R (map emission_rate (emitters w)) /\
    ((total_particles_emitted w' < max_particles w')%Z ->
     Forall (fun a => 0 <= a < 1) (particles_to_emit w')).
Proof.
  intros Hwf Hdt Hr Ha. unfold update_particle_system.
  set (wa := if rmb then update_mask_boundary find_polygons w mask else w).
  set (wb := set_vortices wa _ (rng wa)).
  assert (Eacc : particles_to_emit wb = particles_to_emit w)
    by (unfold wb, wa; destruct rmb; reflexivity).
  assert (Eem : emitters wb = emitters w)
    by (unfold wb, wa; destruct rmb; reflexivity).
  assert (Etot : total_particles_emitted wb = total_particles_emitted w)
    by (unfold wb, wa; destruct rmb; reflexivity).
  assert (Hwfb : well_formed wb)
    by (unfold well_formed; rewrite Eacc, Eem; exact Hwf).
  destruct (sub_steps_loop_kept uniform integrate 5 wb (dt / INR 5)
              (INR (mask_height mask)) (INR (mask_width mask)) rmb Hwfb)
    as (w' & Hrun & _).
  rewrite Hrun. simpl. exists (cull w'). split; [reflexivity|].
  assert (Hsub : 0 <= dt / 5) by lra.
  change (INR 5) with (1 + 1 + 1 + 1 + 1) in Hrun.
  replace (1 + 1 + 1 + 1 + 1) with 5 in Hrun by lra.
  destruct (sub_steps_loop_ledger 5 wb (dt / 5) _ _ rmb w' Hrun Hsub)
    as (Hem' & Hwf' & Ha' & L & Hlt);
    [rewrite Eem; exact Hr|rewrite Eacc; exact Ha|exact Hwfb|].
  cbn [cull set_particles particles_to_emit total_particles_emitted max_particles].
  split; [unfold well_formed in Hwf'; rewrite Hwf', Hem', Eem; reflexivity|].
  split; [exact Ha'|]. split.
  - rewrite L, Eacc, Etot, Eem.
    replace (INR 5) with 5 by (simpl; lra). field.
  - intros Hbelow. specialize (Hlt ltac:(lia) Hbelow).
    apply Forall_lookup. intros j a Hja. split.
    + rewrite Forall_lookup in Ha'. eapply Ha', Hja.
    + rewrite Forall_lookup in Hlt. eapply Hlt, Hja.
Qed.

(** X8.  The ledger of a frame.  From a world with one accumulator per
    emitter, with rates, accumulators and frame step not negative, a frame
    of [update_particle_system] ends, the accumulators stay non-negative,
    and the particles created plus the sum of the accumulators grow by
    exactly dt times the sum of the emission rates: nothing of the rate is
    lost between sub-steps, at the cap or below it. *)
Theorem frame_emission_ledger (w : World) (dt : R) (mask : Mask) (rmb : bool) :
  well_formed w ->
  0 <= dt ->
  Forall (fun e => 0 <= emission_rate e) (emitters w) ->
  Forall (fun a => 0 <= a) (particles_to_emit w) ->
  exists w',
    update_particle_system uniform integrate find_polygons w dt mask rmb
    = Some w' /\
    Forall (fun a => 0 <= a) (particles_to_emit w') /\
    IZR (total_particles_emitted w') + sum_R (particles_to_emit w')
    = IZR (total_particles_emitted w) + sum_R (particles_to_emit w)
      + dt * sum_R (map emission_rate (emitters w)).
Proof.
  intros Hwf Hdt Hr Ha.
  destruct (update_particle_system_ledger w dt mask rmb Hwf Hdt Hr Ha)
    as (w' & Hrun & _ & Ha' & L & _).
  exists w'. split; [exact Hrun|]. split; [exact Ha'|exact L].
Qed.

(** X9.  A frame that ends below the cap emits at the configured rate: with
    the same premises, when the counter is below the maximum after the
    frame, every accumulator is in [0, 1), and the number of particles
    created in the frame is at most the sum of the accumulators before it
    plus dt times the sum of the rates, and less than that by at most one
    per emitter. *)
Theorem uncapped_frame_emits_at_rate (w : World) (dt : R) (mask : Mask)
  (rmb : bool) :
  well_formed w ->
  0 <= dt ->
  Forall (fun e => 0 <= emission_rate e) (emitters w) ->
  Forall (fun a => 0 <= a) (particles_to_emit w) ->
  exists w',
    update_particle_system uniform integrate find_polygons w dt mask rmb
    = Some w' /\
    ((total_particles_emitted w' < max_particles w')%Z ->
     let due :=
       sum_R (particles_to_emit w) + dt * sum_R (map emission_rate (emitters w)) in
     let created := (total_particles_emitted w' - total_particles_emitted w)%Z in
     Forall (fun a => 0 <= a < 1) (particles_to_emit w') /\
     IZR created <= due /\
     due - INR (length (emitters w)) <= IZR created).
Proof.
  intros Hwf Hdt Hr Ha.
  destruct (update_particle_system_ledger w dt mask rmb Hwf Hdt Hr Ha)
    as (w' & Hrun & Hlen & _ & L & Hunit).
  exists w'. split; [exact Hrun|]. intros Hbelow due created.
  specialize (Hunit Hbelow).
  destruct (sum_R_bounds _ Hunit) as (S0 & S1 & _).
  assert (E : IZR created = due - sum_R (particles_to_emit w')).
  { unfold created, due. rewrite minus_IZR. lra. }
  rewrite Hlen in S1.
  split; [exact Hunit|]. split; lra.
Qed.

End Ledger.

Lemma witness_frame_emission_ledger :
  well_formed idle_world /\
  0 <= 1 / 30 /\
  Forall (fun e => 0 <= emission_rate e) (emitters idle_world) /\
  Forall (fun a => 0 <= a) (particles_to_emit idle_world) /\
  exists w',
    update_particle_system lower_bound_uniform resting_integrate no_polygons
      idle_world (1 / 30) blank_frame false = Some w' /\
    IZR (total_particles_emitted w') + sum_R (particles_to_emit w')
    = 0 + 0 + 1 / 30 * 300.
Proof.
  assert (A : well_formed idle_world) by reflexivity.
  assert (B : 0 <= 1 / 30) by lra.
  assert (C : Forall (fun e => 0 <= emission_rate e) (emitters idle_world))
    by (constructor; [simpl; lra|constructor]).
  assert (D : Forall (fun a => 0 <= a) (particles_to_emit idle_world))
    by (constructor; [lra|constructor]).
  split; [exact A|]. split; [exact B|]. split; [exact C|]. split; [exact D|].
  destruct (frame_emission_ledger lower_bound_uniform resting_integrate
              no_polygons idle_world (1 / 30) blank_frame false A B C D)
    as (w' & Hrun & _ & L).
  exists w'. split; [exact Hrun|]. rewrite L. simpl. lra.
Defined.

Lemma sum_R_nonneg (l : list R) : Forall (fun a => 0 <= a) l -> 0 <= sum_R l.
Proof.
  induction 1 as [|a l Ha _ IH]; simpl; [lra|]. fold (sum_R l). lra.
Qed.

Lemma roomy_frame_below_cap (w' : World) :
  update_particle_system lower_bound_uniform resting_integrate no_polygons
    roomy_world (1 / 30) blank_frame false = Some w' ->
  (total_particles_emitted w' < max_particles w')%Z.
Proof.
  intros Hrun.
  assert (A : well_formed roomy_world) by reflexivity.
  assert (B : 0 <= 1 / 30) by lra.
  assert (C : Forall (fun e => 0 <= emission_rate e) (emitters roomy_world))
    by (constructor; [simpl; lra|constructor]).
  assert (D : Forall (fun a => 0 <= a) (particles_to_emit roomy_world))
    by (constructor; [lra|constructor]).
  destruct (update_particle_system_ledger lower_bound_uniform
              resting_integrate no_polygons roomy_world (1 / 30) blank_frame
              false A B C D) as (w1 & Hrun1 & _ & Hpos & L & _).
  destruct (update_particle_system_kept lower_bound_uniform resting_integrate
              no_polygons roomy_world (1 / 30) blank_frame false A)
    as (w2 & Hrun2 & Hk & _).
  rewrite Hrun in Hrun1, Hrun2.
  injection Hrun1 as <-. injection Hrun2 as <-.
  rewrite (ck_max _ _ Hk). simpl in L |- *.
  pose proof (sum_R_nonneg _ Hpos) as Hs.
  assert (Hle : IZR (total_particles_emitted w') <= IZR 10) by lra.
  apply le_IZR in Hle. lia.
Qed.

Lemma witness_uncapped_frame :
  well_formed roomy_world /\
  0 <= 1 / 30 /\
  Forall (fun e => 0 <= emission_rate e) (emitters roomy_world) /\
  Forall (fun a => 0 <= a) (particles_to_emit roomy_world) /\
  exists w',
    update_particle_system lower_bound_uniform resting_integrate no_polygons
      roomy_world (1 / 30) blank_frame false = Some w' /\
    (total_particles_emitted w' < max_particles w')%Z /\
    Forall (fun a => 0 <= a < 1) (particles_to_emit w').
Proof.
  assert (A : well_formed roomy_world) by reflexivity.
  assert (B : 0 <= 1 / 30) by lra.
  assert (C : Forall (fun e => 0 <= emission_rate e) (emitters roomy_world))
    by (constructor; [simpl; lra|constructor]).
  assert (D : Forall (fun a => 0 <= a) (particles_to_emit roomy_world))
    by (constructor; [lra|constructor]).
  split; [exact A|]. split; [exact B|]. split; [exact C|]. split; [exact D|].
  destruct (uncapped_frame_emits_at_rate lower_bound_uniform resting_integrate
              no_polygons roomy_world (1 / 30) blank_frame false A B C D)
    as (w' & Hrun & Hbelow).
  pose proof (roomy_frame_below_cap w' Hrun) as Hlt.
  exists w'. split; [exact Hrun|]. split; [exact Hlt|].
  exact (proj1 (Hbelow Hlt)).
Defined.

(** * The mask utilities *)

(** ** Easing *)

Lemma easing_ease_in_out (t : R) :
  apply_easing_at t "ease_in_out" = t * t * (3 - 2 * t).
Proof. unfold apply_easing_at. repeat case_decide; congruence. Qed.

Lemma easing_bounce (t : R) :
  apply_easing_at t "bounce"
  = 1 - (1 - t) * (1 - t) * (sin (t * PI * 5) * sin (t * PI * 5)).
Proof. unfold apply_easing_at. repeat case_decide; congruence. Qed.

Lemma easing_elastic (t : R) :
  apply_easing_at t "elastic" = t * t * sin (10 * PI * t).
Proof. unfold apply_easing_at. repeat case_decide; congruence. Qed.

Lemma easing_fallback (t : R) (ty : string) :
  ty <> "ease_in_out" -> ty <> "bounce" -> ty <> "elastic" ->
  apply_easing_at t ty = t.
Proof. intros A B C. unfold apply_easing_at. repeat case_decide; congruence. Qed.

Lemma sin_whole_turns (k : Z) : sin (IZR k * PI) = 0.
Proof. apply sin_eq_0_1. exists k. reflexivity. Qed.

Lemma sin_square_le_1 (x : R) : 0 <= sin x * sin x <= 1.
Proof.
  destruct (SIN_bound x) as [A B]. split; [nra|]. nra.
Qed.

(** X10.  [apply_easing] with ["ease_in_out"] is a ramp on the unit interval:
    it maps 0 to 0 and 1 to 1, it never decreases between two values
    [s <= t] of the interval, so that it stays between 0 and 1, and it is
    symmetric about the middle: the value at [1 - t] is one minus the value
    at [t]. *)
Theorem ease_in_out_is_a_symmetric_ramp (s t : R) :
  0 <= s -> s <= t -> t <= 1 ->
  apply_easing_at 0 "ease_in_out" = 0 /\
  apply_easing_at 1 "ease_in_out" = 1 /\
  0 <= apply_easing_at s "ease_in_out" /\
  apply_easing_at s "ease_in_out" <= apply_easing_at t "ease_in_out" /\
  apply_easing_at t "ease_in_out" <= 1 /\
  apply_easing_at (1 - t) "ease_in_out" = 1 - apply_easing_at t "ease_in_out".
Proof.
  intros Hs Hst Ht. rewrite !easing_ease_in_out.
  split; [ring|]. split; [ring|].
  split; [assert (0 <= s * s) by nra; nra|].
  split.
  - assert (E : t * t * (3 - 2 * t) - s * s * (3 - 2 * s)
                = (t - s) * (3 * (t + s) - 2 * (t * t + t * s + s * s)))
      by ring.
    assert (0 <= 3 * (t + s) - 2 * (t * t + t * s + s * s)).
    { assert (t * t <= t) by nra. assert (s * s <= s) by nra.
      assert (t * s <= s) by nra. assert (t * s <= t) by nra. lra. }
    assert (0 <= (t - s) * (3 * (t + s) - 2 * (t * t + t * s + s * s)))
      by (apply Rmult_le_pos; lra).
    lra.
  - split; [|ring].
    assert (E : 1 - t * t * (3 - 2 * t) = (1 - t) * (1 - t) * (1 + 2 * t))
      by ring.
    assert (0 <= (1 - t) * (1 - t) * (1 + 2 * t)).
    { apply Rmult_le_pos; [nra|lra]. }
    lra.
Qed.

Lemma witness_ease_in_out :
  0 <= 1 / 4 /\ 1 / 4 <= 1 / 2 /\ 1 / 2 <= 1 /\
  apply_easing_at (1 / 4) "ease_in_out" <= apply_easing_at (1 / 2) "ease_in_out".
Proof.
  assert (A : 0 <= 1 / 4) by lra.
  assert (B : 1 / 4 <= 1 / 2) by lra.
  assert (C : 1 / 2 <= 1) by lra.
  split; [exact A|]. split; [exact B|]. split; [exact C|].
  exact (proj1 (proj2 (proj2 (proj2
           (ease_in_out_is_a_symmetric_ramp (1 / 4) (1 / 2) A B C))))).
Defined.

(** X11.  The two oscillating easings do not go from 0 to 1.  ["bounce"] is 1
    at both ends of the unit interval, so the first frame of an effect has
    full strength, and it stays between 0 and 1 on the interval;
    ["elastic"] is 0 at both ends, so the last value of the ramp is 0 again,
    and its absolute value is at most [t * t]. *)
Theorem bounce_and_elastic_end_points (t : R) :
  0 <= t -> t <= 1 ->
  apply_easing_at 0 "bounce" = 1 /\
  apply_easing_at 1 "bounce" = 1 /\
  0 <= apply_easing_at t "bounce" <= 1 /\
  apply_easing_at 0 "elastic" = 0 /\
  apply_easing_at 1 "elastic" = 0 /\
  Rabs (apply_easing_at t "elastic") <= t * t.
Proof.
  intros H0 H1. rewrite !easing_bounce, !easing_elastic.
  split; [|split; [|split; [|split; [|split]]]].
  - replace (0 * PI * 5) with (IZR 0 * PI) by (simpl; ring).
    rewrite sin_whole_turns. ring.
  - ring.
  - pose proof (sin_square_le_1 (t * PI * 5)) as [A B].
    assert (0 <= (1 - t) * (1 - t) <= 1) by nra.
    assert (0 <= (1 - t) * (1 - t) * (sin (t * PI * 5) * sin (t * PI * 5)) <= 1).
    { split; [apply Rmult_le_pos; lra|].
      replace 1 with (1 * 1) at 3 by ring.
      apply Rmult_le_compat; lra. }
    lra.
  - ring.
  - replace (10 * PI * 1) with (IZR 10 * PI) by (simpl; ring).
    rewrite sin_whole_turns. ring.
  - rewrite Rabs_mult. rewrite (Rabs_pos_eq (t * t)) by nra.
    pose proof (SIN_bound (10 * PI * t)) as [A B].
    assert (Rabs (sin (10 * PI * t)) <= 1) by (apply Rabs_le; lra).
    assert (0 <= t * t) by nra.
    replace (t * t) with (t * t * 1) at 2 by ring.
    apply Rmult_le_compat_l; lra.
Qed.

Lemma witness_bounce_and_elastic :
  0 <= 1 / 2 /\ 1 / 2 <= 1 /\ 0 <= apply_easing_at (1 / 2) "bounce" <= 1.
Proof.
  assert (A : 0 <= 1 / 2) by lra.
  assert (B : 1 / 2 <= 1) by lra.
  split; [exact A|]. split; [exact B|].
  exact (proj1 (proj2 (proj2 (bounce_and_elastic_end_points (1 / 2) A B)))).
Defined.

(** ** Arrays and their elements *)

Lemma fold_left_Rmin_spec (l : list R) (x : R) :
  In (fold_left Rmin l x) (x :: l) /\
  forall y, In y (x :: l) -> fold_left Rmin l x <= y.
Proof.
  revert x. induction l as [|a l IH]; intros x; simpl.
  - split; [left; reflexivity|]. intros y [->|[]]. lra.
  - destruct (IH (Rmin x a)) as [A B]. split.
    + simpl in A. destruct A as [A|A]; [|right; right; exact A].
      unfold Rmin in A at 1. destruct (Rle_dec x a); [left|right; left]; exact A.
    + intros y Hy.
      assert (Hm : fold_left Rmin l (Rmin x a) <= Rmin x a)
        by (apply B; left; reflexivity).
      pose proof (Rmin_l x a). pose proof (Rmin_r x a).
      destruct Hy as [->|[->|Hy]]; [lra|lra|].
      apply B. right. exact Hy.
Qed.

Lemma fold_left_Rmax_spec (l : list R) (x : R) :
  In (fold_left Rmax l x) (x :: l) /\
  forall y, In y (x :: l) -> y <= fold_left Rmax l x.
Proof.
  revert x. induction l as [|a l IH]; intros x; simpl.
  - split; [left; reflexivity|]. intros y [->|[]]. lra.
  - destruct (IH (Rmax x a)) as [A B]. split.
    + simpl in A. destruct A as [A|A]; [|right; right; exact A].
      unfold Rmax in A at 1. destruct (Rle_dec x a); [right; left|left]; exact A.
    + intros y Hy.
      assert (Hm : Rmax x a <= fold_left Rmax l (Rmax x a))
        by (apply B; left; reflexivity).
      pose proof (Rmax_l x a). pose proof (Rmax_r x a).
      destruct Hy as [->|[->|Hy]]; [lra|lra|].
      apply B. right. exact Hy.
Qed.

Lemma min_of_spec (l : list R) (lo : R) :
  min_of l = Some lo -> In lo l /\ forall y, In y l -> lo <= y.
Proof.
  destruct l as [|x l]; [discriminate|]. intros [= <-].
  apply fold_left_Rmin_spec.
Qed.

Lemma max_of_spec (l : list R) (hi : R) :
  max_of l = Some hi -> In hi l /\ forall y, In y l -> y <= hi.
Proof.
  destruct l as [|x l]; [discriminate|]. intros [= <-].
  apply fold_left_Rmax_spec.
Qed.

Lemma pixel_mask_map (f : R -> R) (m : Mask) (i j : nat) :
  pixel (mask_map f m) i j = f <$> pixel m i j.
Proof.
  unfold pixel, mask_map.
  pose proof (list_lookup_fmap (map f) m i) as E. unfold Mask in *.
  change (map (map f) m !! i) with (fmap (M:=list) (map f) m !! i).
  rewrite E. destruct (m !! i) as [row|]; simpl; [|reflexivity].
  exact (list_lookup_fmap f row j).
Qed.

Lemma pixel_in_concat (m : Mask) (v : R) :
  In v (concat m) <-> exists i j, pixel m i j = Some v.
Proof.
  unfold pixel. split.
  - intros H. apply in_concat in H. destruct H as (row & Hrow & Hv).
    apply list_elem_of_In in Hrow, Hv.
    apply list_elem_of_lookup in Hrow as [i Hi].
    apply list_elem_of_lookup in Hv as [j Hj].
    exists i, j. unfold Mask in *. rewrite Hi. exact Hj.
  - intros (i & j & H). unfold Mask in *.
    destruct (m !! i) as [row|] eqn:Hi; [|discriminate]. simpl in H.
    apply in_concat. exists row. split; apply list_elem_of_In.
    + eapply list_elem_of_lookup_2. exact Hi.
    + eapply list_elem_of_lookup_2. exact H.
Qed.

Lemma shape_of_mask_map (f : R -> R) (m : Mask) :
  shape_of (mask_map f m) = shape_of m.
Proof.
  unfold shape_of, mask_map. rewrite map_map. apply map_ext.
  intros row. apply length_map.
Qed.

Lemma normalize_array_inversion (arr : Mask) (r : Normalized) :
  normalize_array arr = Some r ->
  exists lo hi,
    min_of (concat arr) = Some lo /\ max_of (concat arr) = Some hi /\
    lo <= hi /\
    ((hi = lo /\ r = NotANumber) \/
     (lo < hi /\ r = Numbers (mask_map (fun v => (v - lo) / (hi - lo)) arr))).
Proof.
  unfold normalize_array. intros H.
  destruct (min_of (concat arr)) as [lo|] eqn:Hlo; [|discriminate].
  destruct (max_of (concat arr)) as [hi|] eqn:Hhi; [|discriminate].
  simpl in H. exists lo, hi. split; [reflexivity|]. split; [reflexivity|].
  destruct (min_of_spec _ _ Hlo) as [Ilo _].
  destruct (max_of_spec _ _ Hhi) as [_ Mhi].
  assert (Hle : lo <= hi) by (apply Mhi; exact Ilo).
  split; [exact Hle|].
  destruct (Req_dec_T (hi - lo) 0) as [E|E]; injection H as <-.
  - left. split; [lra|reflexivity].
  - right. split; [lra|reflexivity].
Qed.

(** X12.  [normalize_array] raises exactly on an array without elements and
    gives NaN exactly when all the elements are equal.  Otherwise the result
    has the shape of the array, its elements lie between 0 and 1, the value
    0 and the value 1 both occur, and the order of any two elements is
    kept. *)
Theorem normalize_array_scales_to_unit_range (arr : Mask) :
  (normalize_array arr = None <-> concat arr = []) /\
  (normalize_array arr = Some NotANumber <->
   concat arr <> [] /\
   forall x y, In x (concat arr) -> In y (concat arr) -> x = y) /\
  (forall m, normalize_array arr = Some (Numbers m) ->
     shape_of m = shape_of arr /\
     in_unit_range m /\
     In 0 (concat m) /\ In 1 (concat m) /\
     forall i j k l x y x' y',
       pixel arr i j = Some x -> pixel arr k l = Some y ->
       pixel m i j = Some x' -> pixel m k l = Some y' ->
       (x <= y <-> x' <= y')).
Proof.
  split; [|split].
  - unfold normalize_array. split.
    + destruct (concat arr) as [|x l]; [reflexivity|]. simpl.
      destruct (Req_dec_T _ _); discriminate.
    + intros ->. reflexivity.
  - split.
    + intros H. apply normalize_array_inversion in H.
      destruct H as (lo & hi & Hlo & Hhi & _ & [[E _]|[_ E]]); [|discriminate].
      subst hi. split.
      * intros E. rewrite E in Hlo. discriminate.
      * intros x y Hx Hy.
        destruct (min_of_spec _ _ Hlo) as [_ A].
        destruct (max_of_spec _ _ Hhi) as [_ B].
        pose proof (A x Hx). pose proof (A y Hy).
        pose proof (B x Hx). pose proof (B y Hy). lra.
    + intros [Hne Hall]. unfold normalize_array.
      destruct (concat arr) as [|x l] eqn:Hc; [congruence|].
      destruct (min_of (x :: l)) as [lo|] eqn:Hlo; [|discriminate].
      destruct (max_of (x :: l)) as [hi|] eqn:Hhi; [|discriminate].
      simpl.
      destruct (min_of_spec _ _ Hlo) as [A _].
      destruct (max_of_spec _ _ Hhi) as [B _].
      destruct (Req_dec_T (hi - lo) 0) as [E|E]; [reflexivity|].
      exfalso. apply E. rewrite (Hall hi lo B A). ring.
  - intros m H. apply normalize_array_inversion in H.
    destruct H as (lo & hi & Hlo & Hhi & _ & [[_ E]|[Hlt E]]); [discriminate|].
    injection E as ->.
    destruct (min_of_spec _ _ Hlo) as [Ilo Mlo].
    destruct (max_of_spec _ _ Hhi) as [Ihi Mhi].
    assert (Hpos : 0 < / (hi - lo)) by (apply Rinv_0_lt_compat; lra).
    split; [apply shape_of_mask_map|].
    split; [|split; [|split]].
    + unfold in_unit_range, mask_map.
      apply Forall_forall. intros row' Hrow'.
      apply list_elem_of_In, in_map_iff in Hrow'.
      destruct Hrow' as (row & <- & Hrow).
      apply Forall_forall. intros v' Hv'.
      apply list_elem_of_In, in_map_iff in Hv'.
      destruct Hv' as (v & <- & Hv).
      assert (Hin : In v (concat arr))
        by (apply in_concat; exists row; split; assumption).
      pose proof (Mlo v Hin). pose proof (Mhi v Hin).
      unfold unit_range, Rdiv. split.
      * apply Rmult_le_pos; lra.
      * apply Rmult_le_reg_r with (hi - lo); [lra|].
        rewrite Rmult_assoc, Rinv_l by lra. lra.
    + apply pixel_in_concat in Ilo. destruct Ilo as (i & j & Hp).
      apply pixel_in_concat. exists i, j. rewrite pixel_mask_map, Hp.
      simpl. f_equal. unfold Rdiv. ring.
    + apply pixel_in_concat in Ihi. destruct Ihi as (i & j & Hp).
      apply pixel_in_concat. exists i, j. rewrite pixel_mask_map, Hp.
      simpl. f_equal. unfold Rdiv. apply Rinv_r. lra.
    + intros i j k l x y x' y' Hx Hy Hx' Hy'.
      rewrite pixel_mask_map, Hx in Hx'. rewrite pixel_mask_map, Hy in Hy'.
      simpl in Hx', Hy'. injection Hx' as <-. injection Hy' as <-.
      unfold Rdiv. split; intros Hle.
      * apply Rmult_le_compat_r; lra.
      * apply Rmult_le_reg_r in Hle; lra.
Qed.

(** ** Mask arithmetic *)

Lemma zip_with_Forall {A B C : Type} (P : A -> Prop) (Q : B -> Prop)
  (T : C -> Prop) (f : A -> B -> C) (a : list A) (b : list B) :
  (forall x y, P x -> Q y -> T (f x y)) ->
  Forall P a -> Forall Q b -> Forall T (zip_with f a b).
Proof.
  intros Hf Ha. revert b. induction Ha as [|x a Hx Ha IH]; intros b Hb.
  - constructor.
  - destruct Hb as [|y b Hy Hb]; simpl; constructor; auto.
Qed.

Lemma mask_zip_with_Forall (P Q T : R -> Prop) (f : R -> R -> R) (a b : Mask) :
  (forall x y, P x -> Q y -> T (f x y)) ->
  Forall (Forall P) a -> Forall (Forall Q) b ->
  Forall (Forall T) (mask_zip_with f a b).
Proof.
  intros Hf. unfold mask_zip_with.
  apply (zip_with_Forall (Forall P) (Forall Q) (Forall T)).
  intros ra rb. apply zip_with_Forall. exact Hf.
Qed.

Lemma Forall_Forall_True (m : Mask) : Forall (Forall (fun _ : R => True)) m.
Proof.
  apply Forall_forall. intros row _. apply Forall_forall. intros v _. exact I.
Qed.

Lemma zip_with_fst {A B : Type} (f : A -> B -> A) (a : list A) (b : list B) :
  length a = length b ->
  Forall (fun x => forall y, f x y = x) a -> zip_with f a b = a.
Proof.
  intros Hlen Ha. revert b Hlen.
  induction Ha as [|x a Hx Ha IH]; intros b Hlen; [reflexivity|].
  destruct b as [|y b]; [discriminate|]. simpl.
  rewrite Hx, IH; [reflexivity|]. simpl in Hlen. lia.
Qed.

Lemma mask_zip_with_fst (f : R -> R -> R) (a b : Mask) :
  shape_of a = shape_of b ->
  Forall (Forall (fun x => forall y, f x y = x)) a -> mask_zip_with f a b = a.
Proof.
  intros Hs Ha. revert b Hs.
  induction Ha as [|ra a Hra Ha IH]; intros b Hs; [reflexivity|].
  destruct b as [|rb b]; [discriminate|]. simpl in Hs.
  injection Hs as Hl Hs. unfold mask_zip_with. simpl.
  rewrite (zip_with_fst f ra rb Hl Hra). f_equal. apply IH. exact Hs.
Qed.

Lemma shape_of_mask_zip_with (f : R -> R -> R) (a b : Mask) :
  shape_of a = shape_of b -> shape_of (mask_zip_with f a b) = shape_of a.
Proof.
  revert b. induction a as [|ra a IH]; intros b Hs; [reflexivity|].
  destruct b as [|rb b]; [discriminate|]. simpl in Hs.
  injection Hs as Hl Hs. unfold mask_zip_with, shape_of. simpl.
  rewrite length_zip_with. f_equal; [lia|]. apply IH. exact Hs.
Qed.

Lemma clip_unit_range (v : R) : unit_range (clip v 0 1).
Proof.
  unfold unit_range, clip, Rmin, Rmax.
  destruct (Rle_dec v 0); destruct (Rle_dec 1 _); lra.
Qed.

Lemma clip_of_unit_range (v : R) : unit_range v -> clip v 0 1 = v.
Proof.
  unfold unit_range, clip, Rmin, Rmax. intros H.
  destruct (Rle_dec v 0); destruct (Rle_dec 1 _); lra.
Qed.

Lemma blend_unit_range (a b s : R) :
  unit_range a -> unit_range b -> unit_range s ->
  unit_range (b * s + a * (1 - s)).
Proof. unfold unit_range. intros Ha Hb Hs. split; nra. Qed.

Lemma combine_masks_known (a b : Mask) (method : string) (s : R) :
  In method combination_methods ->
  combine_masks a b method s
  = Some (if decide (method = "add") then add_masks a b s
          else if decide (method = "subtract") then subtract_masks a b s
          else if decide (method = "multiply") then multiply_masks a b s
          else if decide (method = "minimum") then minimum_masks a b s
          else maximum_masks a b s).
Proof.
  unfold combination_methods, combine_masks. simpl.
  intros [<-|[<-|[<-|[<-|[<-|[]]]]]]; reflexivity.
Qed.

(** X13.  On two masks of one shape [combine_masks] raises exactly for a
    method that is not one of the five it names.  The sum and the
    difference are clipped, so their elements lie between 0 and 1 whatever
    the elements of the inputs; for two masks with elements between 0 and 1
    and a strength between 0 and 1 the result of every method lies between
    0 and 1.  The result has the shape of the inputs. *)
Theorem combine_masks_stays_in_unit_range (mask_a mask_b : Mask)
  (method : string) (strength : R) :
  shape_of mask_a = shape_of mask_b ->
  (combine_masks mask_a mask_b method strength = None <->
   ~ In method combination_methods) /\
  in_unit_range (add_masks mask_a mask_b strength) /\
  in_unit_range (subtract_masks mask_a mask_b strength) /\
  (forall result,
     combine_masks mask_a mask_b method strength = Some result ->
     shape_of result = shape_of mask_a) /\
  (in_unit_range mask_a -> in_unit_range mask_b -> unit_range strength ->
   forall result,
     combine_masks mask_a mask_b method strength = Some result ->
     in_unit_range result).
Proof.
  intros Hsh.
  assert (Hadd : forall s, in_unit_range (add_masks mask_a mask_b s)).
  { intros s. apply (mask_zip_with_Forall (fun _ => True) (fun _ => True)).
    - intros x y _ _. apply clip_unit_range.
    - apply Forall_Forall_True.
    - apply Forall_Forall_True. }
  assert (Hsub : forall s, in_unit_range (subtract_masks mask_a mask_b s)).
  { intros s. apply (mask_zip_with_Forall (fun _ => True) (fun _ => True)).
    - intros x y _ _. apply clip_unit_range.
    - apply Forall_Forall_True.
    - apply Forall_Forall_True. }
  split; [|split; [apply Hadd|split; [apply Hsub|split]]].
  - unfold combine_masks, combination_methods. simpl.
    repeat case_decide; split; intros Hc; try discriminate.
    all: try (exfalso; apply Hc; subst method; auto 6; fail).
    + intros [E|[E|[E|[E|[E|[]]]]]]; congruence.
    + reflexivity.
  - intros result Hc. unfold combine_masks in Hc.
    repeat case_decide; try discriminate; injection Hc as <-;
      apply shape_of_mask_zip_with; exact Hsh.
  - intros Ha Hb Hs result Hc. unfold combine_masks in Hc.
    repeat case_decide; try discriminate; injection Hc as <-.
    + apply Hadd.
    + apply Hsub.
    + apply (mask_zip_with_Forall unit_range unit_range); [|exact Ha|exact Hb].
      intros x y Hx Hy. unfold unit_range in *.
      assert (0 <= y * strength + (1 - strength) <= 1) by (split; nra).
      split; [apply Rmult_le_pos; lra|].
      replace 1 with (1 * 1) by ring. apply Rmult_le_compat; lra.
    + apply (mask_zip_with_Forall unit_range unit_range); [|exact Ha|exact Hb].
      intros x y Hx Hy.
      pose proof (blend_unit_range x y strength Hx Hy Hs) as Hbl.
      unfold unit_range in *. unfold Rmin. destruct (Rle_dec _ _); lra.
    + apply (mask_zip_with_Forall unit_range unit_range); [|exact Ha|exact Hb].
      intros x y Hx Hy.
      pose proof (blend_unit_range x y strength Hx Hy Hs) as Hbl.
      unfold unit_range in *. unfold Rmax. destruct (Rle_dec _ _); lra.
Qed.

(** X14.  The two ends of the strength.  With strength 0 every method of
    [combine_masks] returns the first mask, for two masks of one shape and
    a first mask with elements between 0 and 1; with strength 1 the
    product, the minimum and the maximum are the element-wise product,
    minimum and maximum of the two masks. *)
Theorem combine_masks_strength_extremes (mask_a mask_b : Mask)
  (method : string) :
  (shape_of mask_a = shape_of mask_b -> in_unit_range mask_a ->
   In method combination_methods ->
   combine_masks mask_a mask_b method 0 = Some mask_a) /\
  multiply_masks mask_a mask_b 1 = mask_zip_with Rmult mask_a mask_b /\
  minimum_masks mask_a mask_b 1 = mask_zip_with Rmin mask_a mask_b /\
  maximum_masks mask_a mask_b 1 = mask_zip_with Rmax mask_a mask_b.
Proof.
  assert (Hext : forall f g : R -> R -> R, (forall x y, f x y = g x y) ->
                 mask_zip_with f mask_a mask_b = mask_zip_with g mask_a mask_b).
  { intros f g Hfg. unfold mask_zip_with.
    apply zip_with_ext; [|reflexivity|reflexivity].
    intros ra rb. apply zip_with_ext; auto. }
  split; [|split; [|split]].
  - intros Hs Ha Hm. rewrite (combine_masks_known _ _ _ _ Hm). f_equal.
    repeat case_decide.
    + apply mask_zip_with_fst; [exact Hs|].
      eapply Forall_impl; [exact Ha|]. intros row Hrow.
      eapply Forall_impl; [exact Hrow|]. intros x Hx y. simpl.
      replace (x + y * 0) with x by ring. apply clip_of_unit_range, Hx.
    + apply mask_zip_with_fst; [exact Hs|].
      eapply Forall_impl; [exact Ha|]. intros row Hrow.
      eapply Forall_impl; [exact Hrow|]. intros x Hx y. simpl.
      replace (x - y * 0) with x by ring. apply clip_of_unit_range, Hx.
    + apply mask_zip_with_fst; [exact Hs|].
      eapply Forall_impl; [exact Ha|]. intros row Hrow.
      eapply Forall_impl; [exact Hrow|]. intros x Hx y. simpl. ring.
    + apply mask_zip_with_fst; [exact Hs|].
      eapply Forall_impl; [exact Ha|]. intros row Hrow.
      eapply Forall_impl; [exact Hrow|]. intros x Hx y. simpl.
      replace (y * 0 + x * (1 - 0)) with x by ring.
      unfold Rmin. destruct (Rle_dec x x); reflexivity.
    + apply mask_zip_with_fst; [exact Hs|].
      eapply Forall_impl; [exact Ha|]. intros row Hrow.
      eapply Forall_impl; [exact Hrow|]. intros x Hx y. simpl.
      replace (y * 0 + x * (1 - 0)) with x by ring.
      unfold Rmax. destruct (Rle_dec x x); reflexivity.
  - apply Hext. intros x y. ring.
  - apply Hext. intros x y. f_equal. ring.
  - apply Hext. intros x y. f_equal. ring.
Qed.

Lemma witness_combine_masks :
  shape_of step_mask = shape_of step_mask /\
  in_unit_range step_mask /\ unit_range (1 / 2) /\
  combine_masks step_mask step_mask "multiply" (1 / 2)
  = Some (multiply_masks step_mask step_mask (1 / 2)) /\
  in_unit_range (multiply_masks step_mask step_mask (1 / 2)).
Proof.
  assert (S : shape_of step_mask = shape_of step_mask) by reflexivity.
  assert (B : in_unit_range step_mask).
  { constructor; [|constructor].
    constructor; [split; simpl; lra|]. constructor; [split; simpl; lra|].
    constructor. }
  assert (C : unit_range (1 / 2)) by (split; lra).
  assert (D : combine_masks step_mask step_mask "multiply" (1 / 2)
              = Some (multiply_masks step_mask step_mask (1 / 2)))
    by reflexivity.
  split; [exact S|]. split; [exact B|]. split; [exact C|]. split; [exact D|].
  exact (proj2 (proj2 (proj2 (proj2 (combine_masks_stays_in_unit_range
           step_mask step_mask "multiply" (1 / 2) S)))) B B C _ D).
Defined.

(** ** Morphology *)

Section MorphologyProperties.

Variable erode dilate morph_open morph_close : Mask -> Z -> Mask.

Local Abbreviation morph_loop' := (morph_loop erode dilate morph_open morph_close).
Local Abbreviation morph_mask' := (morph_mask erode dilate morph_open morph_close).

Lemma morph_loop_calls (n : nat) (mask : Mask) (ty : string) (k : Z) (c : nat) :
  snd (morph_loop' n mask ty k c) = (n + c)%nat.
Proof.
  revert mask c. induction n as [|n IH]; intros mask c; simpl; [reflexivity|].
  rewrite IH. lia.
Qed.

Lemma morph_loop_counter (n : nat) (mask : Mask) (ty : string) (k : Z)
  (c : nat) :
  fst (morph_loop' n mask ty k c) = fst (morph_loop' n mask ty k 0).
Proof.
  revert mask c. induction n as [|n IH]; intros mask c; simpl; [reflexivity|].
  rewrite IH. symmetry. apply IH.
Qed.

Lemma morph_loop_add (a b : nat) (mask : Mask) (ty : string) (k : Z) (c : nat) :
  fst (morph_loop' (a + b) mask ty k c)
  = fst (morph_loop' b (fst (morph_loop' a mask ty k c)) ty k 0).
Proof.
  revert mask c. induction a as [|a IH]; intros mask c; simpl.
  - apply morph_loop_counter.
  - apply IH.
Qed.

Lemma morph_loop_unknown (n : nat) (mask : Mask) (ty : string) (k : Z)
  (c : nat) :
  ~ In ty morph_types -> fst (morph_loop' n mask ty k c) = mask.
Proof.
  intros Hty. revert c. induction n as [|n IH]; intros c; simpl; [reflexivity|].
  assert (E : morph_once erode dilate morph_open morph_close mask ty k = mask).
  { unfold morph_once. unfold morph_types in Hty. simpl in Hty.
    repeat case_decide; try reflexivity; exfalso; apply Hty; subst ty; auto. }
  rewrite E. apply IH.
Qed.

(** X15.  [morph_mask] raises exactly for a negative kernel size.
    Otherwise the progress callback is called once per iteration; the mask
    is returned as it came when the number of iterations is not positive or
    the operation is none of the four the function names; and running
    [a + b] iterations is running [b] iterations on the result of [a]
    iterations. *)
Theorem morph_mask_iterates (mask : Mask) (morph_type : string)
  (kernel_size a b : Z) :
  (morph_mask' mask morph_type kernel_size a = None <-> (kernel_size < 0)%Z) /\
  ((0 <= kernel_size)%Z ->
   exists m1,
     morph_mask' mask morph_type kernel_size a = Some (m1, Z.to_nat a) /\
     ((a <= 0)%Z \/ ~ In morph_type morph_types -> m1 = mask) /\
     ((0 <= a)%Z -> (0 <= b)%Z ->
      exists m2,
        morph_mask' m1 morph_type kernel_size b = Some (m2, Z.to_nat b) /\
        morph_mask' mask morph_type kernel_size (a + b)
        = Some (m2, Z.to_nat (a + b)))).
Proof.
  unfold morph_mask. split.
  - destruct (kernel_size <? 0)%Z eqn:E; split; intros H; try discriminate;
      try reflexivity; lia.
  - intros Hk. replace (kernel_size <? 0)%Z with false by lia.
    exists (fst (morph_loop' (Z.to_nat a) mask morph_type kernel_size 0)).
    split; [|split].
    + f_equal. rewrite (surjective_pairing (morph_loop' _ _ _ _ _)).
      rewrite morph_loop_calls. f_equal. lia.
    + intros [Ha|Hty].
      * replace (Z.to_nat a) with 0%nat by lia. reflexivity.
      * apply morph_loop_unknown. exact Hty.
    + intros Ha Hb.
      exists (fst (morph_loop' (Z.to_nat b)
                (fst (morph_loop' (Z.to_nat a) mask morph_type kernel_size 0))
                morph_type kernel_size 0)).
      split.
      * f_equal. rewrite (surjective_pairing (morph_loop' _ _ _ _ _)).
        rewrite morph_loop_calls. f_equal. lia.
      * f_equal. rewrite (surjective_pairing (morph_loop' _ _ _ _ _)).
        rewrite morph_loop_calls. f_equal; [|lia].
        replace (Z.to_nat (a + b)) with (Z.to_nat a + Z.to_nat b)%nat by lia.
        apply morph_loop_add.
Qed.

End MorphologyProperties.

Lemma witness_morph_mask :
  (0 <= 3)%Z /\
  exists m1, morph_mask keep_mask keep_mask keep_mask keep_mask
               half_mask "erode" 3 2 = Some (m1, 2%nat).
Proof.
  assert (A : (0 <= 3)%Z) by lia.
  split; [exact A|].
  destruct (proj2 (morph_mask_iterates keep_mask keep_mask keep_mask keep_mask
                     half_mask "erode" 3 2 0) A) as (m1 & H & _).
  exists m1. exact H.
Defined.

(** * [MaskBase.apply_mask_operation] *)

Lemma pixel_mask_zip_with (f : R -> R -> R) (a b : Mask) (i j : nat) :
  pixel (mask_zip_with f a b) i j
  = (x ← pixel a i j; y ← pixel b i j; Some (f x y)).
Proof.
  unfold pixel, mask_zip_with, Mask in *. rewrite lookup_zip_with.
  destruct (a !! i) as [ra|]; simpl; [|reflexivity].
  destruct (b !! i) as [rb|]; simpl.
  - rewrite lookup_zip_with. reflexivity.
  - destruct (ra !! j); reflexivity.
Qed.

Lemma pixel_same_shape (a b : Mask) (i j : nat) (x : R) :
  shape_of a = shape_of b -> pixel a i j = Some x ->
  exists y, pixel b i j = Some y.
Proof.
  unfold pixel, shape_of, Mask in *. intros Hs Hp.
  destruct (a !! i) as [ra|] eqn:Ha; [|discriminate]. simpl in Hp.
  assert (Hl : map length a !! i = Some (length ra))
    by (change (map length a) with (length <$> a);
        rewrite list_lookup_fmap, Ha; reflexivity).
  rewrite Hs in Hl.
  change (map length b) with (length <$> b) in Hl.
  rewrite list_lookup_fmap in Hl.
  destruct (b !! i) as [rb|] eqn:Hb; [|discriminate]. simpl in Hl |- *.
  injection Hl as Hl.
  apply lookup_lt_Some in Hp. rewrite <- Hl in Hp.
  apply lookup_lt_is_Some_2 in Hp. destruct Hp as [y Hy]. exists y. exact Hy.
Qed.

Lemma mask_map_unit_range (f : R -> R) (m : Mask) :
  (forall v, unit_range (f v)) -> in_unit_range (mask_map f m).
Proof.
  intros Hf. apply Forall_forall. intros row Hrow.
  apply list_elem_of_In, in_map_iff in Hrow. destruct Hrow as (r0 & <- & _).
  apply Forall_forall. intros v Hv.
  apply list_elem_of_In, in_map_iff in Hv. destruct Hv as (v0 & <- & _).
  apply Hf.
Qed.

Lemma mask_map_fixed (f : R -> R) (m : Mask) :
  Forall (Forall (fun v => f v = v)) m -> mask_map f m = m.
Proof.
  intros H. unfold mask_map.
  induction H as [|row m Hrow Hm IH]; [reflexivity|]. simpl. f_equal; [|exact IH].
  induction Hrow as [|v row Hv Hrow IHr]; [reflexivity|]. simpl.
  f_equal; assumption.
Qed.

Lemma np_stack_some (frames result : list Mask) :
  np_stack frames = Some result -> result = frames /\ frames <> [].
Proof.
  unfold np_stack. destruct frames as [|first rest]; [discriminate|].
  match goal with |- context [forallb ?f rest] => destruct (forallb f rest) end;
    [|discriminate].
  intros [= <-]. split; [reflexivity|discriminate].
Qed.

Lemma np_stack_map (g : Mask -> Mask) (frames : list Mask) :
  (forall m, shape_of (g m) = shape_of m) ->
  np_stack frames = Some frames -> np_stack (map g frames) = Some (map g frames).
Proof.
  intros Hg. unfold np_stack. destruct frames as [|first rest]; [discriminate|].
  simpl.
  match goal with
  | |- context [forallb ?f rest] => destruct (forallb f rest) eqn:E
  end; [|discriminate].
  intros _.
  match goal with
  | |- context [forallb ?f (map g rest)] =>
      replace (forallb f (map g rest)) with true; [reflexivity|]
  end.
  symmetry. rewrite forallb_forall in *. intros m' Hm'.
  apply in_map_iff in Hm'. destruct Hm' as (m & <- & Hm).
  specialize (E m Hm). rewrite !Hg. exact E.
Qed.

Section MaskOperationProperties.

Variable apply_blur : Mask -> R -> Mask.
Variable create_distance_transform : Mask -> Mask.

Local Abbreviation frame' :=
  (mask_operation_frame apply_blur create_distance_transform).
Local Abbreviation frames' :=
  (mask_operation_frames apply_blur create_distance_transform).
Local Abbreviation operation' :=
  (apply_mask_operation apply_blur create_distance_transform).
Local Abbreviation before' := (before_subtraction apply_blur).

Lemma mask_operation_frame_unfold (pre post : list (Mask -> Mask))
  (invert : bool) (sub blur : R) (p o : Mask) :
  frame' pre post invert sub blur p o
  = (p2 ← (if Rgtb sub 0 then
             normalized ← normalize_array (create_distance_transform o);
             subtract_by_distance (before' pre invert blur p) normalized
               (shape_of (create_distance_transform o)) (1 - sub)
           else Some (before' pre invert blur p));
     Some (mask_map (fun v => clip v 0 1) (run_processors post p2))).
Proof. reflexivity. Qed.

Lemma mask_operation_frame_unit (pre post : list (Mask -> Mask))
  (invert : bool) (sub blur : R) (p o r : Mask) :
  frame' pre post invert sub blur p o = Some r -> in_unit_range r.
Proof.
  rewrite mask_operation_frame_unfold. intros H.
  destruct (if Rgtb sub 0 then _ else _) as [p2|]; [|discriminate].
  simpl in H. injection H as <-. apply mask_map_unit_range, clip_unit_range.
Qed.

Lemma mask_operation_frames_lookup (pre post : list (Mask -> Mask))
  (invert : bool) (sub blur : R) (ps os rs : list Mask) :
  frames' pre post invert sub blur ps os = Some rs ->
  length rs = Nat.min (length ps) (length os) /\
  forall f r, rs !! f = Some r ->
    exists p o, ps !! f = Some p /\ os !! f = Some o /\
                frame' pre post invert sub blur p o = Some r.
Proof.
  revert os rs. induction ps as [|p ps IH]; intros os rs H.
  - simpl in H. injection H as <-. split; [reflexivity|].
    intros f r Hf. destruct f; discriminate.
  - destruct os as [|o os].
    + simpl in H. injection H as <-. split; [reflexivity|].
      intros f r Hf. destruct f; discriminate.
    + simpl in H.
      destruct (frame' pre post invert sub blur p o) as [r0|] eqn:Hr;
        [|discriminate].
      destruct (frames' pre post invert sub blur ps os) as [rs0|] eqn:Hrs;
        [|discriminate].
      simpl in H. injection H as <-.
      destruct (IH os rs0 Hrs) as [Hl Hk]. split; [simpl; lia|].
      intros [|f] r Hf.
      * simpl in Hf. injection Hf as <-. exists p, o. auto.
      * simpl in Hf. apply Hk in Hf. exact Hf.
Qed.

(** X16.  Whatever the processors, the blur and the options do, when
    [apply_mask_operation] returns, the result has one frame per pair of a
    processed and an original mask (the shorter of the two sequences
    decides), at least one, and every element of every frame lies between 0
    and 1. *)
Theorem apply_mask_operation_output (pre post : list (Mask -> Mask))
  (processed_masks original_masks result : list Mask) (strength : R)
  (invert : bool) (subtract_original grow_with_blur : R) :
  operation' pre post processed_masks original_masks strength invert
             subtract_original grow_with_blur = Some result ->
  result <> [] /\
  length result = Nat.min (length processed_masks) (length original_masks) /\
  Forall in_unit_range result.
Proof.
  unfold apply_mask_operation. intros H.
  destruct (frames' pre post invert subtract_original grow_with_blur
              processed_masks original_masks) as [rs|] eqn:Hrs;
    [|discriminate].
  simpl in H. apply np_stack_some in H. destruct H as [-> Hne].
  destruct (mask_operation_frames_lookup _ _ _ _ _ _ _ _ Hrs) as [Hl Hk].
  split; [exact Hne|]. split; [exact Hl|].
  apply Forall_lookup. intros f r Hf.
  destruct (Hk f r Hf) as (p & o & _ & _ & Hr).
  eapply mask_operation_frame_unit. exact Hr.
Qed.

Lemma plain_frame (invert : bool) (sub blur : R) (p o : Mask) :
  sub <= 0 -> blur <= 0 ->
  frame' [] [] invert sub blur p o
  = Some (mask_map (fun v => clip v 0 1)
            (if invert then mask_map (fun v => 1 - v) p else p)).
Proof.
  intros Hs Hb. rewrite mask_operation_frame_unfold.
  unfold before_subtraction.
  apply Rgtb_false_iff in Hs, Hb. rewrite Hs, Hb. reflexivity.
Qed.

Lemma plain_frames (invert : bool) (sub blur : R) (ps os : list Mask) :
  sub <= 0 -> blur <= 0 -> (length ps <= length os)%nat ->
  frames' [] [] invert sub blur ps os
  = Some (map (fun p => mask_map (fun v => clip v 0 1)
                 (if invert then mask_map (fun v => 1 - v) p else p)) ps).
Proof.
  intros Hs Hb. revert os. induction ps as [|p ps IH]; intros os Hl.
  - reflexivity.
  - destruct os as [|o os]; [simpl in Hl; lia|]. simpl.
    rewrite (plain_frame invert sub blur p o Hs Hb). simpl.
    rewrite IH by (simpl in Hl; lia). reflexivity.
Qed.

Lemma inverted_unit_range (m : Mask) :
  in_unit_range m -> in_unit_range (mask_map (fun v => 1 - v) m).
Proof.
  intros H. unfold in_unit_range, mask_map.
  apply Forall_fmap. eapply Forall_impl; [exact H|]. intros row Hrow.
  apply Forall_fmap. eapply Forall_impl; [exact Hrow|]. intros v Hv.
  unfold unit_range in *. simpl. lra.
Qed.

Lemma clip_mask_fixed (m : Mask) :
  in_unit_range m -> mask_map (fun v => clip v 0 1) m = m.
Proof.
  intros H. apply mask_map_fixed.
  eapply Forall_impl; [exact H|]. intros row Hrow.
  eapply Forall_impl; [exact Hrow|]. intros v Hv.
  apply clip_of_unit_range. exact Hv.
Qed.

Lemma inverted_twice (m : Mask) :
  mask_map (fun v => 1 - v) (mask_map (fun v => 1 - v) m) = m.
Proof.
  unfold mask_map. rewrite map_map. rewrite <- (map_id m) at 2.
  apply map_ext. intros row. rewrite map_map. rewrite <- (map_id row) at 2.
  apply map_ext. intros v. ring.
Qed.

Lemma plain_operation (invert : bool) (strength : R) (ps os : list Mask) :
  Forall in_unit_range ps -> np_stack ps = Some ps ->
  (length ps <= length os)%nat ->
  operation' [] [] ps os strength invert 0 0
  = Some (if invert then map (mask_map (fun v => 1 - v)) ps else ps).
Proof.
  intros Hu Hst Hl. unfold apply_mask_operation.
  rewrite plain_frames by (lra || exact Hl). simpl.
  destruct invert.
  - replace (map _ ps) with (map (mask_map (fun v => 1 - v)) ps).
    + apply np_stack_map; [|exact Hst]. intros m. apply shape_of_mask_map.
    + apply map_ext_Forall. eapply Forall_impl; [exact Hu|].
      intros m Hm. simpl. symmetry. apply clip_mask_fixed.
      apply inverted_unit_range. exact Hm.
  - replace (map _ ps) with ps; [exact Hst|].
    rewrite <- (map_id ps) at 1.
    apply map_ext_Forall. eapply Forall_impl; [exact Hu|].
    intros m Hm. simpl. symmetry. apply clip_mask_fixed. exact Hm.
Qed.

(** X17.  Without processors, blur and subtraction, on frames of one shape
    with elements between 0 and 1 and at least as many original masks:
    [apply_mask_operation] returns the frames as they are, and with [invert]
    it returns the inverted frames, on which a second inverting call gives
    the first frames back.  The [strength] argument plays no part. *)
Theorem apply_mask_operation_plain_and_inverted
  (processed_masks original_masks : list Mask) (strength strength' : R) :
  Forall in_unit_range processed_masks ->
  np_stack processed_masks = Some processed_masks ->
  (length processed_masks <= length original_masks)%nat ->
  operation' [] [] processed_masks original_masks strength false 0 0
  = Some processed_masks /\
  exists inverted,
    operation' [] [] processed_masks original_masks strength true 0 0
    = Some inverted /\
    operation' [] [] inverted original_masks strength' true 0 0
    = Some processed_masks.
Proof.
  intros Hu Hst Hl. split; [apply (plain_operation false); assumption|].
  exists (map (mask_map (fun v => 1 - v)) processed_masks).
  split; [apply (plain_operation true); assumption|].
  rewrite (plain_operation true).
  - f_equal. rewrite map_map. rewrite <- (map_id processed_masks) at 2.
    apply map_ext. intros m. apply inverted_twice.
  - apply Forall_fmap. eapply Forall_impl; [exact Hu|].
    intros m Hm. apply inverted_unit_range. exact Hm.
  - apply np_stack_map; [|exact Hst]. intros m. apply shape_of_mask_map.
  - rewrite length_map. exact Hl.
Qed.

End MaskOperationProperties.

Lemma witness_apply_mask_operation_plain :
  Forall in_unit_range [half_mask] /\
  np_stack [half_mask] = Some [half_mask] /\
  (length [half_mask] <= length [half_mask])%nat /\
  apply_mask_operation no_blur distance_as_given [] [] [half_mask] [half_mask]
    1 false 0 0 = Some [half_mask].
Proof.
  assert (A : Forall in_unit_range [half_mask]).
  { repeat constructor; simpl; lra. }
  assert (B : np_stack [half_mask] = Some [half_mask]) by reflexivity.
  assert (C : (length [half_mask] <= length [half_mask])%nat) by (simpl; lia).
  split; [exact A|]. split; [exact B|]. split; [exact C|].
  exact (proj1 (apply_mask_operation_plain_and_inverted no_blur
                  distance_as_given [half_mask] [half_mask] 1 1 A B C)).
Defined.

Lemma plain_example_runs :
  apply_mask_operation no_blur distance_as_given [] [] [half_mask] [half_mask]
    1 true 0 0 = Some [mask_map (fun v => 1 - v) half_mask].
Proof.
  apply (plain_operation no_blur distance_as_given true).
  - repeat constructor; simpl; lra.
  - reflexivity.
  - simpl. lia.
Qed.

Lemma witness_apply_mask_operation_output :
  apply_mask_operation no_blur distance_as_given [] [] [half_mask] [half_mask]
    1 true 0 0 = Some [mask_map (fun v => 1 - v) half_mask] /\
  Forall in_unit_range [mask_map (fun v => 1 - v) half_mask].
Proof.
  split; [exact plain_example_runs|].
  exact (proj2 (proj2 (apply_mask_operation_output no_blur distance_as_given
                         [] [] [half_mask] [half_mask] _ 1 true 0 0
                         plain_example_runs))).
Defined.

(** ** The subtraction of the original mask *)

Lemma normalize_array_none (arr : Mask) :
  normalize_array arr = None <-> concat arr = [].
Proof.
  unfold normalize_array. split.
  - destruct (concat arr) as [|x l]; [reflexivity|]. simpl.
    destruct (Req_dec_T _ _); discriminate.
  - intros ->. reflexivity.
Qed.

Lemma normalize_array_flat (arr : Mask) :
  concat arr <> [] ->
  (forall x y, In x (concat arr) -> In y (concat arr) -> x = y) ->
  normalize_array arr = Some NotANumber.
Proof.
  intros Hne Hall.
  destruct (normalize_array arr) as [r|] eqn:H;
    [|apply normalize_array_none in H; contradiction].
  apply normalize_array_inversion in H.
  destruct H as (lo & hi & Hlo & Hhi & _ & [[_ ->]|[Hlt _]]); [reflexivity|].
  destruct (min_of_spec _ _ Hlo) as [A _].
  destruct (max_of_spec _ _ Hhi) as [B _].
  rewrite (Hall hi lo B A) in Hlt. lra.
Qed.

Section SubtractOriginal.

Variable apply_blur : Mask -> R -> Mask.
Variable create_distance_transform : Mask -> Mask.

Local Abbreviation frame' :=
  (mask_operation_frame apply_blur create_distance_transform).
Local Abbreviation before' := (before_subtraction apply_blur).

Lemma subtracting_frame (pre post : list (Mask -> Mask)) (invert : bool)
  (sub blur : R) (p o : Mask) :
  0 < sub ->
  frame' pre post invert sub blur p o
  = (normalized ← normalize_array (create_distance_transform o);
     p2 ← subtract_by_distance (before' pre invert blur p) normalized
            (shape_of (create_distance_transform o)) (1 - sub);
     Some (mask_map (fun v => clip v 0 1) (run_processors post p2))).
Proof.
  intros Hs. rewrite mask_operation_frame_unfold.
  apply Rgtb_true_iff in Hs. rewrite Hs.
  destruct (normalize_array (create_distance_transform o)); reflexivity.
Qed.

Lemma subtracting_frame_none (pre post : list (Mask -> Mask)) (invert : bool)
  (sub blur : R) (p o : Mask) :
  0 < sub ->
  (frame' pre post invert sub blur p o = None <->
   concat (create_distance_transform o) = [] \/
   shape_of (create_distance_transform o)
   <> shape_of (before' pre invert blur p)).
Proof.
  intros Hs. rewrite (subtracting_frame _ _ _ _ _ _ _ Hs).
  destruct (normalize_array (create_distance_transform o)) as [n|] eqn:Hn.
  - simpl. unfold subtract_by_distance.
    assert (Hne : concat (create_distance_transform o) <> []).
    { intros E. apply normalize_array_none in E. congruence. }
    case_decide as Hsh.
    + destruct n; simpl; split; intros Hc; try discriminate;
        destruct Hc; contradiction.
    + simpl. split; auto.
  - simpl. apply normalize_array_none in Hn. split; auto.
Qed.

(** X18.  With a positive [subtract_original] a frame of
    [apply_mask_operation] raises exactly when the distance transform of
    the original mask has no element, or has another shape than the
    processed mask has after the pre-processors, the inversion and the
    blur. *)
Theorem subtract_original_raises (pre post : list (Mask -> Mask))
  (invert : bool) (subtract_original grow_with_blur : R)
  (processed_mask original_mask : Mask) :
  0 < subtract_original ->
  (frame' pre post invert subtract_original grow_with_blur
          processed_mask original_mask = None <->
   concat (create_distance_transform original_mask) = [] \/
   shape_of (create_distance_transform original_mask)
   <> shape_of (before' pre invert grow_with_blur processed_mask)).
Proof.
  intros Hs. rewrite (subtracting_frame _ _ _ _ _ _ _ Hs).
  destruct (normalize_array (create_distance_transform original_mask))
    as [n|] eqn:Hn; simpl.
  - assert (Hne : concat (create_distance_transform original_mask) <> []).
    { intros E. apply normalize_array_none in E. congruence. }
    unfold subtract_by_distance. case_decide as Hsh.
    + destruct n; simpl; split; intros Hc; try discriminate;
        destruct Hc; contradiction.
    + simpl. split; auto.
  - apply normalize_array_none in Hn. split; auto.
Qed.

(** X19.  With a positive [subtract_original], no post-processor and a
    distance transform whose smallest value [lo] is below its largest [hi]:
    an element of the frame is set to 0 when its distance is above
    [lo + (1 - subtract_original) * (hi - lo)], and is otherwise the clipped
    element of the processed mask; the elements at the largest distance are
    always set to 0. *)
Theorem subtract_original_erases_the_core (pre : list (Mask -> Mask))
  (invert : bool) (subtract_original grow_with_blur : R)
  (processed_mask original_mask result : Mask) (lo hi : R) :
  0 < subtract_original ->
  frame' pre [] invert subtract_original grow_with_blur
         processed_mask original_mask = Some result ->
  min_of (concat (create_distance_transform original_mask)) = Some lo ->
  max_of (concat (create_distance_transform original_mask)) = Some hi ->
  lo < hi ->
  forall i j d,
    pixel (create_distance_transform original_mask) i j = Some d ->
    (lo + (1 - subtract_original) * (hi - lo) < d -> pixel result i j = Some 0) /\
    (d <= lo + (1 - subtract_original) * (hi - lo) ->
     pixel result i j
     = (fun v => clip v 0 1)
         <$> pixel (before' pre invert grow_with_blur processed_mask) i j) /\
    (d = hi -> pixel result i j = Some 0).
Proof.
  intros Hs Hr Hlo Hhi Hlt i j d Hd.
  assert (Hsome : frame' pre [] invert subtract_original grow_with_blur
                         processed_mask original_mask <> None) by congruence.
  rewrite (subtracting_frame_none _ _ _ _ _ _ _ Hs) in Hsome.
  assert (Hsh : shape_of (create_distance_transform original_mask)
                = shape_of (before' pre invert grow_with_blur processed_mask)).
  { destruct (decide (shape_of (create_distance_transform original_mask)
                      = shape_of (before' pre invert grow_with_blur
                                    processed_mask))) as [E|E];
      [exact E|]. exfalso. apply Hsome. right. exact E. }
  rewrite (subtracting_frame _ _ _ _ _ _ _ Hs) in Hr.
  unfold normalize_array in Hr. rewrite Hlo, Hhi in Hr. simpl in Hr.
  destruct (Req_dec_T (hi - lo) 0) as [E|_]; [lra|]. simpl in Hr.
  unfold subtract_by_distance in Hr.
  rewrite decide_True in Hr by exact Hsh. simpl in Hr. injection Hr as <-.
  destruct (pixel_same_shape _ _ i j d Hsh Hd) as [x Hx].
  assert (Hpix : pixel (mask_map (fun v => clip v 0 1)
                   (mask_zip_with
                      (fun v dv => if Rgtb dv (1 - subtract_original)
                                   then 0 else v)
                      (before' pre invert grow_with_blur processed_mask)
                      (mask_map (fun v => (v - lo) / (hi - lo))
                         (create_distance_transform original_mask)))) i j
                 = Some (clip (if Rgtb ((d - lo) / (hi - lo))
                                       (1 - subtract_original)
                               then 0 else x) 0 1)).
  { rewrite pixel_mask_map, pixel_mask_zip_with, Hx, pixel_mask_map, Hd.
    reflexivity. }
  assert (Hinv : 0 < / (hi - lo)) by (apply Rinv_0_lt_compat; lra).
  assert (Hcut : (d - lo) / (hi - lo) * (hi - lo) = d - lo).
  { unfold Rdiv. rewrite Rmult_assoc, Rinv_l by lra. ring. }
  assert (Habove : lo + (1 - subtract_original) * (hi - lo) < d ->
                   pixel (mask_map (fun v => clip v 0 1)
                     (mask_zip_with
                        (fun v dv => if Rgtb dv (1 - subtract_original)
                                     then 0 else v)
                        (before' pre invert grow_with_blur processed_mask)
                        (mask_map (fun v => (v - lo) / (hi - lo))
                           (create_distance_transform original_mask)))) i j
                   = Some 0).
  { intros Hab. rewrite Hpix.
    assert (Hg : Rgtb ((d - lo) / (hi - lo)) (1 - subtract_original) = true).
    { apply Rgtb_true_iff.
      apply Rmult_lt_reg_r with (hi - lo); [lra|]. rewrite Hcut. lra. }
    rewrite Hg. f_equal. apply clip_of_unit_range. split; lra. }
  split; [exact Habove|]. split.
  - intros Hbe. rewrite Hpix, Hx. simpl.
    assert (Hg : Rgtb ((d - lo) / (hi - lo)) (1 - subtract_original) = false).
    { apply Rgtb_false_iff.
      apply Rmult_le_reg_r with (hi - lo); [lra|]. rewrite Hcut. lra. }
    rewrite Hg. reflexivity.
  - intros ->. apply Habove. nra.
Qed.

(** X20.  When all the distances of the original mask are equal (their
    normalization is 0/0) and the distance transform has the shape of the
    processed mask, a positive [subtract_original] erases nothing: the
    frame is the one computed with [subtract_original] 0. *)
Theorem flat_distance_subtracts_nothing (pre post : list (Mask -> Mask))
  (invert : bool) (subtract_original grow_with_blur : R)
  (processed_mask original_mask : Mask) :
  0 < subtract_original ->
  concat (create_distance_transform original_mask) <> [] ->
  (forall x y, In x (concat (create_distance_transform original_mask)) ->
               In y (concat (create_distance_transform original_mask)) ->
               x = y) ->
  shape_of (create_distance_transform original_mask)
  = shape_of (before' pre invert grow_with_blur processed_mask) ->
  frame' pre post invert subtract_original grow_with_blur
         processed_mask original_mask
  = frame' pre post invert 0 grow_with_blur processed_mask original_mask.
Proof.
  intros Hs Hne Hall Hsh.
  rewrite (subtracting_frame _ _ _ _ _ _ _ Hs).
  rewrite (normalize_array_flat _ Hne Hall). simpl.
  unfold subtract_by_distance. rewrite decide_True by exact Hsh.
  rewrite mask_operation_frame_unfold.
  assert (E : Rgtb 0 0 = false) by (apply Rgtb_false_iff; lra).
  rewrite E. reflexivity.
Qed.

End SubtractOriginal.

Lemma witness_subtract_original_raises :
  0 < 1 / 2 /\
  mask_operation_frame no_blur distance_as_given [] [] false (1 / 2) 0
    half_mask [] = None.
Proof.
  assert (A : 0 < 1 / 2) by lra.
  split; [exact A|].
  apply (proj2 (subtract_original_raises no_blur distance_as_given [] [] false
                  (1 / 2) 0 half_mask [] A)).
  left. reflexivity.
Defined.

Lemma before_subtraction_plain (p : Mask) :
  before_subtraction no_blur [] false 0 p = p.
Proof.
  unfold before_subtraction.
  assert (E : Rgtb 0 0 = false) by (apply Rgtb_false_iff; lra).
  rewrite E. reflexivity.
Qed.

Lemma subtract_example_runs :
  exists r,
    mask_operation_frame no_blur distance_as_given [] [] false (1 / 2) 0
      step_mask step_mask = Some r.
Proof.
  destruct (mask_operation_frame no_blur distance_as_given [] [] false
              (1 / 2) 0 step_mask step_mask) as [r|] eqn:E;
    [exists r; reflexivity|].
  apply subtracting_frame_none in E; [|lra].
  rewrite before_subtraction_plain in E.
  destruct E as [E|E]; [discriminate|]. exfalso. apply E. reflexivity.
Qed.

Lemma witness_subtract_original_erases :
  0 < 1 / 2 /\
  min_of (concat (distance_as_given step_mask)) = Some (Rmin 0 1) /\
  max_of (concat (distance_as_given step_mask)) = Some (Rmax 0 1) /\
  Rmin 0 1 < Rmax 0 1 /\
  pixel (distance_as_given step_mask) 0 1 = Some 1 /\
  exists r,
    mask_operation_frame no_blur distance_as_given [] [] false (1 / 2) 0
      step_mask step_mask = Some r /\
    pixel r 0 1 = Some 0.
Proof.
  assert (A : 0 < 1 / 2) by lra.
  assert (B : min_of (concat (distance_as_given step_mask)) = Some (Rmin 0 1))
    by reflexivity.
  assert (C : max_of (concat (distance_as_given step_mask)) = Some (Rmax 0 1))
    by reflexivity.
  assert (D : Rmin 0 1 < Rmax 0 1).
  { unfold Rmin, Rmax. destruct (Rle_dec 0 1); lra. }
  assert (E : pixel (distance_as_given step_mask) 0 1 = Some 1) by reflexivity.
  assert (F : 1 = Rmax 0 1).
  { unfold Rmax. destruct (Rle_dec 0 1); lra. }
  split; [exact A|]. split; [exact B|]. split; [exact C|]. split; [exact D|].
  split; [exact E|].
  destruct subtract_example_runs as [r Hr]. exists r. split; [exact Hr|].
  exact (proj2 (proj2 (subtract_original_erases_the_core no_blur
                         distance_as_given [] false (1 / 2) 0 step_mask
                         step_mask r (Rmin 0 1) (Rmax 0 1) A Hr B C D
                         0%nat 1%nat 1 E)) F).
Defined.

Lemma witness_flat_distance :
  0 < 1 / 2 /\
  concat (distance_as_given half_mask) <> [] /\
  mask_operation_frame no_blur distance_as_given [] [] false (1 / 2) 0
    half_mask half_mask
  = mask_operation_frame no_blur distance_as_given [] [] false 0 0
      half_mask half_mask.
Proof.
  assert (A : 0 < 1 / 2) by lra.
  assert (B : concat (distance_as_given half_mask) <> []) by discriminate.
  assert (C : forall x y, In x (concat (distance_as_given half_mask)) ->
                          In y (concat (distance_as_given half_mask)) -> x = y).
  { intros x y [<-|[]] [<-|[]]. reflexivity. }
  assert (D : shape_of (distance_as_given half_mask)
              = shape_of (before_subtraction no_blur [] false 0 half_mask)).
  { rewrite before_subtraction_plain. reflexivity. }
  split; [exact A|]. split; [exact B|].
  exact (flat_distance_subtracts_nothing no_blur distance_as_given [] [] false
           (1 / 2) 0 half_mask half_mask A B C D).
Defined.

(** * [TemporalMaskBase.apply_temporal_mask_operation] *)

Lemma linspace01_spec (num : Z) (l : list R) :
  linspace01 num = Some l ->
  (0 <= num)%Z /\ length l = Z.to_nat num /\
  forall i, (i < Z.to_nat num)%nat ->
    l !! i = Some (if (num =? 1)%Z then 0 else INR i * (1 / (IZR num - 1))).
Proof.
  unfold linspace01. destruct (num <? 0)%Z eqn:E; [discriminate|].
  intros [= <-]. split; [lia|]. split.
  - rewrite length_map, length_seq. reflexivity.
  - intros i Hi.
    change (map ?f ?l) with (f <$> l). rewrite list_lookup_fmap.
    rewrite lookup_seq_lt by exact Hi. reflexivity.
Qed.

Lemma linspace01_none (num : Z) : linspace01 num = None <-> (num < 0)%Z.
Proof.
  unfold linspace01. destruct (num <? 0)%Z eqn:E; split; intros H;
    try discriminate; try reflexivity; lia.
Qed.

Lemma half_negative (d : Z) : (d / 2 < 0)%Z <-> (d < 0)%Z.
Proof.
  pose proof (Z.div_mod d 2). pose proof (Z.mod_pos_bound d 2). lia.
Qed.

Lemma temporal_easing_values_none (d : Z) (easing : string) (pal : bool) :
  temporal_easing_values d easing pal = None <-> (d < 0)%Z.
Proof.
  unfold temporal_easing_values. case_decide as Hn.
  - unfold ones. destruct (d <? 0)%Z eqn:E; split; intros H;
      try discriminate; try reflexivity; lia.
  - destruct pal.
    + destruct (linspace01 (d / 2)) as [t|] eqn:Ht; simpl.
      * split; [discriminate|]. intros Hd.
        apply (proj2 (half_negative d)) in Hd.
        apply (proj2 (linspace01_none (d / 2))) in Hd. congruence.
      * apply (proj1 (linspace01_none (d / 2))) in Ht.
        apply (proj1 (half_negative d)) in Ht.
        split; [intros _; exact Ht|reflexivity].
    + destruct (linspace01 d) as [t|] eqn:Ht; simpl.
      * split; [discriminate|]. intros Hd.
        apply (proj2 (linspace01_none d)) in Hd. congruence.
      * apply (proj1 (linspace01_none d)) in Ht.
        split; [intros _; exact Ht|reflexivity].
Qed.

Section TemporalProperties.

Variable process_single_mask : Mask -> R -> Z -> Mask.

Local Abbreviation frames' := (temporal_frames process_single_mask).
Local Abbreviation temporal' :=
  (apply_temporal_mask_operation process_single_mask).

Lemma temporal_frames_spec (e : list R) (s : R) (start_frame end_frame : Z)
  (masks : list Mask) :
  forall (i0 : Z) (rs : list Mask),
  frames' e s start_frame end_frame i0 masks = Some rs ->
  length rs = length masks /\
  forall k mask, masks !! k = Some mask ->
    ((i0 + Z.of_nat k < start_frame)%Z \/ (end_frame <= i0 + Z.of_nat k)%Z ->
     rs !! k = Some mask) /\
    (in_effect start_frame end_frame (i0 + Z.of_nat k) ->
     exists progress,
       e !! Z.to_nat ((i0 + Z.of_nat k - start_frame)
                      mod Z.of_nat (length e)) = Some progress /\
       rs !! k
       = Some (process_single_mask mask (s * progress) (i0 + Z.of_nat k)%Z)).
Proof.
  induction masks as [|m masks IH]; intros i0 rs H.
  - simpl in H. injection H as <-. split; [reflexivity|].
    intros k mask Hk. destruct k; discriminate.
  - simpl in H.
    destruct (frames' e s start_frame end_frame (i0 + 1) masks) as [rs0|]
      eqn:Hrs.
    2:{ destruct (if _ || _ then _ else _); discriminate. }
    destruct (IH (i0 + 1)%Z rs0 Hrs) as [Hl Hk].
    destruct ((i0 <? start_frame)%Z || (i0 >=? end_frame)%Z) eqn:Hout.
    + simpl in H. injection H as <-. split; [simpl; lia|].
      intros [|k] mask Hm.
      * simpl in Hm. injection Hm as <-. rewrite Z.add_0_r. split.
        -- intros _. reflexivity.
        -- intros [A B]. exfalso.
           apply orb_true_iff in Hout. destruct Hout; lia.
      * simpl in Hm. destruct (Hk k mask Hm) as [Ho Hi].
        replace (i0 + Z.of_nat (S k))%Z with (i0 + 1 + Z.of_nat k)%Z by lia.
        split; [exact Ho|exact Hi].
    + destruct (Z.of_nat (length e) =? 0)%Z eqn:He; [discriminate|].
      destruct (e !! Z.to_nat ((i0 - start_frame) mod Z.of_nat (length e)))
        as [progress|] eqn:Hp; [|discriminate].
      simpl in H. injection H as <-. split; [simpl; lia|].
      intros [|k] mask Hm.
      * simpl in Hm. injection Hm as <-. rewrite Z.add_0_r. split.
        -- intros Ho. exfalso.
           apply orb_false_iff in Hout. destruct Hout. lia.
        -- intros _. exists progress. split; [exact Hp|reflexivity].
      * simpl in Hm. destruct (Hk k mask Hm) as [Ho Hi].
        replace (i0 + Z.of_nat (S k))%Z with (i0 + 1 + Z.of_nat k)%Z by lia.
        split; [exact Ho|exact Hi].
Qed.

Lemma temporal_frames_no_values (s : R) (start_frame end_frame : Z)
  (masks : list Mask) :
  forall (i0 : Z) (k : nat) (mask : Mask),
  masks !! k = Some mask ->
  in_effect start_frame end_frame (i0 + Z.of_nat k) ->
  frames' [] s start_frame end_frame i0 masks = None.
Proof.
  induction masks as [|m masks IH]; intros i0 k mask Hk [A B].
  - destruct k; discriminate.
  - destruct k as [|k].
    + simpl. rewrite Z.add_0_r in A, B.
      replace ((i0 <? start_frame)%Z || (i0 >=? end_frame)%Z) with false
        by (symmetry; apply orb_false_iff; lia).
      reflexivity.
    + simpl in Hk. simpl temporal_frames.
      rewrite (IH (i0 + 1)%Z k mask Hk) by (split; lia).
      destruct (if _ || _ then _ else _); reflexivity.
Qed.

Lemma temporal_operation_inversion (masks result : list Mask) (strength : R)
  (start_frame end_frame effect_duration : Z) (easing : string) (pal : bool) :
  temporal' masks strength start_frame end_frame effect_duration easing pal
  = Some result ->
  exists values,
    temporal_easing_values
      (temporal_effect_duration effect_duration start_frame
         (temporal_end_frame end_frame (Z.of_nat (length masks)))
         (Z.of_nat (length masks))) easing pal = Some values /\
    frames' values strength start_frame
      (temporal_end_frame end_frame (Z.of_nat (length masks))) 0 masks
    = Some result /\
    result <> [].
Proof.
  unfold apply_temporal_mask_operation. intros H.
  destruct (temporal_easing_values _ easing pal) as [values|];
    [|discriminate].
  simpl in H.
  destruct (frames' values strength start_frame _ 0 masks) as [rs|] eqn:Hrs;
    [|discriminate].
  simpl in H. apply np_stack_some in H. destruct H as [-> Hne].
  exists values. split; [reflexivity|]. split; [exact Hrs|exact Hne].
Qed.

(** X21.  When [apply_temporal_mask_operation] returns, the result has one
    frame per mask.  A frame before [start_frame], or at or after the end
    frame (the number of frames when the argument is not positive) is the
    mask itself; any other frame is [process_single_mask] called on the mask
    with the frame index and with the strength times the easing value at
    position [(i - start_frame)] modulo the number of easing values. *)
Theorem temporal_operation_frames (masks result : list Mask) (strength : R)
  (start_frame end_frame effect_duration : Z) (easing : string) (pal : bool) :
  temporal' masks strength start_frame end_frame effect_duration easing pal
  = Some result ->
  length result = length masks /\
  forall (k : nat) (mask : Mask), masks !! k = Some mask ->
    (~ in_effect start_frame
         (temporal_end_frame end_frame (Z.of_nat (length masks)))
         (Z.of_nat k) ->
     result !! k = Some mask) /\
    (in_effect start_frame
       (temporal_end_frame end_frame (Z.of_nat (length masks)))
       (Z.of_nat k) ->
     exists values progress,
       temporal_easing_values
         (temporal_effect_duration effect_duration start_frame
            (temporal_end_frame end_frame (Z.of_nat (length masks)))
            (Z.of_nat (length masks))) easing pal = Some values /\
       values !! Z.to_nat ((Z.of_nat k - start_frame)
                           mod Z.of_nat (length values)) = Some progress /\
       result !! k
       = Some (process_single_mask mask (strength * progress) (Z.of_nat k))).
Proof.
  intros H. apply temporal_operation_inversion in H.
  destruct H as (values & Hv & Hf & _).
  destruct (temporal_frames_spec _ _ _ _ _ _ _ Hf) as [Hl Hk].
  split; [exact Hl|]. intros k mask Hm.
  destruct (Hk k mask Hm) as [Ho Hi]. rewrite Z.add_0_l in Ho, Hi. split.
  - intros Hn. apply Ho. unfold in_effect in Hn. lia.
  - intros He. destruct (Hi He) as (progress & Hp & Hr).
    exists values, progress. split; [exact Hv|]. split; [exact Hp|exact Hr].
Qed.

(** X22.  Three ways in which [apply_temporal_mask_operation] raises: on a
    sequence without masks; when no effect duration is given and
    [start_frame] lies after the end frame (a negative number of easing
    values is asked for); and, with [palindrome], an easing other than
    ["None"] and an effect duration of 1, as soon as one frame is in the
    effect (the list of easing values is empty and the index is taken
    modulo 0). *)
Theorem temporal_operation_raises (masks : list Mask) (strength : R)
  (start_frame end_frame effect_duration : Z) (easing : string) (pal : bool) :
  temporal' [] strength start_frame end_frame effect_duration easing pal
  = None /\
  ((effect_duration <= 0)%Z ->
   (temporal_end_frame end_frame (Z.of_nat (length masks)) < start_frame)%Z ->
   temporal' masks strength start_frame end_frame effect_duration easing pal
   = None) /\
  (temporal_effect_duration effect_duration start_frame
     (temporal_end_frame end_frame (Z.of_nat (length masks)))
     (Z.of_nat (length masks)) = 1%Z ->
   easing <> "None" ->
   forall (k : nat) (mask : Mask), masks !! k = Some mask ->
     in_effect start_frame
       (temporal_end_frame end_frame (Z.of_nat (length masks))) (Z.of_nat k) ->
     temporal' masks strength start_frame end_frame effect_duration easing true
     = None).
Proof.
  split; [|split].
  - unfold apply_temporal_mask_operation.
    destruct (temporal_easing_values _ easing pal); reflexivity.
  - intros Hd Hs. unfold apply_temporal_mask_operation.
    assert (E : temporal_easing_values
                  (temporal_effect_duration effect_duration start_frame
                     (temporal_end_frame end_frame (Z.of_nat (length masks)))
                     (Z.of_nat (length masks))) easing pal = None).
    { apply temporal_easing_values_none. unfold temporal_effect_duration.
      replace (effect_duration >? 0)%Z with false by lia. lia. }
    rewrite E. reflexivity.
  - intros Hd Hn k mask Hm He. unfold apply_temporal_mask_operation.
    rewrite Hd. unfold temporal_easing_values.
    rewrite decide_False by exact Hn.
    change (1 / 2)%Z with 0%Z. simpl.
    rewrite (temporal_frames_no_values strength start_frame _ masks 0 k mask Hm)
      by (rewrite Z.add_0_l; exact He).
    reflexivity.
Qed.

End TemporalProperties.

Lemma temporal_easing_values_plain (d : Z) (easing : string) (values : list R) :
  easing <> "None" ->
  temporal_easing_values d easing false = Some values ->
  (0 <= d)%Z /\ length values = Z.to_nat d /\
  forall i, (i < Z.to_nat d)%nat ->
    values !! i
    = Some (apply_easing_at
              (if (d =? 1)%Z then 0 else INR i * (1 / (IZR d - 1))) easing).
Proof.
  intros Hn. unfold temporal_easing_values. rewrite decide_False by exact Hn.
  destruct (linspace01 d) as [t|] eqn:Ht; [|discriminate]. simpl.
  intros [= <-]. destruct (linspace01_spec d t Ht) as (Hd & Hl & Hi).
  split; [exact Hd|]. split.
  - unfold apply_easing. rewrite length_map. exact Hl.
  - intros i Hlt. unfold apply_easing.
    change (map ?f t) with (f <$> t). rewrite list_lookup_fmap.
    rewrite (Hi i Hlt). reflexivity.
Qed.

Section TemporalSchedule.

Variable process_single_mask : Mask -> R -> Z -> Mask.

Local Abbreviation temporal' :=
  (apply_temporal_mask_operation process_single_mask).

(** X23.  The strength of a frame under a linear easing without palindrome;
    ["linear"] and every name [apply_easing] does not know, the declared
    option ["none"] among them, are linear.  With an effect duration [d] (at
    least 1 when a frame is in the effect) the frame [i] in the effect is
    processed with the strength times [((i - start_frame) mod d) / (d - 1)],
    and with strength times 0 when [d] is 1: the first frame of the effect
    gets no strength at all, the frame [start_frame + d - 1] gets the full
    strength. *)
Theorem linear_strength_schedule (masks result : list Mask) (strength : R)
  (start_frame end_frame effect_duration : Z) (easing : string)
  (k : nat) (mask : Mask) :
  easing <> "None" -> easing <> "ease_in_out" -> easing <> "bounce" ->
  easing <> "elastic" ->
  temporal' masks strength start_frame end_frame effect_duration easing false
  = Some result ->
  masks !! k = Some mask ->
  in_effect start_frame
    (temporal_end_frame end_frame (Z.of_nat (length masks))) (Z.of_nat k) ->
  exists d progress,
    d = temporal_effect_duration effect_duration start_frame
          (temporal_end_frame end_frame (Z.of_nat (length masks)))
          (Z.of_nat (length masks)) /\
    (1 <= d)%Z /\
    result !! k
    = Some (process_single_mask mask (strength * progress) (Z.of_nat k)) /\
    progress = (if (d =? 1)%Z then 0
                else IZR ((Z.of_nat k - start_frame) mod d) / (IZR d - 1)) /\
    (Z.of_nat k = start_frame -> progress = 0) /\
    ((2 <= d)%Z -> Z.of_nat k = (start_frame + d - 1)%Z -> progress = 1).
Proof.
  intros Hn H1 H2 H3 H Hm He.
  apply temporal_operation_inversion in H.
  destruct H as (values & Hv & Hf & _).
  destruct (temporal_frames_spec _ _ _ _ _ _ _ _ Hf) as [_ Hk].
  destruct (Hk k mask Hm) as [_ Hi]. rewrite Z.add_0_l in Hi.
  destruct (Hi He) as (progress & Hp & Hr).
  destruct (temporal_easing_values_plain _ _ _ Hn Hv) as (Hd & Hl & Hval).
  remember (temporal_effect_duration effect_duration start_frame
              (temporal_end_frame end_frame (Z.of_nat (length masks)))
              (Z.of_nat (length masks))) as d eqn:Ed.
  assert (Hlen : Z.of_nat (length values) = d) by lia.
  rewrite Hlen in Hp.
  assert (Hpos : (1 <= d)%Z).
  { apply lookup_lt_Some in Hp. lia. }
  pose proof (Z.mod_pos_bound (Z.of_nat k - start_frame) d ltac:(lia)) as Hb.
  rewrite Hval in Hp by lia. injection Hp as Hp.
  rewrite easing_fallback in Hp by assumption.
  rewrite INR_IZR_INZ, Z2Nat.id in Hp by lia.
  assert (Hprog : progress
                  = if (d =? 1)%Z then 0
                    else IZR ((Z.of_nat k - start_frame) mod d) / (IZR d - 1)).
  { rewrite <- Hp. destruct (d =? 1)%Z; [reflexivity|]. unfold Rdiv. ring. }
  exists d, progress.
  split; [reflexivity|]. split; [exact Hpos|]. split; [exact Hr|].
  split; [exact Hprog|]. split.
  - intros Hs. rewrite Hprog. destruct (d =? 1)%Z; [reflexivity|].
    replace (Z.of_nat k - start_frame)%Z with 0%Z by lia.
    rewrite Z.mod_0_l by lia. unfold Rdiv. ring.
  - intros Hd2 Hlast. rewrite Hprog.
    replace (d =? 1)%Z with false by lia.
    replace (Z.of_nat k - start_frame)%Z with (d - 1)%Z by lia.
    rewrite Z.mod_small by lia. rewrite minus_IZR.
    assert (2 <= IZR d) by (apply IZR_le; exact Hd2).
    field. lra.
Qed.

End TemporalSchedule.

(** X24.  The easing values of [apply_temporal_mask_operation].  Asking for
    them raises exactly for a negative effect duration [d].  Without
    palindrome there are [d] values.  With palindrome the list has
    [2 * (d // 2)] values, one less than [d] when [d] is odd, and reads the
    same in both directions. *)
Theorem easing_values_shape (d : Z) (easing : string) (values : list R) :
  (forall pal, temporal_easing_values d easing pal = None <-> (d < 0)%Z) /\
  (temporal_easing_values d easing false = Some values ->
   length values = Z.to_nat d) /\
  (easing <> "None" ->
   temporal_easing_values d easing true = Some values ->
   length values = (2 * Z.to_nat (d / 2))%nat /\
   Z.of_nat (length values) = (d - d mod 2)%Z /\
   rev values = values).
Proof.
  split; [|split].
  - intros pal. apply temporal_easing_values_none.
  - unfold temporal_easing_values. case_decide as Hn.
    + unfold ones. destruct (d <? 0)%Z; [discriminate|]. intros [= <-].
      apply repeat_length.
    + destruct (linspace01 d) as [t|] eqn:Ht; [|discriminate]. simpl.
      intros [= <-]. unfold apply_easing. rewrite length_map.
      apply (linspace01_spec d t Ht).
  - intros Hn. unfold temporal_easing_values.
    rewrite decide_False by exact Hn.
    destruct (linspace01 (d / 2)) as [t|] eqn:Ht; [|discriminate]. simpl.
    intros [= <-]. destruct (linspace01_spec _ t Ht) as (Hd & Hl & _).
    assert (Hlen : length (apply_easing t easing ++ rev (apply_easing t easing))
                   = (2 * Z.to_nat (d / 2))%nat).
    { rewrite length_app, length_rev. unfold apply_easing.
      rewrite length_map. lia. }
    split; [exact Hlen|]. split.
    + rewrite Hlen. pose proof (Z.div_mod d 2). lia.
    + rewrite rev_app_distr, rev_involutive. reflexivity.
Qed.

Lemma temporal_example_runs :
  exists r,
    apply_temporal_mask_operation scale_by_strength two_frames 1 0 0 0
      "linear" false = Some r.
Proof. eexists. reflexivity. Qed.

Lemma witness_temporal_operation_frames :
  exists r,
    apply_temporal_mask_operation scale_by_strength two_frames 1 0 0 0
      "linear" false = Some r /\
    length r = length two_frames.
Proof.
  destruct temporal_example_runs as [r Hr]. exists r. split; [exact Hr|].
  exact (proj1 (temporal_operation_frames scale_by_strength two_frames r
                  1 0 0 0 "linear" false Hr)).
Defined.

Lemma witness_temporal_operation_raises :
  temporal_effect_duration 0 0
    (temporal_end_frame 0 (Z.of_nat (length [half_mask])))
    (Z.of_nat (length [half_mask])) = 1%Z /\
  "linear" <> "None" /\
  [half_mask] !! 0%nat = Some half_mask /\
  in_effect 0 (temporal_end_frame 0 (Z.of_nat (length [half_mask])))
    (Z.of_nat 0) /\
  apply_temporal_mask_operation scale_by_strength [half_mask] 1 0 0 0
    "linear" true = None.
Proof.
  assert (A : temporal_effect_duration 0 0
                (temporal_end_frame 0 (Z.of_nat (length [half_mask])))
                (Z.of_nat (length [half_mask])) = 1%Z) by reflexivity.
  assert (B : "linear" <> "None") by discriminate.
  assert (C : [half_mask] !! 0%nat = Some half_mask) by reflexivity.
  assert (D : in_effect 0
                (temporal_end_frame 0 (Z.of_nat (length [half_mask])))
                (Z.of_nat 0)).
  { unfold in_effect, temporal_end_frame. simpl. lia. }
  split; [exact A|]. split; [exact B|]. split; [exact C|]. split; [exact D|].
  exact (proj2 (proj2 (temporal_operation_raises scale_by_strength
                         [half_mask] 1 0 0 0 "linear" true))
           A B 0%nat half_mask C D).
Defined.

Lemma witness_linear_strength_schedule :
  "linear" <> "None" /\ "linear" <> "ease_in_out" /\ "linear" <> "bounce" /\
  "linear" <> "elastic" /\
  two_frames !! 1%nat = Some half_mask /\
  in_effect 0 (temporal_end_frame 0 (Z.of_nat (length two_frames)))
    (Z.of_nat 1) /\
  exists r progress,
    apply_temporal_mask_operation scale_by_strength two_frames 1 0 0 0
      "linear" false = Some r /\
    r !! 1%nat = Some (scale_by_strength half_mask (1 * progress) (Z.of_nat 1)) /\
    progress = 1.
Proof.
  assert (A : "linear" <> "None") by discriminate.
  assert (B : "linear" <> "ease_in_out") by discriminate.
  assert (C : "linear" <> "bounce") by discriminate.
  assert (D : "linear" <> "elastic") by discriminate.
  assert (E : two_frames !! 1%nat = Some half_mask) by reflexivity.
  assert (F : in_effect 0
                (temporal_end_frame 0 (Z.of_nat (length two_frames)))
                (Z.of_nat 1)).
  { unfold in_effect, temporal_end_frame. simpl. lia. }
  split; [exact A|]. split; [exact B|]. split; [exact C|]. split; [exact D|].
  split; [exact E|]. split; [exact F|].
  destruct temporal_example_runs as [r Hr].
  destruct (linear_strength_schedule scale_by_strength two_frames r 1 0 0 0
              "linear" 1%nat half_mask A B C D Hr E F)
    as (d & progress & Ed & _ & Hk & _ & _ & Hlast).
  assert (Hd : d = 2%Z) by (rewrite Ed; reflexivity).
  exists r, progress. split; [exact Hr|]. split; [exact Hk|].
  apply Hlast; rewrite Hd; simpl; lia.
Defined.

Lemma witness_easing_values_shape :
  "linear" <> "None" /\
  temporal_easing_values 3 "linear" true
  = Some (apply_easing [0] "linear" ++ rev (apply_easing [0] "linear")) /\
  Z.of_nat (length (apply_easing [0] "linear" ++ rev (apply_easing [0] "linear")))
  = (3 - 3 mod 2)%Z.
Proof.
  assert (A : "linear" <> "None") by discriminate.
  assert (B : temporal_easing_values 3 "linear" true
              = Some (apply_easing [0] "linear"
                      ++ rev (apply_easing [0] "linear"))) by reflexivity.
  split; [exact A|]. split; [exact B|].
  exact (proj1 (proj2 (proj2 (proj2 (easing_values_shape 3 "linear" _)) A B))).
Defined.

(** * The modulation of the emitters *)

Lemma amplitude_bound (base amp x : R) :
  Rabs (base + amp * sin x - base) <= Rabs amp.
Proof.
  replace (base + amp * sin x - base) with (amp * sin x) by ring.
  rewrite Rabs_mult. pose proof (SIN_bound x) as [A B].
  assert (Rabs (sin x) <= 1) by (apply Rabs_le; lra).
  pose proof (Rabs_pos amp).
  replace (Rabs amp) with (Rabs amp * 1) at 2 by ring.
  apply Rmult_le_compat_l; assumption.
Qed.

Lemma at_rest (base amp freq : R) :
  base + amp * sin (2 * PI * freq * (IZR 0 / 30)) = base.
Proof.
  replace (2 * PI * freq * (IZR 0 / 30)) with 0 by (unfold Rdiv; ring).
  rewrite sin_0. ring.
Qed.

(** X25.  [modulate_parameters] on an emitter that [main_function] has
    registered never raises.  An emitter without a [movement] block is left
    as it is.  For a moving emitter the position and the direction are
    computed from the values recorded at registration, so modulating for a
    frame gives the same emitter whether or not other frames were modulated
    before; each value stays within the amplitude of the recorded one, and
    is the recorded one at frame 0; the pixel position is the modulated
    position times the width and the height of the mask. *)
Theorem modulate_emitter_no_drift (frame_index frame_index' : Z)
  (width height : R) (emitter : Emitter) (mv : option Movement) :
  exists e1,
    modulate_emitter frame_index width height (register_emitter emitter mv)
    = Some e1 /\
    modulate_emitter frame_index' width height e1
    = modulate_emitter frame_index' width height (register_emitter emitter mv) /\
    (mv = None -> e1 = register_emitter emitter None) /\
    (forall m, mv = Some m ->
       Rabs (emitter_x (me_emitter e1) - emitter_x emitter)
       <= Rabs (emitter_x_amplitude m) /\
       Rabs (emitter_y (me_emitter e1) - emitter_y emitter)
       <= Rabs (emitter_y_amplitude m) /\
       Rabs (particle_direction (me_emitter e1) - particle_direction emitter)
       <= Rabs (direction_amplitude m) /\
       me_position e1
       = Some (emitter_x (me_emitter e1) * width,
               emitter_y (me_emitter e1) * height) /\
       (frame_index = 0%Z ->
        emitter_x (me_emitter e1) = emitter_x emitter /\
        emitter_y (me_emitter e1) = emitter_y emitter /\
        particle_direction (me_emitter e1) = particle_direction emitter)).
Proof.
  destruct mv as [m|].
  - eexists. split; [reflexivity|]. split; [reflexivity|].
    split; [discriminate|]. intros m' [= <-]. cbn.
    split; [apply amplitude_bound|]. split; [apply amplitude_bound|].
    split; [apply amplitude_bound|]. split; [reflexivity|].
    intros ->. split; [apply at_rest|]. split; apply at_rest.
  - exists (register_emitter emitter None).
    split; [reflexivity|]. split; [reflexivity|]. split; [reflexivity|].
    discriminate.
Qed.

(** * [OpticalFlowMaskBase] *)

Lemma concat_mask_map (f : R -> R) (m : Mask) :
  concat (mask_map f m) = map f (concat m).
Proof. unfold mask_map. symmetry. apply concat_map. Qed.

Lemma zero_below_small (m : Mask) (threshold : R) :
  Forall (fun v => v < threshold) (concat m) ->
  Forall (fun v => v = 0) (concat (zero_below m threshold)).
Proof.
  intros H. unfold zero_below. rewrite concat_mask_map.
  apply Forall_fmap. eapply Forall_impl; [exact H|].
  intros v Hv. simpl. apply Rltb_true_iff in Hv. rewrite Hv. reflexivity.
Qed.

Lemma zero_below_zero (m : Mask) (threshold : R) :
  Forall (fun v => v = 0) (concat m) ->
  Forall (fun v => v = 0) (concat (zero_below m threshold)).
Proof.
  intros H. unfold zero_below. rewrite concat_mask_map.
  apply Forall_fmap. eapply Forall_impl; [exact H|].
  intros v ->. simpl. destruct (Rltb 0 threshold); reflexivity.
Qed.

Lemma zero_below_elements (m : Mask) (threshold : R) :
  concat m <> [] -> concat (zero_below m threshold) <> [].
Proof.
  unfold zero_below. rewrite concat_mask_map.
  destruct (concat m); [congruence|discriminate].
Qed.

Section OpticalFlowProperties.

Variable calculate_optical_flow : Image -> Image -> string -> option Flow.
Variable apply_flow_mask : Mask -> Normalized -> Flow -> R -> Mask.
Variable apply_blur : Mask -> R -> Mask.
Variable create_distance_transform : Mask -> Mask.

Local Abbreviation flow_mask' :=
  (optical_flow_process_mask calculate_optical_flow apply_flow_mask).
Local Abbreviation flow_frames' :=
  (optical_flow_frames calculate_optical_flow apply_flow_mask).
Local Abbreviation flow_main' :=
  (optical_flow_main_function calculate_optical_flow apply_flow_mask
     apply_blur create_distance_transform).

Lemma optical_flow_pass (mask : Mask) (strength : R) (images : list Image)
  (flow_method : string) (ft mt : R) (frame_index : Z) :
  (frame_index = 0 \/ Z.of_nat (length images) - 1 <= frame_index)%Z ->
  flow_mask' mask strength images flow_method ft mt frame_index = Some mask.
Proof.
  intros H. unfold optical_flow_process_mask.
  replace ((frame_index =? 0)%Z
           || (frame_index >=? Z.of_nat (length images) - 1)%Z) with true;
    [reflexivity|].
  symmetry. apply orb_true_iff. destruct H; [left|right]; lia.
Qed.

Lemma optical_flow_frames_pass (strength : R) (images : list Image)
  (flow_method : string) (ft mt : R) (masks : list Mask) :
  forall i0 : Z,
  (forall k, (k < length masks)%nat ->
     (i0 + Z.of_nat k = 0 \/
      Z.of_nat (length images) - 1 <= i0 + Z.of_nat k)%Z) ->
  flow_frames' masks strength images flow_method ft mt i0 = Some masks.
Proof.
  induction masks as [|mask masks IH]; intros i0 H; [reflexivity|].
  simpl. rewrite optical_flow_pass.
  - simpl. rewrite IH; [reflexivity|].
    intros k Hk. specialize (H (S k) ltac:(simpl; lia)).
    replace (i0 + 1 + Z.of_nat k)%Z with (i0 + Z.of_nat (S k))%Z by lia.
    exact H.
  - specialize (H 0%nat ltac:(simpl; lia)). rewrite Z.add_0_r in H. exact H.
Qed.

(** X26.  [OpticalFlowMaskBase.process_mask] returns the mask untouched, and
    computes no flow, for frame 0 and for every frame from the last image
    on.  With at most two images this is every frame, and [main_function]
    is [apply_mask_operation] on the stacked masks with the masks themselves
    as originals, whatever the flow method and the thresholds. *)
Theorem optical_flow_end_frames_pass (pre post : list (Mask -> Mask))
  (masks : list Mask) (images : list Image) (strength : R)
  (flow_method : string) (flow_threshold magnitude_threshold : R)
  (invert : bool) (subtract_original grow_with_blur : R) :
  (forall mask frame_index,
     (frame_index = 0 \/ Z.of_nat (length images) - 1 <= frame_index)%Z ->
     flow_mask' mask strength images flow_method flow_threshold
                magnitude_threshold frame_index = Some mask) /\
  ((length images <= 2)%nat ->
   flow_main' pre post masks images strength flow_method flow_threshold
              magnitude_threshold invert subtract_original grow_with_blur
   = (processed_masks ← np_stack masks;
      apply_mask_operation apply_blur create_distance_transform pre post
        processed_masks masks strength invert subtract_original
        grow_with_blur)).
Proof.
  split.
  - intros mask frame_index. apply optical_flow_pass.
  - intros Hl. unfold optical_flow_main_function.
    rewrite optical_flow_frames_pass; [reflexivity|].
    intros k _. lia.
Qed.

(** X27.  A frame between the first and the last image whose flow is
    everywhere below [flow_threshold]: both thresholds leave an array of
    zeros, its normalization is 0/0, and [apply_flow_mask] is handed an
    array of NaN as the flow magnitude. *)
Theorem still_scene_gives_nan (mask : Mask) (strength : R)
  (images : list Image) (flow_method : string)
  (flow_threshold magnitude_threshold : R) (frame_index : Z)
  (frame1 frame2 : Image) (flow : Flow) :
  (0 < frame_index)%Z -> (frame_index < Z.of_nat (length images) - 1)%Z ->
  images !! Z.to_nat frame_index = Some frame1 ->
  images !! Z.to_nat (frame_index + 1) = Some frame2 ->
  calculate_optical_flow frame1 frame2 flow_method = Some flow ->
  concat flow <> [] ->
  Forall (fun v => v < flow_threshold) (concat (flow_magnitude_of flow)) ->
  flow_mask' mask strength images flow_method flow_threshold
             magnitude_threshold frame_index
  = Some (apply_flow_mask mask NotANumber flow strength).
Proof.
  intros H0 H1 Hf1 Hf2 Hflow Hne Hsmall. unfold optical_flow_process_mask.
  replace ((frame_index =? 0)%Z
           || (frame_index >=? Z.of_nat (length images) - 1)%Z) with false
    by (symmetry; apply orb_false_iff; lia).
  rewrite Hf1. simpl. rewrite Hf2. simpl. rewrite Hflow. simpl.
  assert (Hne1 : concat (flow_magnitude_of flow) <> []).
  { unfold flow_magnitude_of. rewrite <- concat_map.
    destruct (concat flow); [congruence|discriminate]. }
  pose proof (zero_below_small _ _ Hsmall) as Hz.
  pose proof (zero_below_elements _ flow_threshold Hne1) as Hne2.
  destruct (max_of (concat (zero_below (flow_magnitude_of flow)
                              flow_threshold))) as [biggest|] eqn:Hmax.
  2:{ destruct (concat (zero_below (flow_magnitude_of flow) flow_threshold));
      [congruence|discriminate]. }
  simpl.
  rewrite normalize_array_flat; [reflexivity| |].
  - apply zero_below_elements. exact Hne2.
  - pose proof (zero_below_zero _ (magnitude_threshold * biggest) Hz) as Hz2.
    rewrite Forall_forall in Hz2. intros x y Hx Hy.
    apply list_elem_of_In in Hx, Hy.
    rewrite (Hz2 x Hx), (Hz2 y Hy). reflexivity.
Qed.

End OpticalFlowProperties.

Lemma witness_still_scene :
  (0 < 1)%Z /\ (1 < Z.of_nat (length three_images) - 1)%Z /\
  three_images !! Z.to_nat 1 = Some blank_image /\
  three_images !! Z.to_nat (1 + 1) = Some blank_image /\
  still_flow blank_image blank_image "Farneback" = Some [[(0, 0)]] /\
  concat [[(0, 0)]] <> [] /\
  Forall (fun v => v < 1) (concat (flow_magnitude_of [[(0, 0)]])) /\
  optical_flow_process_mask still_flow keep_under_flow half_mask 1
    three_images "Farneback" 1 (1 / 2) 1 = Some half_mask.
Proof.
  assert (A : (0 < 1)%Z) by lia.
  assert (B : (1 < Z.of_nat (length three_images) - 1)%Z) by (simpl; lia).
  assert (C : three_images !! Z.to_nat 1 = Some blank_image) by reflexivity.
  assert (D : three_images !! Z.to_nat (1 + 1) = Some blank_image)
    by reflexivity.
  assert (E : still_flow blank_image blank_image "Farneback"
              = Some [[(0, 0)]]) by reflexivity.
  assert (F : concat [[(0, 0)]] <> []) by discriminate.
  assert (G : Forall (fun v => v < 1) (concat (flow_magnitude_of [[(0, 0)]]))).
  { simpl. constructor; [|constructor].
    rewrite Rmult_0_l, Rplus_0_l, sqrt_0. lra. }
  split; [exact A|]. split; [exact B|]. split; [exact C|]. split; [exact D|].
  split; [exact E|]. split; [exact F|]. split; [exact G|].
  exact (still_scene_gives_nan still_flow keep_under_flow half_mask 1
           three_images "Farneback" 1 (1 / 2) 1 blank_image blank_image
           [[(0, 0)]] A B C D E F G).
Defined.

(** * [TemporalMaskBase.main_function] and the processors *)

(** X28.  The processors of [pre_process] and [post_process] run in the
    order in which they were added: a processor added last runs on the
    result of the ones before it, and two lists of processors in sequence
    are the second run on the result of the first. *)
Theorem processors_run_in_registration_order
  (processors others : list (Mask -> Mask)) (func : Mask -> Mask)
  (mask : Mask) :
  run_processors [] mask = mask /\
  run_processors (add_processor processors func) mask
  = func (run_processors processors mask) /\
  run_processors (add_processor (add_processor [] func) func) mask
  = func (func mask) /\
  run_processors (processors ++ others) mask
  = run_processors others (run_processors processors mask).
Proof.
  unfold run_processors, add_processor.
  split; [reflexivity|]. split; [|split].
  - rewrite fold_left_app. reflexivity.
  - reflexivity.
  - apply fold_left_app.
Qed.

Lemma temporal_operation_stacked (process_single_mask : Mask -> R -> Z -> Mask)
  (masks result : list Mask) (strength : R)
  (start_frame end_frame effect_duration : Z) (easing : string) (pal : bool) :
  apply_temporal_mask_operation process_single_mask masks strength start_frame
    end_frame effect_duration easing pal = Some result ->
  np_stack result = Some result.
Proof.
  unfold apply_temporal_mask_operation. intros H.
  destruct (temporal_easing_values _ easing pal) as [values|];
    [|discriminate].
  cbn [mbind option_bind] in H.
  destruct (temporal_frames process_single_mask values strength start_frame
              _ 0 masks) as [rs|]; [|discriminate].
  cbn [mbind option_bind] in H. pose proof H as Hst.
  apply np_stack_some in H. destruct H as [-> _]. exact Hst.
Qed.

Section TemporalMainProperties.

Variable apply_blur : Mask -> R -> Mask.
Variable create_distance_transform : Mask -> Mask.
Variable process_single_mask : Mask -> R -> Z -> Mask.

Local Abbreviation main' :=
  (temporal_main_function apply_blur create_distance_transform
     process_single_mask).

Lemma temporal_main_inversion (pre post : list (Mask -> Mask))
  (masks result : list Mask) (strength : R) (invert : bool) (sub blur : R)
  (start_frame end_frame effect_duration : Z) (easing : string) (pal : bool) :
  main' pre post masks strength invert sub blur start_frame end_frame
        effect_duration easing pal = Some result ->
  exists processed,
    apply_temporal_mask_operation process_single_mask masks strength
      start_frame end_frame effect_duration easing pal = Some processed /\
    apply_mask_operation apply_blur create_distance_transform pre post
      processed masks strength invert sub blur = Some result.
Proof.
  unfold temporal_main_function. intros H.
  destruct (apply_temporal_mask_operation process_single_mask masks strength
              start_frame end_frame effect_duration easing pal)
    as [processed|]; [|discriminate].
  exists processed. split; [reflexivity|exact H].
Qed.

(** X29.  Whenever [TemporalMaskBase.main_function] returns, the result has
    one frame per input mask and every element lies between 0 and 1.  With
    no processor and the options off ([invert] false, no subtraction, no
    blur) a frame outside the effect is the input mask clipped to
    [0, 1], and a frame in the effect is the clipped result of
    [process_single_mask]. *)
Theorem temporal_main_function_output (pre post : list (Mask -> Mask))
  (masks result : list Mask) (strength : R) (invert : bool)
  (subtract_original grow_with_blur : R)
  (start_frame end_frame effect_duration : Z) (easing : string) (pal : bool) :
  main' pre post masks strength invert subtract_original grow_with_blur
        start_frame end_frame effect_duration easing pal = Some result ->
  length result = length masks /\
  Forall in_unit_range result /\
  (pre = [] -> post = [] -> invert = false ->
   subtract_original <= 0 -> grow_with_blur <= 0 ->
   forall (k : nat) (mask : Mask), masks !! k = Some mask ->
     (~ in_effect start_frame
          (temporal_end_frame end_frame (Z.of_nat (length masks)))
          (Z.of_nat k) ->
      result !! k = Some (mask_map (fun v => clip v 0 1) mask)) /\
     (in_effect start_frame
        (temporal_end_frame end_frame (Z.of_nat (length masks)))
        (Z.of_nat k) ->
      exists temporal_strength,
        result !! k
        = Some (mask_map (fun v => clip v 0 1)
                  (process_single_mask mask temporal_strength (Z.of_nat k))))).
Proof.
  intros H. apply temporal_main_inversion in H.
  destruct H as (processed & Ht & Ho).
  pose proof Ht as Hinv. apply temporal_operation_inversion in Hinv.
  destruct Hinv as (values & Hv & Hf & _).
  destruct (temporal_frames_spec _ _ _ _ _ _ _ _ Hf) as [Hl Hk].
  unfold apply_mask_operation in Ho.
  destruct (mask_operation_frames apply_blur create_distance_transform
              pre post invert subtract_original grow_with_blur
              processed masks) as [rs|] eqn:Hrs; [|discriminate].
  simpl in Ho. apply np_stack_some in Ho. destruct Ho as [-> _].
  destruct (mask_operation_frames_lookup _ _ _ _ _ _ _ _ _ _ Hrs)
    as [Hlr Hkr].
  split; [lia|]. split.
  - apply Forall_lookup. intros f r Hr.
    destruct (Hkr f r Hr) as (p & o & _ & _ & Hfr).
    eapply mask_operation_frame_unit. exact Hfr.
  - intros -> -> -> Hs Hb k mask Hm.
    rewrite (plain_frames apply_blur create_distance_transform false
               subtract_original grow_with_blur processed masks Hs Hb)
      in Hrs by lia.
    injection Hrs as <-.
    destruct (Hk k mask Hm) as [Hout Hin]. rewrite Z.add_0_l in Hout, Hin.
    split.
    + intros Hn.
      assert (Hp : processed !! k = Some mask).
      { apply Hout. unfold in_effect in Hn. lia. }
      change (map ?f processed) with (f <$> processed).
      rewrite list_lookup_fmap, Hp. reflexivity.
    + intros He. destruct (Hin He) as (progress & _ & Hp).
      exists (strength * progress).
      change (map ?f processed) with (f <$> processed).
      rewrite list_lookup_fmap, Hp. reflexivity.
Qed.

End TemporalMainProperties.

Lemma temporal_main_example_runs :
  exists r,
    temporal_main_function no_blur distance_as_given scale_by_strength [] []
      two_frames 1 false 0 0 0 0 0 "linear" false = Some r.
Proof.
  unfold temporal_main_function.
  destruct temporal_example_runs as [processed Hp]. rewrite Hp. simpl.
  pose proof Hp as Hinv. apply temporal_operation_inversion in Hinv.
  destruct Hinv as (values & _ & Hf & Hne).
  destruct (temporal_frames_spec _ _ _ _ _ _ _ _ Hf) as [Hl _].
  unfold apply_mask_operation.
  rewrite plain_frames by (lra || lia). simpl.
  destruct processed as [|first rest]; [congruence|].
  destruct (np_stack (map _ (first :: rest))) as [r|] eqn:Hr;
    [exists r; reflexivity|].
  exfalso. apply temporal_operation_stacked in Hp.
  apply (np_stack_map (fun p => mask_map (fun v => clip v 0 1) p)) in Hp.
  - congruence.
  - intros m. apply shape_of_mask_map.
Qed.

Lemma witness_temporal_main_function :
  exists r,
    temporal_main_function no_blur distance_as_given scale_by_strength [] []
      two_frames 1 false 0 0 0 0 0 "linear" false = Some r /\
    length r = length two_frames.
Proof.
  destruct temporal_main_example_runs as [r Hr]. exists r.
  split; [exact Hr|].
  exact (proj1 (temporal_main_function_output no_blur distance_as_given
                  scale_by_strength [] [] two_frames r 1 false 0 0 0 0 0
                  "linear" false Hr)).
Defined.
